(** * Meeting transcription back end: provider selection, response parsing,
      transcript post-processing, speaker statistics and job processing.

    A shallow embedding of the JavaScript sources

    - [backend/src/config/ai-services.js]               (module [AIServiceManager]),
    - [backend/src/services/speechToTextService.js]     (module [SpeechToTextService]),
    - [backend/src/models/Transcript.js]                (module [Transcript]),
    - [backend/src/controllers/transcriptionController.js]
                                                        (module [TranscriptionController]),

    followed by the properties established about them.

    Conventions of the embedding.  JavaScript numbers are modelled by exact
    rationals ([Q]); every concrete input used below is a dyadic rational, hence
    exactly representable as a double.  A JavaScript string that is processed
    character by character (segment text) is a list of Unicode code points;
    identifiers and names are ordinary strings.  An optional property is an
    [option]; a call that may throw returns an [outcome].  A lookup by name in
    a plain object also finds what every object inherits ([JS.inherited]). *)

From Stdlib Require Import ZArith NArith QArith Qround Qabs Lia Lqa Bool.
From Stdlib Require Import List String Ascii DecimalString.
From stdpp Require Import base option list gmap strings.
Import ListNotations.

Local Open Scope string_scope.
Local Open Scope list_scope.

(** ** JavaScript values *)

Module JS.

(** Result of a call that either returns or throws [new Error(message)]. *)
Inductive outcome (A : Type) : Type :=
| Returned (a : A)
| Thrown (message : string).
Arguments Returned {A} a.
Arguments Thrown {A} message.

(** Number comparisons [x <= y] and [x < y]. *)
Definition leb (x y : Q) : bool := Qle_bool x y.
Definition ltb (x y : Q) : bool := negb (Qle_bool y x).

(** Truthiness of a number: [0] is falsy. *)
Definition truthy (x : Q) : bool := negb (Qeq_bool x 0).

(** [x || d] for an optional number [x]: [undefined] and [0] select [d]. *)
Definition num_or (x : option Q) (d : Q) : Q :=
  match x with
  | Some v => if truthy v then v else d
  | None => d
  end.

(** [x || d] for an optional string: [undefined] and the empty string select [d]. *)
Definition str_or (x : option string) (d : string) : string :=
  match x with
  | Some EmptyString => d
  | Some v => v
  | None => d
  end.

(** [o !== false] for an optional boolean option. *)
Definition not_false (o : option bool) : bool :=
  match o with
  | Some false => false
  | _ => true
  end.

(** The names every object inherits from [Object.prototype].  A lookup
    [o[name]] on a plain object finds them although [o] has no key of that
    name, and what it finds (a function, or the prototype itself) is truthy. *)
Definition Object_prototype : list string :=
  ["constructor"; "__defineGetter__"; "__defineSetter__"; "hasOwnProperty";
   "__lookupGetter__"; "__lookupSetter__"; "isPrototypeOf"; "propertyIsEnumerable";
   "toString"; "valueOf"; "__proto__"; "toLocaleString"].

Definition inherited (name : string) : bool :=
  existsb (String.eqb name) Object_prototype.

(** [Math.round]: nearest integer, halves rounded towards plus infinity. *)
Definition Math_round (x : Q) : Z := Qfloor (x + (1 # 2)).

(** Text as a sequence of code points, and the code points of an ASCII literal. *)
Definition ustring := list N.

Definition lit (s : string) : ustring :=
  List.map N_of_ascii (list_ascii_of_string s).

(** [parts.join(sep)] *)
Fixpoint join (sep : ustring) (parts : list ustring) : ustring :=
  match parts with
  | [] => []
  | [p] => p
  | p :: rest => p ++ sep ++ join sep rest
  end.

End JS.

(** ** ai-services.js: the STT registry and provider selection *)

Module AIServiceManager.
Import JS.

(** [process.env.X === 'true'] for the four enablement flags. *)
Record Env := {
  FPT_STT_ENABLED : bool;
  WHISPER_ENABLED : bool;
  GOOGLE_STT_ENABLED : bool;
  AZURE_STT_ENABLED : bool
}.

Record RetryConfig := {
  maxAttempts : nat;
  backoffMultiplier : nat;
  initialDelay : nat
}.

Record Limits := {
  maxFileSize : Q;
  maxDuration : option Q;
  supportedFormats : list string
}.

(** One entry of [sttServices]; the nested [config] object is flattened and
    only the properties read by the code below are kept. *)
Record STTService := {
  enabled : bool;
  languages : list string;
  retry : option RetryConfig;
  limits : Limits
}.

Definition MB : Q := inject_Z (1024 * 1024).

Definition fpt (env : Env) : STTService := {|
  enabled := FPT_STT_ENABLED env;
  languages := ["vi-VN"; "en-US"];
  retry := Some {| maxAttempts := 3; backoffMultiplier := 2; initialDelay := 1000 |};
  limits := {| maxFileSize := 100 * MB; maxDuration := Some 3600%Q;
               supportedFormats := ["wav"; "mp3"; "flac"; "m4a"] |}
|}.

Definition whisper (env : Env) : STTService := {|
  enabled := WHISPER_ENABLED env;
  languages := ["auto"; "en"; "vi"; "zh"; "ja"; "ko"; "fr"; "de"; "es"; "it"; "pt"; "ru"];
  retry := None;
  limits := {| maxFileSize := 25 * MB; maxDuration := None;
               supportedFormats := ["flac"; "m4a"; "mp3"; "mp4"; "mpeg"; "mpga";
                                    "oga"; "ogg"; "wav"; "webm"] |}
|}.

Definition google (env : Env) : STTService := {|
  enabled := GOOGLE_STT_ENABLED env;
  languages := ["vi-VN"; "en-US"; "zh-CN"; "ja-JP"; "ko-KR"];
  retry := None;
  limits := {| maxFileSize := 1024 * MB; maxDuration := Some (480 * 60)%Q;
               supportedFormats := ["wav"; "flac"; "mp3"; "ogg"; "amr"; "awb"] |}
|}.

Definition azure (env : Env) : STTService := {|
  enabled := AZURE_STT_ENABLED env;
  languages := ["vi-VN"; "en-US"; "zh-CN"; "ja-JP"; "ko-KR"];
  retry := None;
  limits := {| maxFileSize := 1024 * MB; maxDuration := Some (240 * 60)%Q;
               supportedFormats := ["wav"; "ogg"; "amr"; "flac"] |}
|}.

(** The registry, in the key order [Object.entries] enumerates. *)
Definition registry := list (string * STTService).

Definition sttServices (env : Env) : registry :=
  [("fpt", fpt env); ("whisper", whisper env);
   ("google", google env); ("azure", azure env)].

(** What [getAvailableSTTServices] keeps of an entry. *)
Record Available := {
  name : string;
  a_languages : list string;
  a_limits : Limits
}.

Definition getAvailableSTTServices (services : registry) : list Available :=
  List.map (fun '(n, config) =>
              {| name := n; a_languages := languages config; a_limits := limits config |})
           (List.filter (fun '(_, config) => enabled config) services).

Definition includes (l : list string) (x : string) : bool :=
  List.existsb (String.eqb x) l.

Definition supportsLanguage (language : string) (service : Available) : bool :=
  includes (a_languages service) language || includes (a_languages service) "auto".

(** [fileSize <= limits.maxFileSize && (duration <= limits.maxDuration || !limits.maxDuration)];
    a comparison with [undefined] is false, and [!m] holds for [undefined] and [0]. *)
Definition withinLimits (fileSize duration : Q) (service : Available) : bool :=
  let limits := a_limits service in
  leb fileSize (maxFileSize limits) &&
  match maxDuration limits with
  | Some m => leb duration m || negb (truthy m)
  | None => true
  end.

Definition priorityOrder : list string := ["fpt"; "whisper"; "google"; "azure"].

(** The [for (const serviceName of priorityOrder)] loop. *)
Fixpoint pickByPriority (order : list string) (suitable : list Available) : option string :=
  match order with
  | [] => None
  | serviceName :: rest =>
      match List.find (fun s => String.eqb (name s) serviceName) suitable with
      | Some service => Some (name service)
      | None => pickByPriority rest suitable
      end
  end.

Definition noSuitableMessage : string :=
  "No suitable STT service available for the given requirements".

Definition selectFrom (services : registry) (language : string) (fileSize duration : Q)
  : outcome string :=
  let availableServices := getAvailableSTTServices services in
  let compatibleServices := List.filter (supportsLanguage language) availableServices in
  let suitableServices := List.filter (withinLimits fileSize duration) compatibleServices in
  match suitableServices with
  | [] => Thrown noSuitableMessage
  | first :: _ =>
      match pickByPriority priorityOrder suitableServices with
      | Some n => Returned n
      | None => Returned (name first)
      end
  end.

(** [getBestSTTService(language = 'auto', fileSize = 0, duration = 0)] on the
    manager whose [sttServices] were read from [env]. *)
Definition getBestSTTService (env : Env)
    (language : option string) (fileSize duration : option Q) : outcome string :=
  selectFrom (sttServices env) (default "auto" language)
             (default 0%Q fileSize) (default 0%Q duration).

(** What [this.sttServices[serviceName]] finds when it finds something: an
    entry of the registry, or a property that the registry object inherits. *)
Inductive Looked : Type :=
| OwnEntry (service : STTService)
| InheritedProperty.

(** [getServiceConfig(serviceName, 'stt')]: throws when the lookup finds
    nothing.  The registry is a plain object, so for the name of an inherited
    property the lookup finds that property and nothing is thrown. *)
Definition getServiceConfig (env : Env) (serviceName : string) : outcome Looked :=
  match List.find (fun '(n, _) => String.eqb n serviceName) (sttServices env) with
  | Some (_, service) => Returned (OwnEntry service)
  | None =>
      if inherited serviceName then Returned InheritedProperty
      else Thrown ("Service " +:+ serviceName +:+ " not found in stt services")
  end.

End AIServiceManager.

(** ** speechToTextService.js: response parsing and post-processing *)

Module SpeechToTextService.
Import JS.
Local Open Scope Q_scope.

(** *** Character classes of the regular expressions *)

Definition in_range (c lo hi : N) : bool := (lo <=? c)%N && (c <=? hi)%N.

(** [\s]: the WhiteSpace and LineTerminator code points. *)
Definition is_space (c : N) : bool :=
  in_range c 9 13 || (c =? 32)%N || (c =? 160)%N || (c =? 5760)%N ||
  in_range c 8192 8202 || (c =? 8232)%N || (c =? 8233)%N || (c =? 8239)%N ||
  (c =? 8287)%N || (c =? 12288)%N || (c =? 65279)%N.

(** [\w]: [A-Za-z0-9_]. *)
Definition is_word (c : N) : bool :=
  in_range c 48 57 || in_range c 65 90 || (c =? 95)%N || in_range c 97 122.

(** [\p{P}]: the code points of General_Category Punctuation (Unicode 14.0),
    as inclusive ranges. *)
Definition punctuation_ranges : list (N * N) :=
  [(33, 35); (37, 42); (44, 47); (58, 59); (63, 64); (91, 93); (95, 95); (123, 123);
   (125, 125); (161, 161); (167, 167); (171, 171); (182, 183); (187, 187); (191, 191);
   (894, 894); (903, 903); (1370, 1375); (1417, 1418); (1470, 1470); (1472, 1472);
   (1475, 1475); (1478, 1478); (1523, 1524); (1545, 1546); (1548, 1549); (1563, 1563);
   (1565, 1567); (1642, 1645); (1748, 1748); (1792, 1805); (2039, 2041); (2096, 2110);
   (2142, 2142); (2404, 2405); (2416, 2416); (2557, 2557); (2678, 2678); (2800, 2800);
   (3191, 3191); (3204, 3204); (3572, 3572); (3663, 3663); (3674, 3675); (3844, 3858);
   (3860, 3860); (3898, 3901); (3973, 3973); (4048, 4052); (4057, 4058); (4170, 4175);
   (4347, 4347); (4960, 4968); (5120, 5120); (5742, 5742); (5787, 5788); (5867, 5869);
   (5941, 5942); (6100, 6102); (6104, 6106); (6144, 6154); (6468, 6469); (6686, 6687);
   (6816, 6822); (6824, 6829); (7002, 7008); (7037, 7038); (7164, 7167); (7227, 7231);
   (7294, 7295); (7360, 7367); (7379, 7379); (8208, 8231); (8240, 8259); (8261, 8273);
   (8275, 8286); (8317, 8318); (8333, 8334); (8968, 8971); (9001, 9002);
   (10088, 10101); (10181, 10182); (10214, 10223); (10627, 10648); (10712, 10715);
   (10748, 10749); (11513, 11516); (11518, 11519); (11632, 11632); (11776, 11822);
   (11824, 11855); (11858, 11869); (12289, 12291); (12296, 12305); (12308, 12319);
   (12336, 12336); (12349, 12349); (12448, 12448); (12539, 12539); (42238, 42239);
   (42509, 42511); (42611, 42611); (42622, 42622); (42738, 42743); (43124, 43127);
   (43214, 43215); (43256, 43258); (43260, 43260); (43310, 43311); (43359, 43359);
   (43457, 43469); (43486, 43487); (43612, 43615); (43742, 43743); (43760, 43761);
   (44011, 44011); (64830, 64831); (65040, 65049); (65072, 65106); (65108, 65121);
   (65123, 65123); (65128, 65128); (65130, 65131); (65281, 65283); (65285, 65290);
   (65292, 65295); (65306, 65307); (65311, 65312); (65339, 65341); (65343, 65343);
   (65371, 65371); (65373, 65373); (65375, 65381); (65792, 65794); (66463, 66463);
   (66512, 66512); (66927, 66927); (67671, 67671); (67871, 67871); (67903, 67903);
   (68176, 68184); (68223, 68223); (68336, 68342); (68409, 68415); (68505, 68508);
   (69293, 69293); (69461, 69465); (69510, 69513); (69703, 69709); (69819, 69820);
   (69822, 69825); (69952, 69955); (70004, 70005); (70085, 70088); (70093, 70093);
   (70107, 70107); (70109, 70111); (70200, 70205); (70313, 70313); (70731, 70735);
   (70746, 70747); (70749, 70749); (70854, 70854); (71105, 71127); (71233, 71235);
   (71264, 71276); (71353, 71353); (71484, 71486); (71739, 71739); (72004, 72006);
   (72162, 72162); (72255, 72262); (72346, 72348); (72350, 72354); (72769, 72773);
   (72816, 72817); (73463, 73464); (73727, 73727); (74864, 74868); (77809, 77810);
   (92782, 92783); (92917, 92917); (92983, 92987); (92996, 92996); (93847, 93850);
   (94178, 94178); (113823, 113823); (121479, 121483); (125278, 125279)]%N.

Definition is_punct (c : N) : bool :=
  List.existsb (fun '(lo, hi) => in_range c lo hi) punctuation_ranges.

(** A character kept by [replace(/[^\w\s\p{P}]/gu, '')]. *)
Definition kept (c : N) : bool := is_word c || is_space c || is_punct c.

Definition SPACE : N := 32.

(** [replace(/\s+/g, ' ')]: every maximal run of whitespace becomes one space.
    [in_run] tells that the previous character belonged to the current run. *)
Fixpoint collapse (in_run : bool) (s : ustring) : ustring :=
  match s with
  | [] => []
  | c :: rest =>
      if is_space c
      then (if in_run then collapse true rest else SPACE :: collapse true rest)
      else c :: collapse false rest
  end.

Definition collapseWhitespace (s : ustring) : ustring := collapse false s.

Definition removeSpecial (s : ustring) : ustring := List.filter kept s.

Fixpoint trimStart (s : ustring) : ustring :=
  match s with
  | [] => []
  | c :: rest => if is_space c then trimStart rest else s
  end.

Fixpoint trimEnd (s : ustring) : ustring :=
  match s with
  | [] => []
  | c :: rest =>
      match trimEnd rest with
      | [] => if is_space c then [] else [c]
      | rest' => c :: rest'
      end
  end.

Definition trim (s : ustring) : ustring := trimEnd (trimStart s).

Definition cleanTranscriptText (t : ustring) : ustring :=
  trim (removeSpecial (collapseWhitespace t)).

(** *** The canonical segment *)

(** A segment id is the index given by a parser, or the string [break_<i>]
    of a paragraph-break marker. *)
Inductive SegmentId : Type :=
| Index (i : nat)
| BreakId (i : nat).

Record Word := {
  word : ustring;
  w_startTime : Q;
  w_endTime : Q;
  w_confidence : option Q
}.

Record Segment := {
  id : SegmentId;
  text : ustring;
  startTime : Q;
  endTime : Q;
  confidence : Q;
  speaker : string;
  words : option (list Word);
  type : option string
}.

(** *** Provider responses *)

Record FPTUtterance := {
  u_transcript : ustring;
  u_startTime : option Q;
  u_endTime : option Q;
  u_confidence : option Q;
  u_speaker : option string;
  u_words : option (list Word)
}.

Record FPTHypothesis := {
  utterances : option (list FPTUtterance);
  h_transcript : ustring;
  h_confidence : option Q
}.

Record FPTData := { hypotheses : option (list FPTHypothesis) }.

Definition parseFPTResponse (data : FPTData) : list Segment :=
  match hypotheses data with
  | Some (hypothesis :: _) =>
      match utterances hypothesis with
      | Some us =>
          imap (fun index utterance =>
                  {| id := Index index;
                     text := u_transcript utterance;
                     startTime := num_or (u_startTime utterance) 0;
                     endTime := num_or (u_endTime utterance) 0;
                     confidence := num_or (u_confidence utterance) (1 # 2);
                     speaker := str_or (u_speaker utterance) "Speaker 1";
                     words := Some (default [] (u_words utterance));
                     type := None |}) us
      | None =>
          [ {| id := Index 0;
               text := h_transcript hypothesis;
               startTime := 0;
               endTime := 0;
               confidence := num_or (h_confidence hypothesis) (1 # 2);
               speaker := "Speaker 1";
               words := Some [];
               type := None |} ]
      end
  | _ => []
  end.

Record WhisperSegment := {
  ws_text : ustring;
  ws_start : Q;
  ws_end : Q;
  avg_logprob : option Q;
  ws_words : option (list Word)
}.

Record WhisperData := {
  w_segments : option (list WhisperSegment);
  w_text : ustring
}.

Section Whisper.

(** [Math.exp], a primitive of the host. *)
Variable Math_exp : Q -> Q.

(** [segment.avg_logprob ? Math.exp(segment.avg_logprob) : 0.8] *)
Definition whisperConfidence (segment : WhisperSegment) : Q :=
  match avg_logprob segment with
  | Some l => if truthy l then Math_exp l else 4 # 5
  | None => 4 # 5
  end.

Definition parseWhisperResponse (data : WhisperData) : list Segment :=
  match w_segments data with
  | Some ss =>
      imap (fun index segment =>
              {| id := Index index;
                 text := trim (ws_text segment);
                 startTime := ws_start segment;
                 endTime := ws_end segment;
                 confidence := whisperConfidence segment;
                 speaker := "Speaker 1";
                 words := Some (default [] (ws_words segment));
                 type := None |}) ss
  | None =>
      [ {| id := Index 0;
           text := w_text data;
           startTime := 0;
           endTime := 0;
           confidence := 4 # 5;
           speaker := "Speaker 1";
           words := Some [];
           type := None |} ]
  end.

End Whisper.

(** A word of a Google alternative, through what the parser reads of it:
    [startTime?.seconds] and [endTime?.seconds]. *)
Record GoogleWord := {
  startSeconds : option Q;
  endSeconds : option Q
}.

Record GoogleAlternative := {
  ga_transcript : ustring;
  ga_confidence : option Q;
  speakerTag : option nat;
  ga_words : option (list GoogleWord)
}.

Record GoogleResult := { alternatives : option (list GoogleAlternative) }.

Record GoogleResponse := { results : option (list GoogleResult) }.

(** A segment as [parseGoogleResponse] builds it; its [words] are the words of
    the response. *)
Record GoogleSegment := {
  gs_id : nat;
  gs_text : ustring;
  gs_startTime : Q;
  gs_endTime : Q;
  gs_confidence : Q;
  gs_speaker : string;
  gs_words : list GoogleWord
}.

(** The segment pushed for the result at [resultIndex]: one for its first
    alternative, none if it has no alternative. *)
Definition googleSegment (resultIndex : nat) (result : GoogleResult) : list GoogleSegment :=
  match alternatives result with
  | Some (alternative :: _) =>
      [ {| gs_id := resultIndex;
           gs_text := ga_transcript alternative;
           gs_startTime :=
             match ga_words alternative with
             | Some ws => num_or (head ws ≫= startSeconds) 0
             | None => 0
             end;
           gs_endTime :=
             match ga_words alternative with
             | Some ws => num_or (last ws ≫= endSeconds) 0
             | None => 0
             end;
           gs_confidence := num_or (ga_confidence alternative) (1 # 2);
           gs_speaker :=
             match speakerTag alternative with
             | Some (S n) => "Speaker " +:+ NilEmpty.string_of_uint (Nat.to_uint (S n))
             | _ => "Speaker 1"
             end;
           gs_words := default [] (ga_words alternative) |} ]
  | _ => []
  end.

Definition parseGoogleResponse (response : GoogleResponse) : list GoogleSegment :=
  match results response with
  | Some rs => concat (imap googleSegment rs)
  | None => []
  end.

(** *** The AWS Transcribe response *)

(** The numbers of an AWS response are strings.  A missing property is [None]. *)
Record AWSAlternative := {
  aws_content : option ustring;
  aws_confidence : option string
}.

(** An item; [aws_alternatives] is empty also when the property is missing. *)
Record AWSItem := {
  aws_start_time : option string;
  aws_end_time : option string;
  aws_alternatives : list AWSAlternative
}.

Record AWSSpeakerSegment := {
  seg_start_time : option string;
  seg_end_time : option string;
  speaker_label : string
}.

Record AWSTranscript := { aws_transcript : ustring }.

Record AWSResults := {
  aws_transcripts : option (list AWSTranscript);
  speaker_labels : option (option (list AWSSpeakerSegment));
  aws_items : option (list AWSItem)
}.

Record AWSData := { aws_results : option AWSResults }.

(** A segment as [parseAWSResponse] builds it.  A number that is [NaN] is
    [None]. *)
Record AWSSegment := {
  awss_id : nat;
  awss_text : ustring;
  awss_startTime : option Q;
  awss_endTime : option Q;
  awss_confidence : option Q;
  awss_speaker : string;
  awss_words : list AWSItem
}.

(** [a >= b] and [a <= b] on two properties that hold strings: the order of
    the code units; false when either is [undefined]. *)
Definition str_geb (a b : option string) : bool :=
  match a, b with
  | Some x, Some y => String.leb y x
  | _, _ => false
  end.

Definition str_leb (a b : option string) : bool :=
  match a, b with
  | Some x, Some y => String.leb x y
  | _, _ => false
  end.

Section AWS.

(** [parseFloat] on a string, a primitive of the host; [None] is [NaN]. *)
Variable parseFloat : string -> option Q.

(** [sum + parseFloat(x)], where [x] may be [undefined] and [sum] may be [NaN]. *)
Definition addParsed (sum : option Q) (x : option string) : option Q :=
  match sum, x ≫= parseFloat with
  | Some a, Some b => Some (a + b)
  | _, _ => None
  end.

(** [items.reduce((sum, item) => sum + parseFloat(item.alternatives[0].confidence), 0)
    / items.length], for the first alternatives [firsts] of the items. *)
Definition meanConfidence (firsts : list AWSAlternative) : option Q :=
  match firsts with
  | [] => None
  | _ =>
      match fold_left (fun sum a => addParsed sum (aws_confidence a)) firsts (Some 0) with
      | Some total => Some (total / inject_Z (Z.of_nat (length firsts)))
      | None => None
      end
  end.

(** The items inside the window of a speaker segment. *)
Definition within (segment : AWSSpeakerSegment) (items : list AWSItem) : list AWSItem :=
  List.filter (fun item => str_geb (aws_start_time item) (seg_start_time segment)
                           && str_leb (aws_end_time item) (seg_end_time segment)) items.

(** [item.alternatives[0]] for each of the items; it throws when one of them
    has no alternative. *)
Fixpoint firstAlternatives (items : list AWSItem) : outcome (list AWSAlternative) :=
  match items with
  | [] => Returned []
  | item :: rest =>
      match aws_alternatives item, firstAlternatives rest with
      | a :: _, Returned l => Returned (a :: l)
      | [], _ => Thrown "Cannot read properties of undefined (reading 'content')"
      | _, Thrown e => Thrown e
      end
  end.

(** The body of [speakerLabels.forEach]. *)
Definition awsSegment (items : option (list AWSItem)) (index : nat)
    (segment : AWSSpeakerSegment) : outcome AWSSegment :=
  match items with
  | None => Thrown "Cannot read properties of undefined (reading 'filter')"
  | Some all =>
      let items := within segment all in
      match firstAlternatives items with
      | Thrown e => Thrown e
      | Returned firsts =>
          Returned
            {| awss_id := index;
               awss_text := join [SPACE] (List.map (fun a => default [] (aws_content a)) firsts);
               awss_startTime := seg_start_time segment ≫= parseFloat;
               awss_endTime := seg_end_time segment ≫= parseFloat;
               awss_confidence := meanConfidence firsts;
               awss_speaker := "Speaker " +:+ speaker_label segment;
               awss_words := items |}
      end
  end.

(** The [forEach] as a whole, from index [index] on. *)
Fixpoint awsSegments (items : option (list AWSItem)) (index : nat)
    (speakerLabels : list AWSSpeakerSegment) : outcome (list AWSSegment) :=
  match speakerLabels with
  | [] => Returned []
  | segment :: rest =>
      match awsSegment items index segment with
      | Thrown e => Thrown e
      | Returned s =>
          match awsSegments items (S index) rest with
          | Thrown e => Thrown e
          | Returned l => Returned (s :: l)
          end
      end
  end.

(** [parseAWSResponse]: whatever is thrown inside is thrown again as
    ['Failed to parse AWS response']. *)
Definition parseAWSResponse (data : AWSData) : outcome (list AWSSegment) :=
  match aws_results data with
  | Some res =>
      match aws_transcripts res with
      | Some ts =>
          match speaker_labels res with
          | Some labels =>
              match labels with
              | Some speakerLabels =>
                  match awsSegments (aws_items res) 0 speakerLabels with
                  | Returned segments => Returned segments
                  | Thrown _ => Thrown "Failed to parse AWS response"
                  end
              | None => Thrown "Failed to parse AWS response"
              end
          | None =>
              match ts with
              | transcript :: _ =>
                  Returned [ {| awss_id := 0;
                                awss_text := aws_transcript transcript;
                                awss_startTime := Some 0;
                                awss_endTime := Some 0;
                                awss_confidence := Some (4 # 5);
                                awss_speaker := "Speaker 1";
                                awss_words := default [] (aws_items res) |} ]
              | [] => Thrown "Failed to parse AWS response"
              end
          end
      | None => Returned []
      end
  | None => Returned []
  end.

End AWS.

(** The [json] property of an Azure result, seen through [JSON.parse]: text
    that does not parse, or the [Confidence] values of its [NBest] array. *)
Inductive AzureJson : Type :=
| Malformed
| Detailed (NBest : list Q).

Record AzureResult := {
  az_text : ustring;
  offset : Q;
  duration : Q;
  json : option AzureJson
}.

Record AzureSegment := {
  as_text : ustring;
  as_startTime : Q;
  as_endTime : Q;
  as_confidence : Q;
  as_speaker : string
}.

Definition ticksPerSecond : Q := 10000000.

(** [result.json ? JSON.parse(result.json).NBest[0].Confidence : 0.5] *)
Definition azureConfidence (result : AzureResult) : outcome Q :=
  match json result with
  | None => Returned (1 # 2)
  | Some Malformed => Thrown "Unexpected token in JSON"
  | Some (Detailed []) => Thrown "Cannot read properties of undefined (reading 'Confidence')"
  | Some (Detailed (c :: _)) => Returned c
  end.

Definition parseAzureResult (result : AzureResult) : AzureSegment :=
  match azureConfidence result with
  | Returned c =>
      {| as_text := az_text result;
         as_startTime := offset result / ticksPerSecond;
         as_endTime := (offset result + duration result) / ticksPerSecond;
         as_confidence := c;
         as_speaker := "Speaker 1" |}
  | Thrown _ =>
      {| as_text := az_text result;
         as_startTime := 0;
         as_endTime := 0;
         as_confidence := 1 # 2;
         as_speaker := "Speaker 1" |}
  end.

(** *** Post-processing *)

Definition PARAGRAPH_BREAK : string := "paragraph_break".

Definition paragraphBreak (i : nat) (currentSegment nextSegment : Segment) : Segment :=
  {| id := BreakId i;
     text := [10; 10]%N;
     startTime := endTime currentSegment;
     endTime := startTime nextSegment;
     confidence := 1;
     speaker := "system";
     words := None;
     type := Some PARAGRAPH_BREAK |}.

(** The body of [for (let i = 0; i < segments.length; i++)], run [n] more times
    from index [i]. *)
Fixpoint addParagraphBreaks_loop (segments : list Segment) (silenceThreshold : Q)
    (n i : nat) (processedSegments : list Segment) : list Segment :=
  match n with
  | O => processedSegments
  | S n' =>
      match segments !! i with
      | None => processedSegments
      | Some currentSegment =>
          let processedSegments := processedSegments ++ [currentSegment] in
          let processedSegments :=
            match segments !! (i + 1)%nat with
            | Some nextSegment =>
                if ltb silenceThreshold (startTime nextSegment - endTime currentSegment)
                then processedSegments ++ [paragraphBreak i currentSegment nextSegment]
                else processedSegments
            | None => processedSegments
            end in
          addParagraphBreaks_loop segments silenceThreshold n' (S i) processedSegments
      end
  end.

(** [addParagraphBreaks(segments, silenceThreshold = 3)] *)
Definition addParagraphBreaks (segments : list Segment) (silenceThreshold : option Q)
  : list Segment :=
  addParagraphBreaks_loop segments (default 3 silenceThreshold)
                          (length segments) 0 [].

Definition isParagraphBreak (segment : Segment) : bool :=
  match type segment with
  | Some t => String.eqb t PARAGRAPH_BREAK
  | None => false
  end.

(** [duration < minDuration && segment.type !== 'paragraph_break'] *)
Definition isShort (minDuration : Q) (segment : Segment) : bool :=
  ltb (endTime segment - startTime segment) minDuration &&
  negb (isParagraphBreak segment).

(** The three assignments made to [currentMerge] when it takes in [segment]. *)
Definition absorb (currentMerge segment : Segment) : Segment :=
  {| id := id currentMerge;
     text := text currentMerge ++ [SPACE] ++ text segment;
     startTime := startTime currentMerge;
     endTime := endTime segment;
     confidence := (confidence currentMerge + confidence segment) / 2;
     speaker := speaker currentMerge;
     words := words currentMerge;
     type := type currentMerge |}.

(** One iteration of [for (const segment of segments)] on the pair
    [(mergedSegments, currentMerge)]. *)
Definition mergeStep (minDuration : Q)
    (state : list Segment * option Segment) (segment : Segment)
  : list Segment * option Segment :=
  let '(mergedSegments, currentMerge) := state in
  if isShort minDuration segment then
    match currentMerge with
    | None => (mergedSegments, Some segment)
    | Some cm => (mergedSegments, Some (absorb cm segment))
    end
  else
    match currentMerge with
    | Some cm => ((mergedSegments ++ [cm]) ++ [segment], None)
    | None => (mergedSegments ++ [segment], None)
    end.

Definition mergeFinish (state : list Segment * option Segment) : list Segment :=
  match state with
  | (mergedSegments, Some cm) => mergedSegments ++ [cm]
  | (mergedSegments, None) => mergedSegments
  end.

(** [mergeShortSegments(segments, minDuration = 2)] *)
Definition mergeShortSegments (segments : list Segment) (minDuration : option Q)
  : list Segment :=
  mergeFinish (fold_left (mergeStep (default 2 minDuration)) segments ([], None)).

(** [addPunctuation]: returns the segments as they are. *)
Definition addPunctuation (segments : list Segment) : list Segment := segments.

Record TranscriptionResult := {
  r_segments : list Segment;
  r_text : ustring;
  r_language : string;
  r_confidence : Q
}.

Record PostProcessOptions := {
  cleanText : option bool;
  addParagraphs : option bool;
  opt_mergeShortSegments : option bool;
  opt_addPunctuation : option bool
}.

Definition defaultOptions : PostProcessOptions :=
  {| cleanText := None; addParagraphs := None;
     opt_mergeShortSegments := None; opt_addPunctuation := None |}.

Definition withSegments (r : TranscriptionResult) (segs : list Segment) : TranscriptionResult :=
  {| r_segments := segs; r_text := r_text r;
     r_language := r_language r; r_confidence := r_confidence r |}.

Definition cleanSegment (segment : Segment) : Segment :=
  {| id := id segment;
     text := cleanTranscriptText (text segment);
     startTime := startTime segment;
     endTime := endTime segment;
     confidence := confidence segment;
     speaker := speaker segment;
     words := words segment;
     type := type segment |}.

(** [postProcessTranscription(result, options)]; no step of the [try] block
    throws on a result whose properties have the declared types. *)
Definition postProcessTranscription (result : TranscriptionResult)
    (options : PostProcessOptions) : TranscriptionResult :=
  let processedResult := result in
  let processedResult :=
    if not_false (cleanText options) then
      let segs := List.map cleanSegment (r_segments processedResult) in
      {| r_segments := segs;
         r_text := join [SPACE] (List.map text segs);
         r_language := r_language processedResult;
         r_confidence := r_confidence processedResult |}
    else processedResult in
  let processedResult :=
    if not_false (addParagraphs options)
    then withSegments processedResult (addParagraphBreaks (r_segments processedResult) None)
    else processedResult in
  let processedResult :=
    if not_false (opt_mergeShortSegments options)
    then withSegments processedResult (mergeShortSegments (r_segments processedResult) None)
    else processedResult in
  let processedResult :=
    if not_false (opt_addPunctuation options)
    then withSegments processedResult (addPunctuation (r_segments processedResult))
    else processedResult in
  processedResult.

End SpeechToTextService.

(** ** models/Transcript.js: per-speaker statistics *)

Module Transcript.
Import JS.
Local Open Scope Q_scope.

Record SegmentSpeaker := {
  sp_id : string;
  sp_name : string
}.

Record Segment := {
  speaker : SegmentSpeaker;
  startTime : Q;
  endTime : Q;
  confidence : Q
}.

(** A speaker of the transcript.  Each statistic is a number or, as [None],
    not one: [NaN] (for the count [undefined]), which is what the update
    assigns when it goes through an inherited property. *)
Record Speaker := {
  id : string;
  name : string;
  totalSpeakingTime : option Q;
  segmentCount : option nat;
  averageConfidence : option Q
}.

(** An entry of the local [speakerStats] object. *)
Record Stats := {
  totalTime : Q;
  st_segmentCount : nat;
  totalConfidence : Q
}.

Record Content := {
  segments : option (list Segment);
  speakers : option (list Speaker)
}.

(** First [forEach]: the three statistics are reset. *)
Definition resetSpeaker (s : Speaker) : Speaker :=
  {| id := id s; name := name s;
     totalSpeakingTime := Some 0; segmentCount := Some 0%nat;
     averageConfidence := Some 0 |}.

(** Body of [segments.forEach].  [speakerStats] starts as [{}] and is keyed by
    [segment.speaker.id]; the map holds its own entries.  For an id that names
    an inherited property, [speakerStats[speakerId]] is that property: no entry
    is made, and the three additions are made to fields of the inherited
    value, where they give [NaN]. *)
Definition accumulate (speakerStats : gmap string Stats) (segment : Segment)
  : gmap string Stats :=
  let speakerId := sp_id (speaker segment) in
  let add (stats : Stats) :=
    <[speakerId :=
        {| totalTime := totalTime stats + (endTime segment - startTime segment);
           st_segmentCount := st_segmentCount stats + 1;
           totalConfidence := totalConfidence stats + confidence segment |}]> speakerStats in
  match speakerStats !! speakerId with
  | Some stats => add stats
  | None =>
      if inherited speakerId then speakerStats
      else add {| totalTime := 0; st_segmentCount := 0; totalConfidence := 0 |}
  end.

(** Body of the last [speakers.forEach].  For an id that names an inherited
    property [stats] is that property, which is truthy and has no numeric
    [totalTime], [segmentCount] or [totalConfidence]: the speaker's three
    statistics are then not numbers. *)
Definition applyStats (speakerStats : gmap string Stats) (s : Speaker) : Speaker :=
  match speakerStats !! id s with
  | Some stats =>
      {| id := id s; name := name s;
         totalSpeakingTime := Some (inject_Z (Math_round (totalTime stats)));
         segmentCount := Some (st_segmentCount stats);
         averageConfidence :=
           Some (inject_Z (Math_round (totalConfidence stats
                                       / inject_Z (Z.of_nat (st_segmentCount stats))))) |}
  | None =>
      if inherited (id s)
      then {| id := id s; name := name s;
              totalSpeakingTime := None; segmentCount := None;
              averageConfidence := None |}
      else s
  end.

Definition updateSpeakerStatistics (content : Content) : Content :=
  match segments content, speakers content with
  | Some segs, Some sps =>
      let sps := List.map resetSpeaker sps in
      let speakerStats := fold_left accumulate segs (∅ : gmap string Stats) in
      {| segments := Some segs;
         speakers := Some (List.map (applyStats speakerStats) sps) |}
  | _, _ => content
  end.

End Transcript.

(** ** controllers/transcriptionController.js: submission and job processing *)

Module TranscriptionController.
Import JS.

(** The values of the transcript [status] enumeration. *)
Inductive Status : Type := pending | processing | completed | failed | cancelled.

#[global] Instance Status_eq_dec : EqDecision Status.
Proof. solve_decision. Defined.

Record File := {
  f_id : nat;
  path : string;
  size : option Q
}.

(** What [meeting.files] holds.  [meetingSchema] declares the nested object
    [{ audio, video }], which has no [find] method; [startTranscription] and
    the meeting controller use it as an array of file documents. *)
Inductive Files : Type :=
| FileArray (documents : list File)
| FileObject.

Record Meeting := {
  m_userId : nat;
  files : Files;
  m_duration : option Q;
  m_status : string;
  m_transcript : option nat;
  priority : option string
}.

(** What a provider call returns. *)
Record STTResult := {
  res_text : string;
  res_language : option string;
  res_confidence : Q;
  res_duration : Q;
  res_wordCount : nat
}.

(** What the [language] path of a document holds: the nested object that
    [transcriptSchema] declares, or a string that has been assigned to it. *)
Inductive Language : Type :=
| Nested (detected specified : string)
| Assigned (value : string).

(** A transcript document, through the paths of it that the controller reads
    and writes in the store.  What else the controller assigns ([userId],
    [fileId], [startedAt], [segments], [text], [metadata], ...) is no path of
    [transcriptSchema] and is not part of the stored document.  [error] is the
    field that the update of the [catch] block names. *)
Record TranscriptDoc := {
  _id : nat;
  meetingId : nat;
  language : Language;
  service : string;
  status : Status;
  error : option string
}.

Record JobData := {
  transcriptId : nat;
  j_meetingId : nat;
  j_fileId : nat;
  filePath : string;
  j_service : string;
  j_language : string;
  j_userId : nat;
  j_priority : string
}.

(** The value stored under [transcription-job:<transcriptId>]. *)
Record JobRecord := {
  job : JobData;
  job_status : Status;
  job_error : option string
}.

(** The limits of a user's subscription, as [User.js] declares them. *)
Record Limits := {
  monthlyMinutes : Q;
  storageGB : Q;
  aiRequests : Q
}.

(** The stores the controller works on.  [transcripts] is the collection in
    insertion order, [nextId] an id that no stored document has, [quota] the
    users with the limits of their subscriptions, [queue] the list
    [transcription-queue] (newest first), [providerCalls] the services whose
    [transcribeWith...] method has been invoked so far.  Reads are taken to
    succeed, and so are the updates and cache writes of
    [processTranscriptionJob]; a [save()] and the writes of
    [startTranscription] may be refused, see [Externals]. *)
Record World := {
  transcripts : list TranscriptDoc;
  nextId : nat;
  meetings : gmap nat Meeting;
  quota : gmap nat Limits;
  queue : list JobData;
  jobs : gmap nat JobRecord;
  providerCalls : list string
}.

Definition withTranscripts (w : World) (ts : list TranscriptDoc) : World :=
  {| transcripts := ts; nextId := nextId w; meetings := meetings w; quota := quota w;
     queue := queue w; jobs := jobs w; providerCalls := providerCalls w |}.

Definition withMeetings (w : World) (ms : gmap nat Meeting) : World :=
  {| transcripts := transcripts w; nextId := nextId w; meetings := ms; quota := quota w;
     queue := queue w; jobs := jobs w; providerCalls := providerCalls w |}.

Definition withJobs (w : World) (js : gmap nat JobRecord) : World :=
  {| transcripts := transcripts w; nextId := nextId w; meetings := meetings w;
     quota := quota w; queue := queue w; jobs := js; providerCalls := providerCalls w |}.

Definition findOneByMeeting (w : World) (mid : nat) : option TranscriptDoc :=
  List.find (fun t => Nat.eqb (meetingId t) mid) (transcripts w).

Definition findById (w : World) (tid : nat) : option TranscriptDoc :=
  List.find (fun t => Nat.eqb (_id t) tid) (transcripts w).

(** The collection once a [save()] of [t] has gone through: [t] replaces the
    stored document with the same [_id], or is inserted. *)
Definition stored (t : TranscriptDoc) (w : World) : World :=
  match findById w (_id t) with
  | Some _ =>
      withTranscripts w
        (List.map (fun t' => if Nat.eqb (_id t') (_id t) then t else t') (transcripts w))
  | None => withTranscripts w (transcripts w ++ [t])
  end.

(** The document [t] after [{ status: 'failed', error: message }] has been set. *)
Definition failedWith (message : string) (t : TranscriptDoc) : TranscriptDoc :=
  {| _id := _id t; meetingId := meetingId t; language := language t;
     service := service t; status := failed; error := Some message |}.

(** [Transcript.findByIdAndUpdate(id, { status: 'failed', error })]: an update,
    which is not validated against the schema. *)
Definition markFailed (tid : nat) (message : string) (w : World) : World :=
  withTranscripts w
    (List.map (fun t => if Nat.eqb (_id t) tid then failedWith message t else t)
              (transcripts w)).

(** [Meeting.findByIdAndUpdate(id, { status })] *)
Definition setMeetingStatus (mid : nat) (s : string) (w : World) : World :=
  withMeetings w
    (alter (fun m => {| m_userId := m_userId m; files := files m;
                        m_duration := m_duration m; m_status := s;
                        m_transcript := m_transcript m; priority := priority m |})
           mid (meetings w)).

(** [redisConfig.set(`transcription-job:${transcriptId}`, { ...jobData, status, error })] *)
Definition setJob (j : JobData) (s : Status) (e : option string) (w : World) : World :=
  withJobs w (<[transcriptId j := {| job := j; job_status := s; job_error := e |}]> (jobs w)).

Definition statusOf (w : World) (tid : nat) : option Status :=
  status <$> findById w tid.


Definition attempts (w : World) : nat := length (providerCalls w).

(** *** What lies outside the controller *)

(** Computations of a [try] block: they update the stores and may throw. *)
Definition M (A : Type) : Type := World -> World * outcome A.

Definition throw {A : Type} (message : string) : M A := fun w => (w, Thrown message).

Definition mbind {A B : Type} (m : M A) (k : A -> M B) : M B :=
  fun w =>
    match m w with
    | (w', Returned a) => k a w'
    | (w', Thrown e) => (w', Thrown e)
    end.

Definition update (f : World -> World) : M unit := fun w => (f w, Returned tt).

Definition lift {A : Type} (o : outcome A) : M A := fun w => (w, o).

Notation "'do' x <- m 'in' k" := (mbind m (fun x => k))
  (at level 10, x name, m at level 100, k at level 200).
Notation "'exec' m 'in' k" := (mbind m (fun _ => k))
  (at level 10, m at level 100, k at level 200).

(** The converted audio handed to a provider. *)
Record AudioData := { audioPath : string }.

(** The collaborators: [processAudioFile] of the audio utilities and the four
    [transcribeWith...] methods; what the validation against [transcriptSchema]
    answers when a transcript document is saved; and whether the other writes
    of [startTranscription] go through, [meeting.save()], [redisConfig.lpush]
    and [redisConfig.set], each of which throws when it is refused. *)
Record Externals := {
  processAudioFile : string -> outcome AudioData;
  transcribeWithFPT : AudioData -> string -> outcome STTResult;
  transcribeWithWhisper : AudioData -> string -> outcome STTResult;
  transcribeWithGoogle : AudioData -> string -> outcome STTResult;
  transcribeWithAzure : AudioData -> string -> outcome STTResult;
  validate : TranscriptDoc -> outcome unit;
  saveMeeting : outcome unit;
  lpush : outcome unit;
  cacheSet : outcome unit
}.

(** The [transcribeWith...] methods as the controller defines them. *)
Definition placeholders (ext : Externals) : Externals :=
  {| processAudioFile := processAudioFile ext;
     transcribeWithFPT := fun _ _ => Thrown "FPT transcription not implemented";
     transcribeWithWhisper := fun _ _ => Thrown "Whisper transcription not implemented";
     transcribeWithGoogle := fun _ _ => Thrown "Google transcription not implemented";
     transcribeWithAzure := fun _ _ => Thrown "Azure transcription not implemented";
     validate := validate ext;
     saveMeeting := saveMeeting ext;
     lpush := lpush ext;
     cacheSet := cacheSet ext |}.

(** [transcript.save()]: the document is validated and, when that goes through,
    stored; otherwise the call throws and the store is as it was. *)
Definition save (ext : Externals) (t : TranscriptDoc) : M unit :=
  fun w =>
    match validate ext t with
    | Returned _ => (stored t w, Returned tt)
    | Thrown message => (w, Thrown message)
    end.

(** *** processTranscriptionJob *)

(** Bookkeeping of the embedding: a provider method is being invoked. *)
Definition noteCall (service : string) (w : World) : World :=
  {| transcripts := transcripts w; nextId := nextId w; meetings := meetings w;
     quota := quota w; queue := queue w; jobs := jobs w;
     providerCalls := providerCalls w ++ [service] |}.

Definition recordCall (service : string) : M unit := update (noteCall service).

(** The [switch (service)] statement. *)
Definition dispatch (ext : Externals) (service : string) (audioData : AudioData)
    (language : string) : M STTResult :=
  if String.eqb service "fpt" then
    exec recordCall service in lift (transcribeWithFPT ext audioData language)
  else if String.eqb service "whisper" then
    exec recordCall service in lift (transcribeWithWhisper ext audioData language)
  else if String.eqb service "google" then
    exec recordCall service in lift (transcribeWithGoogle ext audioData language)
  else if String.eqb service "azure" then
    exec recordCall service in lift (transcribeWithAzure ext audioData language)
  else throw ("Unsupported STT service: " +:+ service).

(** The document as the [try] block leaves it before [save()]:
    [transcript.language = transcriptionResult.language || language] and
    [transcript.status = 'completed']. *)
Definition completedTranscript (transcript : TranscriptDoc) (language : string)
    (transcriptionResult : STTResult) : TranscriptDoc :=
  {| _id := _id transcript; meetingId := meetingId transcript;
     language := Assigned (str_or (res_language transcriptionResult) language);
     service := service transcript;
     status := completed; error := error transcript |}.

(** The [try] block. *)
Definition tryProcess (env : AIServiceManager.Env) (ext : Externals) (jobData : JobData)
  : M unit :=
  exec update (setJob jobData processing None) in
  do transcript <- (fun w =>
                      match findById w (transcriptId jobData) with
                      | Some t => (w, Returned t)
                      | None => (w, Thrown "Transcript record not found")
                      end) in
  do audioData <- lift (processAudioFile ext (filePath jobData)) in
  do sttConfig <- lift (AIServiceManager.getServiceConfig env (j_service jobData)) in
  do transcriptionResult <-
     dispatch ext (j_service jobData) audioData (j_language jobData) in
  exec save ext (completedTranscript transcript (j_language jobData)
                                     transcriptionResult) in
  exec update (setMeetingStatus (j_meetingId jobData) "transcribed") in
  update (setJob jobData completed None).

(** The [catch (error)] block. *)
Definition onError (jobData : JobData) (message : string) (w : World) : World :=
  setMeetingStatus (j_meetingId jobData) "failed"
    (setJob jobData failed (Some message)
       (markFailed (transcriptId jobData) message w)).

Definition processTranscriptionJob (env : AIServiceManager.Env) (ext : Externals)
    (jobData : JobData) (w : World) : World :=
  match tryProcess env ext jobData w with
  | (w', Returned _) => w'
  | (w', Thrown message) => onError jobData message w'
  end.

(** *** startTranscription *)

(** The validated request body together with [req.user.id]. *)
Record StartRequest := {
  req_userId : nat;
  req_meetingId : nat;
  req_fileId : nat;
  req_language : option string;
  req_service : option string
}.

Inductive Response : Type :=
| Ok200 (transcript : TranscriptDoc)
| NotFound404
| Conflict409 (existing : TranscriptDoc)
| Error500 (message : string).

(** [existingTranscript && existingTranscript.status !== 'failed'] *)
Definition alreadyExists (existingTranscript : option TranscriptDoc) : option TranscriptDoc :=
  match existingTranscript with
  | Some existing => if bool_decide (status existing = failed) then None else Some existing
  | None => None
  end.

(** [service || aiServiceManager.getBestSTTService(language, file.size, meeting.duration)] *)
Definition selectService (env : AIServiceManager.Env) (req : StartRequest)
    (language : string) (file : File) (meeting : Meeting) : outcome string :=
  match req_service req with
  | Some EmptyString | None =>
      AIServiceManager.getBestSTTService env (Some language) (size file) (m_duration meeting)
  | Some s => Returned s
  end.

(** The document that is saved: the existing (failed) one with four paths
    assigned, or a new one. *)
Definition submittedTranscript (w : World) (req : StartRequest) (language : string)
    (selectedService : string) (existingTranscript : option TranscriptDoc) : TranscriptDoc :=
  match existingTranscript with
  | Some existing =>
      {| _id := _id existing; meetingId := meetingId existing;
         language := Assigned language; service := selectedService;
         status := processing; error := error existing |}
  | None =>
      {| _id := nextId w; meetingId := req_meetingId req;
         language := Assigned language; service := selectedService;
         status := processing; error := None |}
  end.

(** [meeting.status = 'transcribing'; meeting.transcript = transcript._id] *)
Definition transcribing (meeting : Meeting) (transcript : TranscriptDoc) : Meeting :=
  {| m_userId := m_userId meeting; files := files meeting;
     m_duration := m_duration meeting; m_status := "transcribing";
     m_transcript := Some (_id transcript); priority := priority meeting |}.

Definition enqueue (jobData : JobData) (w : World) : World :=
  {| transcripts := transcripts w; nextId := nextId w; meetings := meetings w;
     quota := quota w; queue := jobData :: queue w; jobs := jobs w;
     providerCalls := providerCalls w |}.

(** A new [_id] has been used. *)
Definition freshen (w : World) : World :=
  {| transcripts := transcripts w; nextId := S (nextId w); meetings := meetings w;
     quota := quota w; queue := queue w; jobs := jobs w;
     providerCalls := providerCalls w |}.

(** The [try] block up to the response: the store it leaves, the response
    and, when the request was accepted, the job it has queued.  Whatever
    throws is answered with 500, also after the store has been written to.
    The monthly count is compared with
    [user.subscription.limits.transcriptionsPerMonth]; [Limits] has no such
    field, the comparison of a number with [undefined] is false, and so the
    answer 403 is never given. *)
Definition tryStart (env : AIServiceManager.Env) (ext : Externals) (req : StartRequest)
    (w : World) : World * Response * option JobData :=
  let language := default "auto" (req_language req) in
  match meetings w !! req_meetingId req with
  | None => (w, NotFound404, None)
  | Some meeting =>
    if negb (Nat.eqb (m_userId meeting) (req_userId req)) then (w, NotFound404, None) else
    match files meeting with
    | FileObject => (w, Error500 "meeting.files.find is not a function", None)
    | FileArray documents =>
    match List.find (fun f => Nat.eqb (f_id f) (req_fileId req)) documents with
    | None => (w, NotFound404, None)
    | Some file =>
      let existingTranscript := findOneByMeeting w (req_meetingId req) in
      match alreadyExists existingTranscript with
      | Some existing => (w, Conflict409 existing, None)
      | None =>
        match quota w !! req_userId req with
        | None =>
            (w, Error500 "Cannot read properties of null (reading 'subscription')", None)
        | Some _ =>
          match selectService env req language file meeting with
          | Thrown message => (w, Error500 message, None)
          | Returned selectedService =>
            let transcript :=
              submittedTranscript w req language selectedService existingTranscript in
            match save ext transcript w with
            | (_, Thrown message) => (w, Error500 message, None)
            | (w, Returned _) =>
              let w := match existingTranscript with
                       | Some _ => w
                       | None => freshen w
                       end in
              match saveMeeting ext with
              | Thrown message => (w, Error500 message, None)
              | Returned _ =>
                let w := withMeetings w (<[req_meetingId req := transcribing meeting transcript]>
                                           (meetings w)) in
                let jobData :=
                  {| transcriptId := _id transcript; j_meetingId := req_meetingId req;
                     j_fileId := req_fileId req; filePath := path file;
                     j_service := selectedService; j_language := language;
                     j_userId := req_userId req;
                     j_priority := str_or (priority meeting) "normal" |} in
                match lpush ext with
                | Thrown message => (w, Error500 message, None)
                | Returned _ =>
                  let w := enqueue jobData w in
                  match cacheSet ext with
                  | Thrown message => (w, Error500 message, None)
                  | Returned _ => (w, Ok200 transcript, Some jobData)
                  end
                end
              end
            end
          end
        end
      end
    end
    end
  end.

(** [startTranscription]: after the response to an accepted request the last
    statement starts the job, [this.processTranscriptionJob(jobData)], which is
    taken to have run before the next operation. *)
Definition startTranscription (env : AIServiceManager.Env) (ext : Externals)
    (req : StartRequest) (w : World) : World * Response :=
  match tryStart env ext req w with
  | (w', response, Some jobData) => (processTranscriptionJob env ext jobData w', response)
  | (w', response, None) => (w', response)
  end.

(** *** Sequences of operations *)

Inductive Op : Type :=
| Submit (ext : Externals) (req : StartRequest)
| Work (ext : Externals) (jobData : JobData).

Definition step (env : AIServiceManager.Env) (w : World) (op : Op) : World :=
  match op with
  | Submit ext req => fst (startTranscription env ext req w)
  | Work ext jobData => processTranscriptionJob env ext jobData w
  end.

Definition run (env : AIServiceManager.Env) (w : World) (ops : list Op) : World :=
  fold_left (step env) ops w.

End TranscriptionController.

From Stdlib Require Import DecimalString.

(** ** ai-services.js: LLM selection, usage statistics, configuration check *)

Module ManagerServices.
Import JS AIServiceManager.

(** The environment: the STT flags above and the other variables read by the
    registry ([X_ENABLED === 'true'], and the keys as they are set). *)
Record Settings := {
  stt : Env;
  FPT_STT_API_KEY : option string;
  OPENAI_API_KEY : option string;
  GOOGLE_CLOUD_KEY_FILE : option string;
  AZURE_SPEECH_KEY : option string;
  OPENAI_ENABLED : bool;
  CLAUDE_ENABLED : bool;
  CLAUDE_API_KEY : option string;
  LOCAL_LLM_ENABLED : bool
}.

(** Truthiness of an optional string: [undefined] and [''] are falsy. *)
Definition present (x : option string) : bool :=
  match x with
  | Some EmptyString | None => false
  | Some _ => true
  end.

(** The credential properties an entry of [sttServices] or [llmServices]
    declares; a property the entry does not have is [None]. *)
Record Entry := {
  e_name : string;
  e_enabled : bool;
  apiKey : option string;
  keyFilename : option string;
  subscriptionKey : option string
}.

Definition sttEntries (s : Settings) : list Entry :=
  [ {| e_name := "fpt"; e_enabled := enabled (fpt (stt s));
       apiKey := FPT_STT_API_KEY s; keyFilename := None; subscriptionKey := None |};
    {| e_name := "whisper"; e_enabled := enabled (whisper (stt s));
       apiKey := OPENAI_API_KEY s; keyFilename := None; subscriptionKey := None |};
    {| e_name := "google"; e_enabled := enabled (google (stt s));
       apiKey := None; keyFilename := GOOGLE_CLOUD_KEY_FILE s; subscriptionKey := None |};
    {| e_name := "azure"; e_enabled := enabled (azure (stt s));
       apiKey := None; keyFilename := None; subscriptionKey := AZURE_SPEECH_KEY s |} ].

Definition llmEntries (s : Settings) : list Entry :=
  [ {| e_name := "openai"; e_enabled := OPENAI_ENABLED s;
       apiKey := OPENAI_API_KEY s; keyFilename := None; subscriptionKey := None |};
    {| e_name := "claude"; e_enabled := CLAUDE_ENABLED s;
       apiKey := CLAUDE_API_KEY s; keyFilename := None; subscriptionKey := None |};
    {| e_name := "local"; e_enabled := LOCAL_LLM_ENABLED s;
       apiKey := None; keyFilename := None; subscriptionKey := None |} ].

(** [getAvailableLLMServices], keeping the names. *)
Definition getAvailableLLMServices (s : Settings) : list string :=
  List.map e_name (List.filter e_enabled (llmEntries s)).

(** [availableServices.find(s => s.name === n)?.name] *)
Definition findName (available : list string) (n : string) : option string :=
  List.find (String.eqb n) available.

Fixpoint firstOf (order : list string) (available : list string) : option string :=
  match order with
  | [] => None
  | n :: rest =>
      match findName available n with
      | Some found => Some found
      | None => firstOf rest available
      end
  end.

(** [getBestLLMService(taskType = 'summary', tokenCount = 0)].  In each branch
    the names are tried in the order written and [availableServices[0]] is the
    fallback. *)
Definition getBestLLMService (s : Settings) (taskType : option string)
    (tokenCount : option Q) : outcome string :=
  let taskType := default "summary" taskType in
  let tokenCount := default 0%Q tokenCount in
  let availableServices := getAvailableLLMServices s in
  match availableServices with
  | [] => Thrown "No LLM services available"
  | first :: _ =>
      let order :=
        if String.eqb taskType "summary" && ltb tokenCount 4000 then ["openai"; "claude"]
        else if ltb 8000 tokenCount then ["claude"; "openai"]
        else ["openai"; "claude"; "local"] in
      Returned (default first (firstOf order availableServices))
  end.

(** *** Usage statistics *)

Record UsageStats := {
  requests : Q;
  tokens : Q;
  characters : Q;
  cost : Q;
  lastUsed : option nat
}.

(** The [usage] argument; each property may be missing. *)
Record Usage := {
  u_requests : option Q;
  u_tokens : option Q;
  u_characters : option Q;
  u_cost : option Q
}.

Definition statsKey (serviceName serviceType : string) : string :=
  serviceType +:+ ":" +:+ serviceName.

Definition noUsage : UsageStats :=
  {| requests := 0; tokens := 0; characters := 0; cost := 0; lastUsed := None |}.

(** [updateUsageStats(serviceName, serviceType, usage)] at time [now] on the
    [usageStats] map. *)
Definition updateUsageStats (serviceName serviceType : string) (usage : Usage) (now : nat)
    (usageStats : gmap string UsageStats) : gmap string UsageStats :=
  let key := statsKey serviceName serviceType in
  let currentStats := default noUsage (usageStats !! key) in
  <[key := {| requests := (requests currentStats + num_or (u_requests usage) 1)%Q;
              tokens := (tokens currentStats + num_or (u_tokens usage) 0)%Q;
              characters := (characters currentStats + num_or (u_characters usage) 0)%Q;
              cost := (cost currentStats + num_or (u_cost usage) 0)%Q;
              lastUsed := Some now |}]> usageStats.

(** What [getUsageStats] returns: one entry (or [null]), or all of them. *)
Inductive UsageReport : Type :=
| OneService (stats : option UsageStats)
| AllServices (stats : gmap string UsageStats).

(** [getUsageStats(serviceName = null, serviceType = null)] *)
Definition getUsageStats (serviceName serviceType : option string)
    (usageStats : gmap string UsageStats) : UsageReport :=
  if present serviceName && present serviceType
  then OneService (usageStats !! statsKey (default "" serviceName) (default "" serviceType))
  else AllServices usageStats.

(** *** validateConfiguration *)

Record Validation := {
  valid : bool;
  issues : list string
}.

Definition sttIssue (e : Entry) : list string :=
  if e_enabled e && negb (present (apiKey e)) && negb (present (keyFilename e))
  then ["STT service " +:+ e_name e +:+ " is enabled but missing API key"]
  else [].

Definition llmIssue (e : Entry) : list string :=
  if e_enabled e && negb (present (apiKey e)) && negb (String.eqb (e_name e) "local")
  then ["LLM service " +:+ e_name e +:+ " is enabled but missing API key"]
  else [].

Definition validateConfiguration (s : Settings) : Validation :=
  let issues := List.concat (List.map sttIssue (sttEntries s)) in
  let issues := issues ++ List.concat (List.map llmIssue (llmEntries s)) in
  let enabledSTT := List.existsb e_enabled (sttEntries s) in
  let enabledLLM := List.existsb e_enabled (llmEntries s) in
  let issues := if negb enabledSTT then issues ++ ["No STT services are enabled"] else issues in
  let issues := if negb enabledLLM then issues ++ ["No LLM services are enabled"] else issues in
  {| valid := Nat.eqb (length issues) 0; issues := issues |}.

End ManagerServices.

(** ** speechToTextService.js: average confidence and AWS job polling *)

Module SpeechToTextMore.
Import JS SpeechToTextService.
Local Open Scope Q_scope.

(** [calculateAverageConfidence(segments)] *)
Definition calculateAverageConfidence (segments : option (list Segment)) : Q :=
  match segments with
  | None => 0
  | Some [] => 0
  | Some l =>
      let totalConfidence :=
        fold_left (fun sum segment => sum + num_or (Some (confidence segment)) 0) l 0 in
      totalConfidence / inject_Z (Z.of_nat (length l))
  end.

(** The part of a [getTranscriptionJob] response the poller reads. *)
Record TranscriptionJob := {
  TranscriptionJobStatus : string;
  FailureReason : string
}.

(** What a run of the poller did: its result, the number of
    [getTranscriptionJob] calls made and the milliseconds spent waiting. *)
Record PollRun := {
  polled : outcome TranscriptionJob;
  calls : nat;
  waited : nat
}.

(** The [for] loop of [pollAWSTranscriptionJob] with [remaining] iterations
    left, [attempt] being the loop counter; [responses k] is what the [k]-th
    call of [getTranscriptionJob] yields. *)
Fixpoint pollLoop (responses : nat -> outcome TranscriptionJob) (remaining attempt : nat)
  : PollRun :=
  match remaining with
  | O => {| polled := Thrown "AWS transcription job timeout";
            calls := attempt; waited := 5000 * attempt |}
  | S remaining' =>
      match responses attempt with
      | Thrown e => {| polled := Thrown e; calls := S attempt; waited := 5000 * attempt |}
      | Returned result =>
          if String.eqb (TranscriptionJobStatus result) "COMPLETED" then
            {| polled := Returned result; calls := S attempt; waited := 5000 * attempt |}
          else if String.eqb (TranscriptionJobStatus result) "FAILED" then
            {| polled := Thrown ("AWS transcription job failed: " +:+ FailureReason result);
               calls := S attempt; waited := 5000 * attempt |}
          else pollLoop responses remaining' (S attempt)
      end
  end.

(** [pollAWSTranscriptionJob(transcribeService, jobName, maxAttempts = 60)] *)
Definition pollAWSTranscriptionJob (responses : nat -> outcome TranscriptionJob)
    (maxAttempts : option nat) : PollRun :=
  pollLoop responses (default 60%nat maxAttempts) 0.

End SpeechToTextMore.

(** ** audioProcessingService.js: splitting audio into chunks *)

Module AudioProcessingService.
Import JS.
Local Open Scope Q_scope.

Record AudioInfo := {
  duration : Q;
  size : Q
}.

Record Chunk := {
  index : nat;
  path : string;
  startTime : Q;
  c_duration : Q;
  c_size : Q
}.

Record SplitResult := {
  inputPath : string;
  outputDir : string;
  chunks : list Chunk;
  totalChunks : nat;
  totalDuration : Q
}.

(** The collaborators of [splitAudio]: the file system, ffprobe and ffmpeg
    behind [getAudioInfo] and [extractAudioSegment], and the two path
    computations (the default output directory of an input, and
    [chunk_<i>.wav] inside a directory). *)
Record Tools := {
  mkdir : string -> outcome unit;
  getAudioInfo : string -> outcome AudioInfo;
  extractAudioSegment : string -> string -> Q -> Q -> outcome unit;
  chunksDir : string -> string;
  chunkFile : string -> nat -> string
}.

(** [Math.ceil] *)
Definition Math_ceil (x : Q) : Z := Qceiling x.

(** The body of [for (let i = 0; i < numChunks; i++)], run for the [n] indices
    from [i] on. *)
Fixpoint splitLoop (tools : Tools) (input dir : string) (chunkDuration : Q)
    (n i : nat) (acc : list Chunk) : outcome (list Chunk) :=
  match n with
  | O => Returned acc
  | S n' =>
      let startTime := inject_Z (Z.of_nat i) * chunkDuration in
      let chunkPath := chunkFile tools dir i in
      match extractAudioSegment tools input chunkPath startTime chunkDuration with
      | Thrown e => Thrown e
      | Returned _ =>
          match getAudioInfo tools chunkPath with
          | Thrown e => Thrown e
          | Returned chunkInfo =>
              splitLoop tools input dir chunkDuration n' (S i)
                (acc ++ [ {| index := i; path := chunkPath; startTime := startTime;
                             c_duration := duration chunkInfo;
                             c_size := size chunkInfo |} ])
          end
      end
  end.

(** [catch (error) { throw new Error(`Audio splitting failed: ${error.message}`) }] *)
Definition wrapFailure {A : Type} (o : outcome A) : outcome A :=
  match o with
  | Returned a => Returned a
  | Thrown e => Thrown ("Audio splitting failed: " +:+ e)
  end.

(** [splitAudio(inputPath, chunkDuration = 300, outputDir = null)].  The result
    is [None] when the loop never ends: a chunk duration of zero on audio of
    positive duration makes the number of chunks infinite. *)
Definition splitAudio (tools : Tools) (input : string) (chunkDuration : option Q)
    (dir : option string) : option (outcome SplitResult) :=
  let chunkDuration := default 300 chunkDuration in
  let dir := match dir with
             | Some EmptyString | None => chunksDir tools input
             | Some d => d
             end in
  match mkdir tools dir with
  | Thrown e => Some (wrapFailure (Thrown e))
  | Returned _ =>
      match getAudioInfo tools input with
      | Thrown e => Some (wrapFailure (Thrown e))
      | Returned audioInfo =>
          let totalDuration := duration audioInfo in
          if Qeq_bool chunkDuration 0 then
            if ltb 0 totalDuration then None
            else Some (Returned {| inputPath := input; outputDir := dir; chunks := [];
                                   totalChunks := 0; totalDuration := totalDuration |})
          else
            let numChunks := Math_ceil (totalDuration / chunkDuration) in
            Some (wrapFailure
              (match splitLoop tools input dir chunkDuration (Z.to_nat numChunks) 0 [] with
               | Thrown e => Thrown e
               | Returned chunks =>
                   Returned {| inputPath := input; outputDir := dir; chunks := chunks;
                               totalChunks := length chunks;
                               totalDuration := totalDuration |}
               end))
      end
  end.

End AudioProcessingService.

(** ** transcriptionController.js: search context and cost *)

Module ControllerHelpers.
Import JS.
Local Open Scope Z_scope.

Section Substring.
Context {A : Type}.

(** An index argument of [substring], clamped to the string. *)
Definition clamp (s : list A) (i : Z) : Z := Z.max 0 (Z.min i (Z.of_nat (length s))).

(** [s.substring(a, b)] for integer arguments: both are clamped to
    [0 .. s.length] and swapped if the first exceeds the second. *)
Definition substring (s : list A) (a b : Z) : list A :=
  let a' := clamp s a in
  let b' := clamp s b in
  let from := Z.min a' b' in
  let to := Z.max a' b' in
  firstn (Z.to_nat (to - from)) (skipn (Z.to_nat from) s).

(** The object [getContext] returns; [matched] is its field [match]. *)
Record MatchContext := {
  before : list A;
  matched : list A;
  after : list A
}.

(** [getContext(text, start, length, contextLength = 50)] *)
Definition getContext (text : list A) (start len : Z) (contextLength : option Z)
  : MatchContext :=
  let contextLength := default 50 contextLength in
  let contextStart := Z.max 0 (start - contextLength) in
  let contextEnd := Z.min (Z.of_nat (length text)) (start + len + contextLength) in
  {| before := substring text contextStart start;
     matched := substring text start (start + len);
     after := substring text (start + len) contextEnd |}.

End Substring.

(** The per-minute rates of [calculateTranscriptionCost]: the own keys of the
    [rates] object.  Any other name is taken to be absent. *)
Definition rates (service : string) : option Q :=
  if String.eqb service "fpt" then Some (1 # 100)%Q
  else if String.eqb service "whisper" then Some (6 # 1000)%Q
  else if String.eqb service "google" then Some (16 # 1000)%Q
  else if String.eqb service "azure" then Some (1 # 100)%Q
  else None.

(** [calculateTranscriptionCost(service, duration)]:
    [(rates[service] || 0) * Math.ceil(duration / 60)] *)
Definition calculateTranscriptionCost (service : string) (duration : Q) : Q :=
  let minutes := Qceiling (duration / 60) in
  (num_or (rates service) 0 * inject_Z minutes)%Q.

End ControllerHelpers.

(** ** models/Transcript.js: quality metrics and edits *)

Module TranscriptMore.
Import JS Transcript.
Local Open Scope Q_scope.

(** A stored segment with its text. *)
Record TextSegment := {
  seg : Segment;
  text : ustring
}.

Record Quality := {
  q_segmentCount : nat;
  wordCount : nat;
  overallConfidence : Q;
  averageSegmentLength : Q;
  hasLowConfidenceSegments : bool;
  lowConfidenceThreshold : Q;
  speakerCount : nat
}.

Record Doc := {
  d_segments : option (list TextSegment);
  d_speakers : option (list Speaker);
  quality : Quality
}.

(** [text.split(' ').length]: one more than the number of spaces. *)
Definition splitLength (t : ustring) : nat :=
  S (length (List.filter (N.eqb 32) t)).

(** [segment.text ? segment.text.split(' ').length : 0] *)
Definition wordsOf (s : TextSegment) : nat :=
  match text s with
  | [] => 0
  | t => splitLength t
  end.

(** [calculateQualityMetrics]: nothing happens without segments; otherwise the
    metrics are recomputed and the speaker statistics updated. *)
Definition calculateQualityMetrics (doc : Doc) : Doc :=
  match d_segments doc with
  | None => doc
  | Some [] => doc
  | Some segments =>
      let n := inject_Z (Z.of_nat (length segments)) in
      let totalConfidence :=
        fold_left (fun sum s => sum + confidence (seg s)) segments 0 in
      let totalDuration :=
        fold_left (fun sum s => sum + (endTime (seg s) - startTime (seg s))) segments 0 in
      let threshold := lowConfidenceThreshold (quality doc) in
      let lowConfidenceSegments :=
        List.filter (fun s => ltb (confidence (seg s)) threshold) segments in
      let speakers := default [] (d_speakers doc) in
      let updated :=
        updateSpeakerStatistics {| segments := Some (List.map seg segments);
                                   speakers := d_speakers doc |} in
      {| d_segments := Some segments;
         d_speakers := Transcript.speakers updated;
         quality :=
           {| q_segmentCount := length segments;
              wordCount := fold_left (fun total s => (total + wordsOf s)%nat) segments 0%nat;
              overallConfidence := inject_Z (Math_round (totalConfidence / n));
              averageSegmentLength := totalDuration / n;
              hasLowConfidenceSegments := Nat.ltb 0 (length lowConfidenceSegments);
              lowConfidenceThreshold := threshold;
              speakerCount := length speakers |} |}
  end.

(** The part of a transcript that edits touch. *)
Record Versioned (Content Edit : Type) := {
  version : nat;
  content : Content;
  edits : list Edit;
  previousVersions : list (nat * Content * string)
}.
Arguments version {Content Edit} _.
Arguments content {Content Edit} _.
Arguments edits {Content Edit} _.
Arguments previousVersions {Content Edit} _.

Section Edits.
Context {Content Edit : Type}.

(** [createVersionBackup(changeLog)]: the backup keeps the version number, the
    content as it is at that moment and the change log (its time stamp is left
    out). *)
Definition createVersionBackup (changeLog : string) (t : Versioned Content Edit)
  : Versioned Content Edit :=
  {| version := version t; content := content t; edits := edits t;
     previousVersions := previousVersions t ++ [(version t, content t, changeLog)] |}.

(** [addEdit(edit)], up to the final [save]. *)
Definition addEdit (edit : Edit) (t : Versioned Content Edit) : Versioned Content Edit :=
  let t := match edits t with
           | [] => createVersionBackup "Initial version before edits" t
           | _ => t
           end in
  {| version := version t + 1; content := content t; edits := edits t ++ [edit];
     previousVersions := previousVersions t |}.

End Edits.

End TranscriptMore.

(** ** middleware/auth.js: the per-user rate limit *)

Module AuthMiddleware.
Import JS.
Local Open Scope Z_scope.

(** What a middleware passes to [next]: nothing, or an [AppError] with its
    status code. *)
Inductive Next := Continue | Fail (statusCode : Z).

(** The middleware returned by [userRateLimit(maxRequests, windowMinutes = 15)],
    applied to a request of [user] (the id of [req.user], if there is one) at
    time [now], the value of [Date.now()].  [requests] is the map of the
    closure: for each user id the times of the requests that count. *)
Definition userRateLimit (maxRequests : Z) (windowMinutes : option Z)
    (user : option string) (now : Z) (requests : gmap string (list Z))
  : gmap string (list Z) * Next :=
  match user with
  | None => (requests, Continue)
  | Some userId =>
      let windowMs := default 15 windowMinutes * 60 * 1000 in
      let requests :=
        match requests !! userId with
        | None => <[userId := []]> requests
        | Some _ => requests
        end in
      let userRequests := default [] (requests !! userId) in
      let validRequests := List.filter (fun time => now - time <? windowMs) userRequests in
      if Z.of_nat (length validRequests) >=? maxRequests
      then (requests, Fail 429)
      else (<[userId := validRequests ++ [now]]> requests, Continue)
  end.

End AuthMiddleware.

(** ** Specification-level definitions *)

(** Provider selection as the specification words it: the three filters over
    the registry, then the priority order, then the first survivor. *)
Module SelectorSpec.
Import AIServiceManager.

(** Steps 1 to 3 on one registry entry. *)
Definition survives (language : string) (fileSize duration : Q)
    (entry : string * STTService) : Prop :=
  enabled entry.2 = true ∧
  (In language (languages entry.2) ∨ In "auto" (languages entry.2)) ∧
  (fileSize <= maxFileSize (limits entry.2))%Q ∧
  match maxDuration (limits entry.2) with
  | Some m => (duration <= m)%Q
  | None => True
  end.

Definition survivor (services : registry) (language : string) (fileSize duration : Q)
    (n : string) : Prop :=
  ∃ config, In (n, config) services ∧ survives language fileSize duration (n, config).

(** [n] is the first name of the priority order that survives. *)
Definition firstByPriority (services : registry) (language : string)
    (fileSize duration : Q) (n : string) : Prop :=
  survivor services language fileSize duration n ∧
  ∃ before after, priorityOrder = before ++ n :: after ∧
    ∀ p, In p before → ¬ survivor services language fileSize duration p.

(** No priority name survives and [n] is the first surviving entry. *)
Definition firstRemaining (services : registry) (language : string)
    (fileSize duration : Q) (n : string) : Prop :=
  (∀ p, In p priorityOrder → ¬ survivor services language fileSize duration p) ∧
  ∃ before config after, services = before ++ (n, config) :: after ∧
    survives language fileSize duration (n, config) ∧
    ∀ e, In e before → ¬ survives language fileSize duration e.

Definition selects (services : registry) (language : string) (fileSize duration : Q)
    (n : string) : Prop :=
  firstByPriority services language fileSize duration n ∨
  firstRemaining services language fileSize duration n.

(** The three filters as one test on a registry entry. *)
Definition toAvailable (entry : string * STTService) : Available :=
  {| name := entry.1; a_languages := languages entry.2; a_limits := limits entry.2 |}.

Definition survivesb (language : string) (fileSize duration : Q)
    (entry : string * STTService) : bool :=
  enabled entry.2 && supportsLanguage language (toAvailable entry)
  && withinLimits fileSize duration (toAvailable entry).

(** No entry declares a duration ceiling of zero. *)
Definition positiveCeilings (services : registry) : Prop :=
  ∀ e m, In e services → maxDuration (limits e.2) = Some m → JS.truthy m = true.

(** The reasons step 5 of the specification asks the failure to carry. *)
Inductive FilterReason : Type :=
| UnsupportedLanguage
| FileTooLarge
| DurationTooLong.

(** Two environments used as concrete inputs. *)
Definition allEnabled : Env :=
  {| FPT_STT_ENABLED := true; WHISPER_ENABLED := true;
     GOOGLE_STT_ENABLED := true; AZURE_STT_ENABLED := true |}.

Definition onlyFPT : Env :=
  {| FPT_STT_ENABLED := true; WHISPER_ENABLED := false;
     GOOGLE_STT_ENABLED := false; AZURE_STT_ENABLED := false |}.

End SelectorSpec.

(** Invariants of cleaned text. *)
Module CleaningSpec.
Import JS SpeechToTextService.

(** Every character of [s] is one the second replacement keeps. *)
Definition allKept (s : ustring) : Prop := Forall (fun c => kept c = true) s.

(** The only whitespace in [s] is the space character, never twice in a row;
    [after_space] tells that a space precedes [s]. *)
Fixpoint tidy (after_space : bool) (s : ustring) : bool :=
  match s with
  | [] => true
  | c :: rest =>
      if is_space c
      then (c =? SPACE)%N && negb after_space && tidy true rest
      else tidy false rest
  end.

(** [s] does not begin with whitespace. *)
Definition startsClean (s : ustring) : bool :=
  match s with
  | [] => true
  | c :: _ => negb (is_space c)
  end.

End CleaningSpec.

(** Post-processing as the specification words it. *)
Module PostProcessSpec.
Import JS SpeechToTextService.
Local Open Scope Q_scope.

(** Paragraph-break insertion over adjacent pairs; [i] is the index of the
    head of [segments] in the whole list. *)
Fixpoint insertBreaks (threshold : Q) (i : nat) (segments : list Segment) : list Segment :=
  match segments with
  | [] => []
  | current :: rest =>
      current ::
      match rest with
      | next :: _ =>
          if ltb threshold (startTime next - endTime current)
          then [paragraphBreak i current next]
          else []
      | [] => []
      end ++ insertBreaks threshold (S i) rest
  end.

(** The segment that stands for a run [first :: more] of merged segments:
    texts joined by single spaces, the end time of the last segment, the
    confidence averaged pairwise from left to right, the rest from [first]. *)
Definition coalesced (first : Segment) (more : list Segment) : Segment :=
  {| id := id first;
     text := join [SPACE] (List.map text (first :: more));
     startTime := startTime first;
     endTime := endTime (List.last more first);
     confidence := fold_left (fun c s => (c + confidence s) / 2) more (confidence first);
     speaker := speaker first;
     words := words first;
     type := type first |}.

(** A run of short segments closes into one segment, an empty run into none. *)
Definition closeRun (run : list Segment) : list Segment :=
  match run with
  | [] => []
  | first :: more => [coalesced first more]
  end.

(** The running merge after a run of short segments has been taken in. *)
Definition absorbAll (currentMerge : option Segment) (run : list Segment) : option Segment :=
  match currentMerge, run with
  | None, [] => None
  | None, first :: more => Some (fold_left absorb more first)
  | Some cm, _ => Some (fold_left absorb run cm)
  end.

(** The start time, end time and text of a segment, as the examples give them. *)
Definition shape (s : Segment) : Q * Q * ustring := (startTime s, endTime s, text s).

Definition plain (i : nat) (from to : Q) (t : string) (c : Q) : Segment :=
  {| id := Index i; text := lit t; startTime := from; endTime := to;
     confidence := c; speaker := "Speaker 1"; words := Some []; type := None |}.

(** The segments of example scenario D. *)
Definition scenarioD : list Segment :=
  [plain 0 0 1 "a" (9 # 10); plain 1 1 (3 # 2) "b" (4 # 5); plain 2 (3 # 2) 2 "c" (1 # 2)].

(** Two short utterances separated by a long silence. *)
Definition farApart : list Segment :=
  [plain 0 0 1 "hello" (9 # 10); plain 1 10 11 "world" (9 # 10)].

(** The pipeline in the order the specification gives: clean, merge, insert breaks. *)
Definition specifiedOrder (segments : list Segment) : list Segment :=
  addParagraphBreaks (mergeShortSegments (List.map cleanSegment segments) None) None.

(** A provider result holding [segments]. *)
Definition resultOf (segments : list Segment) : TranscriptionResult :=
  {| r_segments := segments; r_text := []; r_language := "en"; r_confidence := 9 # 10 |}.

(** Each enabled step applied in the order of the code. *)
Definition stagesOf (options : PostProcessOptions) (segments : list Segment) : list Segment :=
  let cleaned :=
    if not_false (cleanText options) then List.map cleanSegment segments else segments in
  let broken :=
    if not_false (addParagraphs options) then addParagraphBreaks cleaned None else cleaned in
  if not_false (opt_mergeShortSegments options) then mergeShortSegments broken None else broken.

End PostProcessSpec.

(** Inputs for the response parsers. *)
Module ParserSpec.
Import JS SpeechToTextService.
Local Open Scope Q_scope.

Definition utterance (t : string) (c : option Q) : FPTUtterance :=
  {| u_transcript := lit t; u_startTime := Some 1; u_endTime := Some 2;
     u_confidence := c; u_speaker := None; u_words := None |}.

Definition fptResponse (us : list FPTUtterance) : FPTData :=
  {| hypotheses := Some [ {| utterances := Some us; h_transcript := [];
                             h_confidence := None |} ] |}.

Definition whisperSegment (t : string) (l : option Q) : WhisperSegment :=
  {| ws_text := lit t; ws_start := 0; ws_end := 1; avg_logprob := l; ws_words := None |}.

(** An FPT response whose hypothesis has no utterance list. *)
Definition fptPlain (t : string) (c : option Q) : FPTData :=
  {| hypotheses := Some [ {| utterances := None; h_transcript := lit t;
                             h_confidence := c |} ] |}.

Definition googleResult (t : string) (c : option Q) : GoogleResult :=
  {| alternatives := Some [ {| ga_transcript := lit t; ga_confidence := c;
                               speakerTag := None; ga_words := None |} ] |}.

End ParserSpec.

(** Per-speaker totals as the specification words them. *)
Module SpeakerSpec.
Import JS Transcript.
Local Open Scope Q_scope.

Definition spokenBy (speakerId : string) (s : Segment) : bool :=
  String.eqb (sp_id (speaker s)) speakerId.

(** The sum of [endTime - startTime] over the segments of one speaker. *)
Definition speakingTime (segs : list Segment) (speakerId : string) : Q :=
  fold_left Qplus
    (List.map (fun s => endTime s - startTime s) (List.filter (spokenBy speakerId) segs)) 0.

Definition noStats : Stats :=
  {| totalTime := 0; st_segmentCount := 0; totalConfidence := 0 |}.

(** The statistics of one speaker after its segments [l] have been added. *)
Definition addAll (stats : Stats) (l : list Segment) : Stats :=
  fold_left (fun st segment =>
               {| totalTime := totalTime st + (endTime segment - startTime segment);
                  st_segmentCount := st_segmentCount st + 1;
                  totalConfidence := totalConfidence st + confidence segment |})
            l stats.

(** One speaker who talks for a quarter of a second. *)
Definition quarterSecond : Content :=
  {| segments := Some [ {| speaker := {| sp_id := "s1"; sp_name := "Speaker 1" |};
                           startTime := 0; endTime := 1 # 4; confidence := 90 |} ];
     speakers := Some [ {| id := "s1"; name := "Speaker 1"; totalSpeakingTime := Some 0;
                           segmentCount := Some 0%nat; averageConfidence := Some 0 |} ] |}.

End SpeakerSpec.

(** The job life cycle, as specified and as observed. *)
Module JobSpec.
Import JS TranscriptionController.




(** The provider call [processTranscriptionJob] makes for a service name. *)
Definition providerCall (ext : Externals) (service : string) (audioData : AudioData)
    (language : string) : option (outcome STTResult) :=
  if String.eqb service "fpt" then Some (transcribeWithFPT ext audioData language)
  else if String.eqb service "whisper" then Some (transcribeWithWhisper ext audioData language)
  else if String.eqb service "google" then Some (transcribeWithGoogle ext audioData language)
  else if String.eqb service "azure" then Some (transcribeWithAzure ext audioData language)
  else None.

Definition freePlan : Limits := {| monthlyMinutes := 60; storageGB := 1; aiRequests := 100 |}.

Definition theMeeting (s : string) (t : option nat) : Meeting :=
  {| m_userId := 7; files := FileObject;
     m_duration := Some 60%Q; m_status := s; m_transcript := t; priority := None |}.


Definition submitIt : StartRequest :=
  {| req_userId := 7; req_meetingId := 1; req_fileId := 3;
     req_language := Some "vi-VN"; req_service := None |}.

(** The job of transcript 0 of that meeting. *)
Definition theJob : JobData :=
  {| transcriptId := 0; j_meetingId := 1; j_fileId := 3; filePath := "a.wav";
     j_service := "fpt"; j_language := "vi-VN"; j_userId := 7; j_priority := "normal" |}.

(** The transcript of that meeting, as the store holds it. *)
Definition theRecord (s : Status) : TranscriptDoc :=
  {| _id := 0; meetingId := 1; language := Nested "vi" "vi-VN"; service := "fpt-ai";
     status := s; error := None |}.

(** Collaborators whose every provider call times out.  Validation refuses the
    document it is given, as it does every document the controller saves in
    these examples (their [language] has been assigned a string where the
    schema declares a nested object); the other writes go through. *)
Definition alwaysTimingOut : Externals :=
  {| processAudioFile := fun p => Returned {| audioPath := p |};
     transcribeWithFPT := fun _ _ => Thrown "timeout of 30000ms exceeded";
     transcribeWithWhisper := fun _ _ => Thrown "timeout of 30000ms exceeded";
     transcribeWithGoogle := fun _ _ => Thrown "timeout of 30000ms exceeded";
     transcribeWithAzure := fun _ _ => Thrown "timeout of 30000ms exceeded";
     validate := fun _ => Thrown "Transcript validation failed";
     saveMeeting := Returned tt;
     lpush := Returned tt;
     cacheSet := Returned tt |}.

(** The store in which the meeting is being transcribed: its transcript is
    [processing] and its job is on the queue.  Then the store after that job
    has been processed with every provider call timing out. *)
Definition submitted : World :=
  {| transcripts := [theRecord processing]; nextId := 1;
     meetings := {[ 1%nat := theMeeting "transcribing" (Some 0%nat) ]};
     quota := {[ 7%nat := freePlan ]};
     queue := [theJob]; jobs := ∅; providerCalls := [] |}.




End JobSpec.

(** Further invariants of the stores. *)
Module StoreSpec.
Import JS TranscriptionController.


(** The meeting of a request: it exists and belongs to the requesting user. *)
Definition ownMeeting (w : World) (req : StartRequest) (meeting : Meeting) : Prop :=
  meetings w !! req_meetingId req = Some meeting ∧ m_userId meeting = req_userId req.

(** The meeting of a request holds its files in an array, and the file of the
    request is one of them. *)
Definition ownsFile (w : World) (req : StartRequest) : Prop :=
  ∃ meeting documents file,
    ownMeeting w req meeting ∧ files meeting = FileArray documents ∧
    In file documents ∧ f_id file = req_fileId req.

(** There is no such meeting, or its array of files does not hold the file. *)
Definition notFound (w : World) (req : StartRequest) : Prop :=
  (∀ meeting, ¬ ownMeeting w req meeting) ∨
  ∃ meeting documents,
    ownMeeting w req meeting ∧ files meeting = FileArray documents ∧
    ∀ file, In file documents → f_id file ≠ req_fileId req.

(** A request for a meeting that the sample stores do not hold. *)
Definition submitOther : StartRequest :=
  {| req_userId := 7; req_meetingId := 2; req_fileId := 3;
     req_language := Some "vi-VN"; req_service := None |}.


End StoreSpec.

(** Further notions for post-processing. *)
Module PostProcessMore.
Import JS SpeechToTextService.
Local Open Scope Q_scope.

(** The transcript text as [postProcessTranscription] builds it: the segment
    texts joined by single spaces. *)
Definition fullText (segments : list Segment) : ustring :=
  join [SPACE] (List.map text segments).

(** Each text preceded by the separator. *)
Definition spaced (texts : list ustring) : ustring :=
  List.concat (List.map (fun t => SPACE :: t) texts).

Definition optList (o : option Segment) : list Segment :=
  match o with
  | Some s => [s]
  | None => []
  end.

End PostProcessMore.

(** Further notions for cleaned text and speaker statistics. *)
Module CleaningMore.
Import JS SpeechToTextService.

(** The last character of [s], if any, is not whitespace. *)
Definition endsClean (s : ustring) : bool := negb (is_space (List.last s 0%N)).

(** Every whitespace character of [s] is the space character. *)
Definition onlySpaces (s : ustring) : Prop :=
  Forall (fun c => is_space c = true → c = SPACE) s.

End CleaningMore.

Module SpeakerMore.
Import JS Transcript SpeakerSpec.
Local Open Scope Q_scope.

(** The sum of the confidences of one speaker's segments. *)
Definition confidenceSum (segs : list Segment) (speakerId : string) : Q :=
  fold_left Qplus (List.map confidence (List.filter (spokenBy speakerId) segs)) 0.

Definition segmentsOf (segs : list Segment) (speakerId : string) : nat :=
  length (List.filter (spokenBy speakerId) segs).

(** Two speakers, one of them with stale statistics and no segment. *)
Definition staleSpeaker : Content :=
  {| segments := Some [ {| speaker := {| sp_id := "s1"; sp_name := "Speaker 1" |};
                           startTime := 0; endTime := 2; confidence := 90 |};
                        {| speaker := {| sp_id := "s1"; sp_name := "Speaker 1" |};
                           startTime := 2; endTime := 5; confidence := 70 |} ];
     speakers := Some [ {| id := "s1"; name := "Speaker 1"; totalSpeakingTime := Some 0;
                           segmentCount := Some 0%nat; averageConfidence := Some 0 |};
                        {| id := "s2"; name := "Speaker 2"; totalSpeakingTime := Some 40;
                           segmentCount := Some 4%nat; averageConfidence := Some 55 |} ] |}.

End SpeakerMore.

(** Notions for the manager's other services. *)
Module ManagerSpec.
Import JS AIServiceManager ManagerServices.

(** [n] names an LLM service that is enabled. *)
Definition enabledLLM (s : Settings) (n : string) : Prop :=
  (n = "openai" ∧ OPENAI_ENABLED s = true) ∨
  (n = "claude" ∧ CLAUDE_ENABLED s = true) ∨
  (n = "local" ∧ LOCAL_LLM_ENABLED s = true).

(** A string without a colon. *)
Fixpoint colonFree (t : string) : bool :=
  match t with
  | EmptyString => true
  | String c rest => negb (Ascii.eqb c ":") && colonFree rest
  end.

(** Sample settings: only the two hosted LLM services, with keys. *)
Definition hosted : Settings :=
  {| stt := SelectorSpec.onlyFPT; FPT_STT_API_KEY := Some "k1";
     OPENAI_API_KEY := Some "k2"; GOOGLE_CLOUD_KEY_FILE := None;
     AZURE_SPEECH_KEY := None; OPENAI_ENABLED := true; CLAUDE_ENABLED := true;
     CLAUDE_API_KEY := Some "k3"; LOCAL_LLM_ENABLED := false |}.

Definition oneRequest : Usage :=
  {| u_requests := Some 1%Q; u_tokens := None; u_characters := None;
     u_cost := Some (1 # 4)%Q |}.

End ManagerSpec.

(** Notions for polling and chunking. *)
Module PollSpec.
Import JS SpeechToTextMore.

(** A response that makes the poller wait and ask again. *)
Definition pendingb (o : outcome TranscriptionJob) : bool :=
  match o with
  | Returned r =>
      negb (String.eqb (TranscriptionJobStatus r) "COMPLETED") &&
      negb (String.eqb (TranscriptionJobStatus r) "FAILED")
  | Thrown _ => false
  end.

(** How the poller ends on a response that is not pending. *)
Definition settle (o : outcome TranscriptionJob) : outcome TranscriptionJob :=
  match o with
  | Returned r =>
      if String.eqb (TranscriptionJobStatus r) "COMPLETED" then Returned r
      else Thrown ("AWS transcription job failed: " +:+ FailureReason r)
  | Thrown e => Thrown e
  end.

(** A job reported in progress twice and then completed. *)
Definition thirdTime (k : nat) : outcome TranscriptionJob :=
  if Nat.ltb k 2
  then Returned {| TranscriptionJobStatus := "IN_PROGRESS"; FailureReason := "" |}
  else Returned {| TranscriptionJobStatus := "COMPLETED"; FailureReason := "" |}.

End PollSpec.

Module ChunkSpec.
Import JS AudioProcessingService.
Local Open Scope Q_scope.

(** Tools that always succeed, on an input of 700 seconds. *)
Definition steady : Tools :=
  {| mkdir := fun _ => Returned tt;
     getAudioInfo := fun p =>
       if String.eqb p "in.wav" then Returned {| duration := 700; size := 1000 |}
       else Returned {| duration := 300; size := 400 |};
     extractAudioSegment := fun _ _ _ _ => Returned tt;
     chunksDir := fun p => p +:+ "_chunks";
     chunkFile := fun d i => d +:+ "/chunk_" +:+ NilEmpty.string_of_uint (Nat.to_uint i) |}.

End ChunkSpec.

Module ContextSpec.

(** The items of [s] from position [a] up to, not including, position [b]. *)
Definition slice {A : Type} (s : list A) (a b : nat) : list A := firstn (b - a) (skipn a s).

End ContextSpec.

Module QualitySpec.
Import JS Transcript TranscriptMore.
Local Open Scope Q_scope.

Definition said (who : string) (from to c : Q) (t : string) : TextSegment :=
  {| seg := {| speaker := {| sp_id := who; sp_name := who |};
               startTime := from; endTime := to; confidence := c |};
     text := lit t |}.

(** A transcript of two segments, one of them below the default threshold of 60. *)
Definition mixed : Doc :=
  {| d_segments := Some [said "s1" 0 2 90 "good morning"; said "s2" 2 5 55 "hello"];
     d_speakers := None;
     quality := {| q_segmentCount := 0; wordCount := 0; overallConfidence := 0;
                   averageSegmentLength := 0; hasLowConfidenceSegments := false;
                   lowConfidenceThreshold := 60; speakerCount := 0 |} |}.

End QualitySpec.

Module EditSpec.
Import TranscriptMore.

(** [addEdit] called once for each edit of a list, in order. *)
Definition addEdits {Content Edit : Type} (new : list Edit) (t : Versioned Content Edit)
  : Versioned Content Edit :=
  fold_left (fun t edit => addEdit edit t) new t.

(** The backup made before a first edit. *)
Definition initialBackup {Content Edit : Type} (t : Versioned Content Edit)
  : nat * Content * string :=
  (version t, content t, "Initial version before edits").

End EditSpec.

Module LimiterSpec.
Import JS AuthMiddleware.
Local Open Scope Z_scope.

(** A request as the limiter sees it: who asks, and when. *)
Definition Event : Type := option string * Z.

(** One middleware serving a sequence of requests. *)
Fixpoint serve (maxRequests : Z) (windowMinutes : option Z) (events : list Event)
    (requests : gmap string (list Z)) : list Next :=
  match events with
  | [] => []
  | (user, now) :: rest =>
      let '(requests', next) := userRateLimit maxRequests windowMinutes user now requests in
      next :: serve maxRequests windowMinutes rest requests'
  end.

(** The clock never runs backwards along the sequence. *)
Fixpoint ordered (clock : Z) (events : list Event) : Prop :=
  match events with
  | [] => True
  | (_, now) :: rest => clock <= now ∧ ordered now rest
  end.

(** The times at which requests of [userId] were let through. *)
Definition timesOf (userId : string) (passed : list (string * Z)) : list Z :=
  List.map snd (List.filter (fun e => String.eqb (fst e) userId) passed).

(** How many of them lie less than [windowMs] before [now]. *)
Definition recent (windowMs now : Z) (userId : string) (passed : list (string * Z)) : nat :=
  length (List.filter (fun time => now - time <? windowMs) (timesOf userId passed)).

(** The limit stated over the whole history: a request of a user is let
    through when fewer than [maxRequests] of that user's requests were let
    through less than [windowMs] before it. *)
Fixpoint allowed (maxRequests windowMs : Z) (passed : list (string * Z))
    (events : list Event) : list Next :=
  match events with
  | [] => []
  | (None, _) :: rest => Continue :: allowed maxRequests windowMs passed rest
  | (Some userId, now) :: rest =>
      if Z.of_nat (recent windowMs now userId passed) <? maxRequests
      then Continue :: allowed maxRequests windowMs (passed ++ [(userId, now)]) rest
      else Fail 429 :: allowed maxRequests windowMs passed rest
  end.

(** What the stored lists have to do with the history: from [clock] on, the
    stored times of a user and the times at which that user was let through
    have the same members inside the window. *)
Definition tracks (windowMs clock : Z) (requests : gmap string (list Z)) (passed : list (string * Z))
  : Prop :=
  ∀ userId now, clock <= now →
    List.filter (fun time => now - time <? windowMs) (default [] (requests !! userId))
    = List.filter (fun time => now - time <? windowMs) (timesOf userId passed).

(** Four requests of one user under a limit of two per minute. *)
Definition burst : list Event :=
  [(Some "u1", 0); (Some "u1", 10); (Some "u1", 20); (Some "u1", 60000)].

(** Three requests of one user, the clock having been set back before the third. *)
Definition setBack : list Event :=
  [(Some "u1", 0); (Some "u1", 100000); (Some "u1", 50)].

End LimiterSpec.

(** * Properties *)

(** ** Provider selection *)

Section Selection.
Import JS AIServiceManager SelectorSpec.

Lemma includes_In (l : list string) (x : string) : includes l x = true ↔ In x l.
Proof.
  unfold includes. rewrite existsb_exists. split.
  - intros (y & Hy & Heq). apply String.eqb_eq in Heq. now subst.
  - intros H. exists x. split; [exact H | apply String.eqb_refl].
Qed.

Lemma suitable_filter (services : registry) language fileSize duration :
  List.filter (withinLimits fileSize duration)
    (List.filter (supportsLanguage language) (getAvailableSTTServices services))
  = List.map toAvailable (List.filter (survivesb language fileSize duration) services).
Proof.
  unfold getAvailableSTTServices.
  induction services as [| [n config] rest IH]; [reflexivity |].
  cbn [List.filter]. unfold survivesb at 1. cbn [fst snd].
  destruct (enabled config); cbn [andb List.map List.filter]; [| exact IH].
  change {| name := n; a_languages := languages config; a_limits := limits config |}
    with (toAvailable (n, config)).
  destruct (supportsLanguage language (toAvailable (n, config)));
    cbn [andb List.filter]; [| exact IH].
  destruct (withinLimits fileSize duration (toAvailable (n, config)));
    cbn [List.map]; [f_equal |]; exact IH.
Qed.

Lemma survivesb_spec (services : registry) language fileSize duration e :
  positiveCeilings services → In e services →
  survivesb language fileSize duration e = true ↔ survives language fileSize duration e.
Proof.
  intros Hpos Hin. unfold survivesb, survives, supportsLanguage, withinLimits.
  cbn [toAvailable a_languages a_limits].
  rewrite !andb_true_iff, orb_true_iff, !includes_In.
  unfold leb. rewrite Qle_bool_iff.
  destruct (maxDuration (limits e.2)) as [m |] eqn:Hm.
  - specialize (Hpos e m Hin Hm). rewrite Hpos. cbn [negb].
    rewrite orb_false_r, Qle_bool_iff. tauto.
  - tauto.
Qed.

Lemma find_name_survivor (services : registry) language fileSize duration p a :
  positiveCeilings services →
  List.find (fun s => String.eqb (name s) p)
    (List.map toAvailable (List.filter (survivesb language fileSize duration) services))
  = Some a →
  survivor services language fileSize duration p.
Proof.
  intros Hpos Hf. apply find_some in Hf as [Hin Heq].
  apply in_map_iff in Hin as ([n config] & <- & Hin).
  apply filter_In in Hin as [Hin Hs]. cbn in Heq. apply String.eqb_eq in Heq. subst n.
  exists config. split; [exact Hin |]. now apply (survivesb_spec services).
Qed.

Lemma find_name_None (services : registry) language fileSize duration p :
  positiveCeilings services →
  List.find (fun s => String.eqb (name s) p)
    (List.map toAvailable (List.filter (survivesb language fileSize duration) services)) = None
  ↔ ¬ survivor services language fileSize duration p.
Proof.
  intros Hpos. split.
  - intros Hnone (config & Hin & Hs).
    assert (Hf : String.eqb (name (toAvailable (p, config))) p = false).
    { apply (find_none _ _ Hnone). apply in_map, filter_In. split; [exact Hin |].
      now apply (survivesb_spec services). }
    cbn in Hf. rewrite String.eqb_refl in Hf. discriminate.
  - intros Hno. destruct (List.find _ _) as [a |] eqn:Hf; [| reflexivity].
    exfalso. apply Hno. now apply (find_name_survivor _ _ _ _ _ a).
Qed.

Lemma find_name_Some (suitable : list Available) p a :
  List.find (fun s => String.eqb (name s) p) suitable = Some a → name a = p.
Proof. intros H. apply find_some in H as [_ H]. now apply String.eqb_eq. Qed.

Lemma pickByPriority_Some order suitable n :
  pickByPriority order suitable = Some n →
  ∃ before after, order = before ++ n :: after ∧
    (∀ p, In p before → List.find (fun s => String.eqb (name s) p) suitable = None) ∧
    ∃ a, List.find (fun s => String.eqb (name s) n) suitable = Some a.
Proof.
  induction order as [| p rest IH]; [discriminate |]. cbn [pickByPriority].
  destruct (List.find (fun s => String.eqb (name s) p) suitable) as [a |] eqn:Hf.
  - intros Heq. injection Heq as Heq. subst n.
    pose proof (find_name_Some _ _ _ Hf) as Hn.
    rewrite Hn. exists [], rest. split; [reflexivity |]. split; [intros ? [] |].
    exists a. exact Hf.
  - intros H. destruct (IH H) as (before & after & -> & Hb & Hn).
    exists (p :: before), after. split; [reflexivity |]. split; [| exact Hn].
    intros q [<- | Hq]; [exact Hf | now apply Hb].
Qed.

Lemma pickByPriority_None order suitable :
  pickByPriority order suitable = None ↔
  ∀ p, In p order → List.find (fun s => String.eqb (name s) p) suitable = None.
Proof.
  induction order as [| p rest IH]; cbn [pickByPriority].
  - split; [intros _ ? [] | reflexivity].
  - destruct (List.find (fun s => String.eqb (name s) p) suitable) as [a |] eqn:Hf.
    + split; [discriminate |]. intros H. specialize (H p (or_introl eq_refl)). congruence.
    + rewrite IH. split.
      * intros H q [<- | Hq]; [exact Hf | now apply H].
      * intros H q Hq. apply H. now right.
Qed.

Lemma pickByPriority_first before n after suitable a :
  (∀ p, In p before → List.find (fun s => String.eqb (name s) p) suitable = None) →
  List.find (fun s => String.eqb (name s) n) suitable = Some a →
  pickByPriority (before ++ n :: after) suitable = Some n.
Proof.
  intros Hb Hn. induction before as [| p before IH]; cbn [pickByPriority app].
  - rewrite Hn. f_equal. now apply find_name_Some in Hn.
  - rewrite (Hb p (or_introl eq_refl)). apply IH. intros q Hq. apply Hb. now right.
Qed.

(** The head of a filtered list is the first element passing the test. *)
Lemma filter_head {A : Type} (f : A → bool) (l : list A) x rest :
  List.filter f l = x :: rest →
  ∃ before after, l = before ++ x :: after ∧ f x = true ∧
    ∀ e, In e before → f e = false.
Proof.
  induction l as [| y l IH]; [discriminate |]. cbn [List.filter].
  destruct (f y) eqn:Hy.
  - intros [= -> <-]. exists [], l. split; [reflexivity |]. split; [exact Hy | intros ? []].
  - intros H. destruct (IH H) as (before & after & -> & Hx & Hb).
    exists (y :: before), after. split; [reflexivity |]. split; [exact Hx |].
    intros e [<- | He]; [exact Hy | now apply Hb].
Qed.

Lemma filter_first {A : Type} (f : A → bool) (before after : list A) x :
  f x = true → (∀ e, In e before → f e = false) →
  ∃ rest, List.filter f (before ++ x :: after) = x :: rest.
Proof.
  intros Hx Hb. induction before as [| y before IH]; cbn [List.filter app].
  - rewrite Hx. eauto.
  - rewrite (Hb y (or_introl eq_refl)). apply IH. intros e He. apply Hb. now right.
Qed.

(** What [selectFrom] returns, over any registry without zero ceilings. *)
Lemma selectFrom_selects (services : registry) language fileSize duration n :
  positiveCeilings services →
  selectFrom services language fileSize duration = Returned n
  ↔ selects services language fileSize duration n.
Proof.
  intros Hpos. unfold selectFrom. cbv zeta. rewrite suitable_filter.
  set (kept := List.filter (survivesb language fileSize duration) services).
  assert (Hnone : ∀ p, List.find (fun s => String.eqb (name s) p) (List.map toAvailable kept)
                        = None ↔ ¬ survivor services language fileSize duration p)
    by (intros p; now apply find_name_None).
  split.
  - destruct kept as [| e rest] eqn:Hk; [discriminate |]. cbn [List.map].
    change (toAvailable e :: List.map toAvailable rest)
      with (List.map toAvailable (e :: rest)).
    destruct (pickByPriority priorityOrder _) as [m |] eqn:Hp.
    + intros [= ->]. left.
      apply pickByPriority_Some in Hp as (before & after & Ho & Hb & a & Hn).
      split.
      * rewrite <- Hk in Hn. now apply (find_name_survivor _ _ _ _ _ a) in Hn.
      * exists before, after. split; [exact Ho |]. intros p Hin. apply Hnone, Hb, Hin.
    + intros [= <-]. right. split.
      * intros p Hin. apply Hnone. revert p Hin. now apply pickByPriority_None.
      * subst kept. apply filter_head in Hk as (before & after & -> & He & Hb).
        destruct e as [n config]. exists before, config, after.
        split; [reflexivity |]. split.
        -- apply (survivesb_spec (before ++ (n, config) :: after)); [exact Hpos | | exact He].
           apply in_elt.
        -- intros e Hin Hs.
           apply (survivesb_spec (before ++ (n, config) :: after)) in Hs;
             [| exact Hpos | apply in_or_app; now left].
           rewrite (Hb e Hin) in Hs. discriminate.
  - intros [[Hs (before & after & Ho & Hb)] | [Hno (before & config & after & Hsv & Hs & Hb)]].
    + destruct (List.find (fun s => String.eqb (name s) n) (List.map toAvailable kept))
        as [a |] eqn:Hf; [| apply Hnone in Hf; contradiction].
      assert (Hp : pickByPriority priorityOrder (List.map toAvailable kept) = Some n).
      { rewrite Ho. apply (pickByPriority_first _ _ _ _ a); [| exact Hf].
        intros p Hin. apply Hnone, Hb, Hin. }
      destruct kept as [| e rest]; [discriminate |]. cbn [List.map].
      change (toAvailable e :: List.map toAvailable rest)
        with (List.map toAvailable (e :: rest)).
      now rewrite Hp.
    + assert (Hp : pickByPriority priorityOrder (List.map toAvailable kept) = None).
      { apply pickByPriority_None. intros p Hin. apply Hnone, Hno, Hin. }
      assert (Hk : ∃ rest, kept = (n, config) :: rest).
      { subst kept. rewrite Hsv. apply filter_first.
        - apply (survivesb_spec services); [exact Hpos | rewrite Hsv; apply in_elt | exact Hs].
        - intros e Hin. destruct (survivesb language fileSize duration e) eqn:He;
            [| reflexivity].
          exfalso. apply (Hb e Hin).
          apply (survivesb_spec services); [exact Hpos | | exact He].
          rewrite Hsv. apply in_or_app. now left. }
      destruct Hk as [rest ->]. cbn [List.map].
      change (toAvailable (n, config) :: List.map toAvailable rest)
        with (List.map toAvailable ((n, config) :: rest)).
      now rewrite Hp.
Qed.

(** [selectFrom] throws exactly when nothing survives, always with the one message. *)
Lemma selectFrom_throws (services : registry) language fileSize duration message :
  positiveCeilings services →
  selectFrom services language fileSize duration = Thrown message
  ↔ message = noSuitableMessage ∧
    ∀ n, ¬ survivor services language fileSize duration n.
Proof.
  intros Hpos. unfold selectFrom. cbv zeta. rewrite suitable_filter.
  destruct (List.filter (survivesb language fileSize duration) services)
    as [| [n0 c0] rest] eqn:Hk; cbn [List.map].
  - split.
    + intros [= <-]. split; [reflexivity |]. intros n (config & Hin & Hs).
      apply (survivesb_spec services) in Hs; [| exact Hpos | exact Hin].
      assert (Hin' : In (n, config) (List.filter (survivesb language fileSize duration) services))
        by (apply filter_In; now split).
      rewrite Hk in Hin'. destruct Hin'.
    + now intros [-> _].
  - split.
    + destruct (pickByPriority _ _); discriminate.
    + intros [_ Hno]. exfalso. apply (Hno n0). exists c0.
      assert (Hin : In (n0, c0) (List.filter (survivesb language fileSize duration) services))
        by (rewrite Hk; now left).
      apply filter_In in Hin as [Hin Hs]. split; [exact Hin |].
      now apply (survivesb_spec services).
Qed.

Lemma sttServices_positiveCeilings env : positiveCeilings (sttServices env).
Proof.
  intros e m Hin Hm. cbn in Hin.
  destruct Hin as [<- | [<- | [<- | [<- | []]]]]; cbn in Hm;
    try discriminate; injection Hm as <-; reflexivity.
Qed.

(** C3. For every language, file size and duration (absent arguments taking
    the defaults ['auto'], [0], [0]), [getBestSTTService] returns [n] exactly
    when [n] is what the specified selection yields on the registry: [n] names
    an entry that is enabled, whose languages contain the requested language or
    ['auto'], and whose size and duration ceilings are not exceeded; and [n] is
    the first name of [fpt, whisper, google, azure] naming such an entry, or no
    name of that order does and [n] is the first such entry of the registry.
    Whenever some entry survives the filters, a provider is returned. *)
Theorem getBestSTTService_selects (env : Env) (language : option string)
    (fileSize duration : option Q) :
  (∀ n, getBestSTTService env language fileSize duration = Returned n
        ↔ selects (sttServices env) (default "auto" language)
                  (default 0%Q fileSize) (default 0%Q duration) n) ∧
  ((∃ p, survivor (sttServices env) (default "auto" language)
                  (default 0%Q fileSize) (default 0%Q duration) p) →
   ∃ n, getBestSTTService env language fileSize duration = Returned n).
Proof.
  split.
  - intros n. apply selectFrom_selects, sttServices_positiveCeilings.
  - intros [p Hp]. unfold getBestSTTService.
    destruct (selectFrom _ _ _ _) as [n | message] eqn:Hs; [now exists n |].
    apply selectFrom_throws in Hs as [_ Hno]; [| apply sttServices_positiveCeilings].
    destruct (Hno p Hp).
Qed.

(** C8, as the code has it. When no registry entry survives the filters,
    [getBestSTTService] throws a plain error whose message is always
    ['No suitable STT service available for the given requirements'], whatever
    filter removed the candidates; it throws in no other case. *)
Theorem getBestSTTService_throws (env : Env) (language : option string)
    (fileSize duration : option Q) (message : string) :
  getBestSTTService env language fileSize duration = Thrown message
  ↔ message = noSuitableMessage ∧
    ∀ n, ¬ survivor (sttServices env) (default "auto" language)
                    (default 0%Q fileSize) (default 0%Q duration) n.
Proof. apply selectFrom_throws, sttServices_positiveCeilings. Qed.

Lemma getBestSTTService_selects_witness :
  getBestSTTService allEnabled (Some "vi-VN") (Some 1000%Q) (Some 60%Q) = Returned "fpt" ∧
  selects (sttServices allEnabled) "vi-VN" 1000%Q 60%Q "fpt" ∧
  ∃ n, getBestSTTService allEnabled (Some "vi-VN") (Some 1000%Q) (Some 60%Q) = Returned n.
Proof.
  pose proof (getBestSTTService_selects allEnabled (Some "vi-VN") (Some 1000%Q) (Some 60%Q))
    as [Hiff Htotal].
  split; [reflexivity |]. split.
  - apply Hiff. reflexivity.
  - apply Htotal. exists "fpt", (fpt allEnabled). split; [now left |].
    split; [reflexivity |]. split; [left; now left |].
    split; apply Qle_bool_iff; reflexivity.
Defined.

(** C8 as stated fails: with only FPT enabled, an unsupported language, a file
    over the size ceiling and a recording over the duration ceiling raise the
    very same error, so nothing read off the error tells the three apart. *)
Lemma noSuitable_reason_not_carried :
  ¬ ∃ reasonOf : outcome string → FilterReason,
      reasonOf (getBestSTTService onlyFPT (Some "fr") (Some 0%Q) (Some 0%Q))
        = UnsupportedLanguage ∧
      reasonOf (getBestSTTService onlyFPT (Some "vi-VN") (Some (200 * MB)%Q) (Some 0%Q))
        = FileTooLarge ∧
      reasonOf (getBestSTTService onlyFPT (Some "vi-VN") (Some 0%Q) (Some 4000%Q))
        = DurationTooLong.
Proof.
  intros (reasonOf & H1 & H2 & _).
  change (getBestSTTService onlyFPT (Some "fr") (Some 0%Q) (Some 0%Q))
    with (@Thrown string noSuitableMessage) in H1.
  change (getBestSTTService onlyFPT (Some "vi-VN") (Some (200 * MB)%Q) (Some 0%Q))
    with (@Thrown string noSuitableMessage) in H2.
  congruence.
Qed.

Lemma getBestSTTService_throws_witness :
  getBestSTTService onlyFPT (Some "fr") None None = Thrown noSuitableMessage ∧
  ¬ survivor (sttServices onlyFPT) "fr" 0%Q 0%Q "fpt".
Proof.
  split; [reflexivity |].
  apply (proj1 (getBestSTTService_throws onlyFPT (Some "fr") None None noSuitableMessage)
               eq_refl).
Defined.

End Selection.

(** ** Text cleaning *)

Section Cleaning.
Import JS SpeechToTextService CleaningSpec.

Lemma is_space_SPACE : is_space SPACE = true.
Proof. reflexivity. Qed.

Lemma kept_SPACE : kept SPACE = true.
Proof. reflexivity. Qed.

Lemma collapse_tidy (b : bool) (s : ustring) : tidy b (collapse b s) = true.
Proof.
  revert b. induction s as [| c rest IH]; intros b; [reflexivity |].
  cbn [collapse]. destruct (is_space c) eqn:Hc.
  - destruct b; [apply IH |]. cbn [tidy]. rewrite is_space_SPACE, N.eqb_refl. apply IH.
  - cbn [tidy]. rewrite Hc. apply IH.
Qed.

Lemma tidy_collapse (b : bool) (s : ustring) : tidy b s = true → collapse b s = s.
Proof.
  revert b. induction s as [| c rest IH]; intros b; [reflexivity |].
  cbn [tidy collapse]. destruct (is_space c).
  - rewrite !andb_true_iff, negb_true_iff. intros [[Hc ->] Hrest].
    apply N.eqb_eq in Hc. subst c. f_equal. now apply IH.
  - intros H. f_equal. now apply IH.
Qed.

Lemma tidy_weaken (b : bool) (s : ustring) : tidy b s = true → tidy false s = true.
Proof.
  destruct s as [| c rest]; [reflexivity |]. cbn [tidy].
  destruct (is_space c); [| tauto].
  intros H. apply andb_true_iff in H as [H Hrest]. apply andb_true_iff in H as [Hc _].
  now rewrite Hc, Hrest.
Qed.

Lemma tidy_trimStart (b : bool) (s : ustring) :
  tidy b s = true → tidy false (trimStart s) = true.
Proof.
  revert b. induction s as [| c rest IH]; intros b; [reflexivity |].
  cbn [trimStart]. destruct (is_space c) eqn:Hc.
  - cbn [tidy]. rewrite Hc, !andb_true_iff. intros [_ H]. now apply (IH true).
  - apply tidy_weaken.
Qed.

Lemma tidy_trimEnd (b : bool) (s : ustring) :
  tidy b s = true → tidy b (trimEnd s) = true.
Proof.
  revert b. induction s as [| c rest IH]; intros b; [reflexivity |].
  cbn [trimEnd tidy]. destruct (is_space c) eqn:Hc.
  - rewrite !andb_true_iff. intros [[Heq Hb] Hrest].
    specialize (IH true Hrest). destruct (trimEnd rest) as [| c' rest']; [reflexivity |].
    cbn [tidy] in IH |- *. rewrite Hc, Heq, Hb. exact IH.
  - intros Hrest. specialize (IH false Hrest).
    destruct (trimEnd rest) as [| c' rest'].
    + cbn [tidy]. now rewrite Hc.
    + cbn [tidy] in IH |- *. now rewrite Hc.
Qed.

Lemma startsClean_trimStart (s : ustring) : startsClean (trimStart s) = true.
Proof.
  induction s as [| c rest IH]; [reflexivity |]. cbn [trimStart].
  destruct (is_space c) eqn:Hc; [exact IH |]. cbn. now rewrite Hc.
Qed.

Lemma trimStart_startsClean (s : ustring) : startsClean s = true → trimStart s = s.
Proof.
  destruct s as [| c rest]; [reflexivity |]. cbn. now intros ->%negb_true_iff.
Qed.

Lemma startsClean_trimEnd (s : ustring) :
  startsClean s = true → startsClean (trimEnd s) = true.
Proof.
  destruct s as [| c rest]; [reflexivity |]. cbn [startsClean trimEnd].
  intros Hc. destruct (trimEnd rest); [| exact Hc].
  apply negb_true_iff in Hc. rewrite Hc. cbn. now rewrite Hc.
Qed.

Lemma trimEnd_trimEnd (s : ustring) : trimEnd (trimEnd s) = trimEnd s.
Proof.
  induction s as [| c rest IH]; [reflexivity |]. cbn [trimEnd].
  destruct (trimEnd rest) as [| c' rest'] eqn:Hr.
  - destruct (is_space c) eqn:Hc; [reflexivity |]. cbn [trimEnd]. now rewrite Hc.
  - change (trimEnd (c :: c' :: rest'))
      with (match trimEnd (c' :: rest') with
            | [] => if is_space c then [] else [c]
            | x :: r => c :: x :: r
            end).
    now rewrite IH.
Qed.

Lemma trim_trim (s : ustring) : trim (trim s) = trim s.
Proof.
  unfold trim. rewrite (trimStart_startsClean (trimEnd (trimStart s))).
  - apply trimEnd_trimEnd.
  - apply startsClean_trimEnd, startsClean_trimStart.
Qed.

Lemma allKept_trimStart (s : ustring) : allKept s → allKept (trimStart s).
Proof.
  unfold allKept. induction 1 as [| c rest Hc Hrest IH]; [constructor |].
  cbn [trimStart]. destruct (is_space c); [exact IH | now constructor].
Qed.

Lemma allKept_trimEnd (s : ustring) : allKept s → allKept (trimEnd s).
Proof.
  unfold allKept. induction 1 as [| c rest Hc Hrest IH]; [constructor |].
  cbn [trimEnd]. destruct (trimEnd rest) as [| c' rest'].
  - destruct (is_space c); [constructor | now repeat constructor].
  - now constructor.
Qed.

Lemma allKept_collapse (b : bool) (s : ustring) : allKept s → allKept (collapse b s).
Proof.
  unfold allKept. intros H. revert b.
  induction H as [| c rest Hc Hrest IH]; intros b; [constructor |].
  cbn [collapse]. destruct (is_space c).
  - destruct b; [apply IH |]. constructor; [apply kept_SPACE | apply IH].
  - constructor; [exact Hc | apply IH].
Qed.

Lemma removeSpecial_allKept (s : ustring) : allKept s → removeSpecial s = s.
Proof.
  unfold allKept, removeSpecial. induction 1 as [| c rest Hc Hrest IH]; [reflexivity |].
  cbn [List.filter]. now rewrite Hc, IH.
Qed.

Lemma allKept_removeSpecial (s : ustring) : allKept (removeSpecial s).
Proof.
  unfold allKept, removeSpecial. apply List.Forall_forall. intros c Hc.
  now apply filter_In in Hc.
Qed.

Lemma allKept_clean (s : ustring) : allKept (cleanTranscriptText s).
Proof.
  unfold cleanTranscriptText, trim.
  apply allKept_trimEnd, allKept_trimStart, allKept_removeSpecial.
Qed.

(** Cleaning a text in which nothing is removed only collapses and trims it;
    the outcome is a fixed point of all three steps. *)
Lemma clean_fixed (s : ustring) :
  allKept s → cleanTranscriptText (cleanTranscriptText s) = cleanTranscriptText s.
Proof.
  intros Hs.
  assert (Hc : cleanTranscriptText s = trim (collapseWhitespace s)).
  { unfold cleanTranscriptText. f_equal. apply removeSpecial_allKept.
    now apply allKept_collapse. }
  rewrite Hc. set (t := trim (collapseWhitespace s)).
  assert (Htidy : tidy false t = true).
  { apply tidy_trimEnd, (tidy_trimStart false), collapse_tidy. }
  assert (Hkept : allKept t).
  { apply allKept_trimEnd, allKept_trimStart. now apply allKept_collapse. }
  unfold cleanTranscriptText, collapseWhitespace.
  rewrite (tidy_collapse false t Htidy), (removeSpecial_allKept t Hkept).
  apply trim_trim.
Qed.

(** C10, as the code has it. [cleanTranscriptText] is idempotent on every text
    whose characters are all word characters, whitespace or punctuation (so that
    the removal step deletes nothing); on an arbitrary text the result of a
    first cleaning is such a text, hence cleaning is stable from the second
    application on. *)
Theorem cleanTranscriptText_idempotent_when_kept (s : ustring) :
  (allKept s → cleanTranscriptText (cleanTranscriptText s) = cleanTranscriptText s) ∧
  cleanTranscriptText (cleanTranscriptText (cleanTranscriptText s))
  = cleanTranscriptText (cleanTranscriptText s).
Proof.
  split; [apply clean_fixed |]. apply clean_fixed, allKept_clean.
Qed.

Lemma cleanTranscriptText_idempotent_when_kept_witness :
  allKept (lit "  Hello,   world! ") ∧
  cleanTranscriptText (cleanTranscriptText (lit "  Hello,   world! "))
  = cleanTranscriptText (lit "  Hello,   world! ").
Proof.
  assert (H : allKept (lit "  Hello,   world! "))
    by (unfold allKept; cbn; repeat constructor).
  split; [exact H |].
  exact (proj1 (cleanTranscriptText_idempotent_when_kept (lit "  Hello,   world! ")) H).
Defined.

(** C10 as stated fails: removing the [+] of ["a + b"] leaves two adjacent
    spaces, which only a second cleaning collapses. *)
Lemma cleanTranscriptText_not_idempotent :
  cleanTranscriptText (lit "a + b") = lit "a  b" ∧
  cleanTranscriptText (cleanTranscriptText (lit "a + b")) = lit "a b" ∧
  cleanTranscriptText (cleanTranscriptText (lit "a + b")) ≠ cleanTranscriptText (lit "a + b").
Proof. repeat split. vm_compute. discriminate. Qed.

End Cleaning.

(** ** Paragraph breaks *)

Section ParagraphBreaks.
Import JS SpeechToTextService PostProcessSpec.
Local Open Scope Q_scope.

Lemma lookup_middle (pre : list Segment) (c : Segment) (rest : list Segment) :
  (pre ++ c :: rest) !! length pre = Some c.
Proof. induction pre as [| x pre IH]; [reflexivity | exact IH]. Qed.

Lemma lookup_after (pre : list Segment) (c : Segment) (rest : list Segment) :
  (pre ++ c :: rest) !! (length pre + 1)%nat = rest !! 0%nat.
Proof. induction pre as [| x pre IH]; [reflexivity | exact IH]. Qed.

(** The loop started at index [length pre] with [length rest] iterations left. *)
Lemma addParagraphBreaks_loop_spec (threshold : Q) (rest pre acc : list Segment) :
  addParagraphBreaks_loop (pre ++ rest) threshold (length rest) (length pre) acc
  = acc ++ insertBreaks threshold (length pre) rest.
Proof.
  revert pre acc. induction rest as [| c rest IH]; intros pre acc.
  - cbn. now rewrite app_nil_r.
  - cbn [length addParagraphBreaks_loop insertBreaks].
    rewrite lookup_middle, lookup_after.
    replace (pre ++ c :: rest) with ((pre ++ [c]) ++ rest) by now rewrite <- app_assoc.
    replace (S (length pre)) with (length (pre ++ [c]))
      by (rewrite length_app; cbn; lia).
    rewrite IH. destruct rest as [| next rest']; cbn [lookup list_lookup].
    + now rewrite <- app_assoc.
    + destruct (ltb threshold (startTime next - endTime c));
        now rewrite <- !app_assoc.
Qed.

Lemma ltb_lt (x y : Q) : ltb x y = true ↔ x < y.
Proof.
  unfold ltb. rewrite negb_true_iff. split.
  - intros H. apply Qnot_le_lt. intros Hle. apply Qle_bool_iff in Hle. congruence.
  - intros H. destruct (Qle_bool y x) eqn:Hle; [| reflexivity].
    apply Qle_bool_iff in Hle. exfalso. exact (Qlt_not_le _ _ H Hle).
Qed.

(** Where an adjacent pair of the input ends up in the output. *)
Lemma insertBreaks_pair (threshold : Q) (segments : list Segment) (j i : nat) current next :
  segments !! i = Some current → segments !! S i = Some next →
  ∃ k, insertBreaks threshold j segments !! k = Some current ∧
       if ltb threshold (startTime next - endTime current)
       then insertBreaks threshold j segments !! S k
              = Some (paragraphBreak (j + i) current next) ∧
            insertBreaks threshold j segments !! S (S k) = Some next
       else insertBreaks threshold j segments !! S k = Some next.
Proof.
  revert segments j. induction i as [| i IH]; intros segments j Hc Hn.
  - destruct segments as [| c [| n rest]]; try discriminate.
    cbn in Hc, Hn. injection Hc as ->. injection Hn as ->.
    exists 0%nat. rewrite Nat.add_0_r. cbn [insertBreaks].
    destruct (ltb threshold (startTime next - endTime current)); cbn.
    + repeat split.
    + repeat split.
  - destruct segments as [| x rest]; [discriminate |].
    cbn in Hc, Hn. destruct (IH rest (S j) Hc Hn) as (k & Hk & Hrest).
    replace (j + S i)%nat with (S j + i)%nat by lia.
    cbn [insertBreaks].
    set (gap := match rest with
                | [] => []
                | n :: _ => if ltb threshold (startTime n - endTime x)
                            then [paragraphBreak j x n] else []
                end).
    assert (Hshift : ∀ m, (x :: gap ++ insertBreaks threshold (S j) rest)
                             !! S (length gap + m)
                          = insertBreaks threshold (S j) rest !! m).
    { intros m.
      change ((gap ++ insertBreaks threshold (S j) rest) !! (length gap + m)%nat
              = insertBreaks threshold (S j) rest !! m).
      rewrite lookup_app_r by lia. f_equal. lia. }
    exists (S (length gap + k)). rewrite Hshift. split; [exact Hk |].
    replace (S (S (length gap + k))) with (S (length gap + S k)) by lia.
    replace (S (S (length gap + S k))) with (S (length gap + S (S k))) by lia.
    rewrite !Hshift. exact Hrest.
Qed.

(** C7, as the code has it. [addParagraphBreaks] copies the segments in order
    and, after each segment whose successor starts more than the threshold
    (3 seconds unless given) after it ends, inserts one marker; no marker is
    inserted for any other pair or after the last segment. So an adjacent pair
    whose gap exceeds the threshold appears in the output with its marker in
    between, and a pair whose gap does not exceed it appears adjacent. The
    marker for the pair at index [i] has type [paragraph_break], starts at the
    end of the current segment, ends at the start of the next one, and its
    text is the two-newline string. *)
Theorem addParagraphBreaks_spec (segments : list Segment) (silenceThreshold : option Q) :
  let threshold := default 3 silenceThreshold in
  let output := addParagraphBreaks segments silenceThreshold in
  output = insertBreaks threshold 0 segments ∧
  (∀ i current next,
     segments !! i = Some current → segments !! S i = Some next →
     (threshold < startTime next - endTime current →
      ∃ k, output !! k = Some current ∧
           output !! S k = Some (paragraphBreak i current next) ∧
           output !! S (S k) = Some next) ∧
     (¬ threshold < startTime next - endTime current →
      ∃ k, output !! k = Some current ∧ output !! S k = Some next)) ∧
  ∀ i current next,
    let marker := paragraphBreak i current next in
    type marker = Some "paragraph_break" ∧
    startTime marker = endTime current ∧
    endTime marker = startTime next ∧
    text marker = [10; 10]%N ∧
    id marker = BreakId i.
Proof.
  intros threshold output.
  assert (Hout : output = insertBreaks threshold 0 segments).
  { subst output threshold. unfold addParagraphBreaks.
    apply (addParagraphBreaks_loop_spec (default 3 silenceThreshold) segments [] []). }
  split; [exact Hout |]. split; [| now intros i current next].
  intros i current next Hc Hn. rewrite Hout.
  destruct (insertBreaks_pair threshold segments 0 i current next Hc Hn) as (k & Hk & Hrest).
  cbn [Nat.add] in Hrest.
  destruct (ltb threshold (startTime next - endTime current)) eqn:Hgap.
  - split; [intros _; exists k; now split |].
    intros Hno. apply ltb_lt in Hgap. contradiction.
  - split; [| intros _; exists k; now split].
    intros Hyes. apply ltb_lt in Hyes. congruence.
Qed.

Lemma addParagraphBreaks_spec_witness :
  (3 < 10 - 1) ∧
  ∃ k, addParagraphBreaks farApart None !! k = Some (plain 0 0 1 "hello" (9 # 10)) ∧
       addParagraphBreaks farApart None !! S k
       = Some (paragraphBreak 0 (plain 0 0 1 "hello" (9 # 10))
                              (plain 1 10 11 "world" (9 # 10))) ∧
       addParagraphBreaks farApart None !! S (S k) = Some (plain 1 10 11 "world" (9 # 10)).
Proof.
  assert (Hgap : 3 < 10 - 1) by reflexivity.
  split; [exact Hgap |].
  exact (proj1 (proj1 (proj2 (addParagraphBreaks_spec farApart None))
                      0%nat (plain 0 0 1 "hello" (9 # 10)) (plain 1 10 11 "world" (9 # 10))
                      eq_refl eq_refl) Hgap).
Defined.

(** C7 as stated fails on the marker's text: between two segments ten seconds
    apart the marker is inserted with the text of two newline characters, not
    with no text. *)
Lemma paragraphBreak_carries_text :
  addParagraphBreaks farApart None
  = [plain 0 0 1 "hello" (9 # 10);
     paragraphBreak 0 (plain 0 0 1 "hello" (9 # 10)) (plain 1 10 11 "world" (9 # 10));
     plain 1 10 11 "world" (9 # 10)] ∧
  (text <$> addParagraphBreaks farApart None !! 1%nat) = Some [10; 10]%N ∧
  (text <$> addParagraphBreaks farApart None !! 1%nat) ≠ Some [].
Proof. repeat split. discriminate. Qed.

End ParagraphBreaks.

(** ** Merging short segments *)

Section Merging.
Import JS SpeechToTextService PostProcessSpec.
Local Open Scope Q_scope.

Lemma join_absorb (sep p q : ustring) (rest : list ustring) :
  join sep ((p ++ sep ++ q) :: rest) = join sep (p :: q :: rest).
Proof.
  destruct rest as [| r rest]; [reflexivity |].
  cbn [join]. now rewrite <- !app_assoc.
Qed.

Lemma last_absorb (l : list Segment) (a s : Segment) :
  endTime (List.last l (absorb a s)) = endTime (List.last l s).
Proof.
  induction l as [| x l IH]; [reflexivity |].
  destruct l as [| y l]; [reflexivity | exact IH].
Qed.

Lemma last_cons (l : list Segment) (s d : Segment) :
  List.last (s :: l) d = List.last l s.
Proof.
  revert s d. induction l as [| x l IH]; intros s d; [reflexivity |].
  change (List.last (s :: x :: l) d) with (List.last (x :: l) d).
  now rewrite (IH x d), (IH x s).
Qed.

Lemma coalesced_absorb (first s : Segment) (more : list Segment) :
  coalesced (absorb first s) more = coalesced first (s :: more).
Proof.
  unfold coalesced. f_equal.
  - cbn [List.map absorb text]. apply join_absorb.
  - now rewrite last_absorb, last_cons.
Qed.

Lemma fold_absorb (more : list Segment) (first : Segment) :
  fold_left absorb more first = coalesced first more.
Proof.
  revert first. induction more as [| s more IH]; intros first.
  - now destruct first.
  - cbn [fold_left]. rewrite IH. apply coalesced_absorb.
Qed.

Lemma fold_short (minDuration : Q) (run acc : list Segment) (cm : option Segment) :
  Forall (fun s => isShort minDuration s = true) run →
  fold_left (mergeStep minDuration) run (acc, cm) = (acc, absorbAll cm run).
Proof.
  intros Hrun. revert cm. induction Hrun as [| s run Hs Hrun IH]; intros cm.
  - now destruct cm.
  - cbn [fold_left mergeStep]. rewrite Hs. destruct cm as [c |]; rewrite IH; reflexivity.
Qed.

Lemma mergeFinish_acc (minDuration : Q) (l acc : list Segment) (cm : option Segment) :
  mergeFinish (fold_left (mergeStep minDuration) l (acc, cm))
  = acc ++ mergeFinish (fold_left (mergeStep minDuration) l ([], cm)).
Proof.
  revert acc cm. induction l as [| s l IH]; intros acc cm.
  - destruct cm; cbn; [reflexivity | now rewrite app_nil_r].
  - cbn [fold_left mergeStep]. destruct (isShort minDuration s).
    + destruct cm; apply IH.
    + destruct cm as [c |]; rewrite IH; symmetry; rewrite IH; cbn [app];
        now rewrite <- !app_assoc.
Qed.

Lemma absorbAll_closeRun (run : list Segment) :
  match absorbAll None run with Some c => [c] | None => [] end = closeRun run.
Proof. destruct run as [| first more]; [reflexivity |]. cbn. now rewrite fold_absorb. Qed.

Lemma merge_run (minDuration : Q) (run : list Segment) :
  Forall (fun s => isShort minDuration s = true) run →
  mergeFinish (fold_left (mergeStep minDuration) run ([], None)) = closeRun run.
Proof.
  intros Hrun. rewrite fold_short by exact Hrun. rewrite <- absorbAll_closeRun.
  now destruct (absorbAll None run).
Qed.

Lemma merge_run_then (minDuration : Q) (run : list Segment) (s : Segment)
    (rest : list Segment) :
  Forall (fun s => isShort minDuration s = true) run →
  isShort minDuration s = false →
  mergeFinish (fold_left (mergeStep minDuration) (run ++ s :: rest) ([], None))
  = closeRun run ++ s :: mergeFinish (fold_left (mergeStep minDuration) rest ([], None)).
Proof.
  intros Hrun Hs. rewrite fold_left_app, fold_short by exact Hrun.
  cbn [fold_left mergeStep]. rewrite Hs, <- absorbAll_closeRun.
  destruct (absorbAll None run) as [c |]; rewrite mergeFinish_acc; reflexivity.
Qed.

Lemma isParagraphBreak_spec (s : Segment) :
  isParagraphBreak s = true ↔ type s = Some "paragraph_break".
Proof.
  unfold isParagraphBreak. destruct (type s) as [t |]; [| split; discriminate].
  rewrite String.eqb_eq. split; [now intros -> | now intros [= ->]].
Qed.

Lemma isShort_spec (minDuration : Q) (s : Segment) :
  isShort minDuration s = true
  ↔ endTime s - startTime s < minDuration ∧ type s ≠ Some "paragraph_break".
Proof.
  unfold isShort. rewrite andb_true_iff, ltb_lt, negb_true_iff, <- isParagraphBreak_spec.
  destruct (isParagraphBreak s); intuition congruence.
Qed.

(** C4, as the code has it. With the threshold [minDuration] (2 seconds unless
    given), a segment is short when it lasts strictly less than the threshold
    and is not a paragraph-break marker. A run of consecutive short segments is
    coalesced into one segment: the texts joined by single spaces, the end time
    of the last one, the confidence averaged pairwise from left to right, id,
    start time, speaker and words of the first. A segment that is not short
    closes the run before it and is copied unchanged, and merging starts afresh
    after it. In example scenario D the first segment lasts exactly one second,
    so with threshold 1 it is copied and only the two half-second segments
    merge: the result is [{0,1,"a"}, {1,2,"b c"}]. *)
Theorem mergeShortSegments_spec (minDuration : option Q) :
  let threshold := default 2 minDuration in
  (∀ s, isShort threshold s = true
        ↔ endTime s - startTime s < threshold ∧ type s ≠ Some "paragraph_break") ∧
  (∀ run, Forall (fun s => isShort threshold s = true) run →
          mergeShortSegments run minDuration = closeRun run) ∧
  (∀ run s rest,
     Forall (fun s => isShort threshold s = true) run →
     isShort threshold s = false →
     mergeShortSegments (run ++ s :: rest) minDuration
     = closeRun run ++ s :: mergeShortSegments rest minDuration) ∧
  List.map shape (mergeShortSegments scenarioD (Some 1))
  = [(0, 1, lit "a"); (1, 2, lit "b c")].
Proof.
  intros threshold. split; [apply isShort_spec |]. split; [| split].
  - intros run Hrun. now apply merge_run.
  - intros run s rest Hrun Hs. now apply merge_run_then.
  - reflexivity.
Qed.

Lemma mergeShortSegments_spec_witness :
  Forall (fun s => isShort 1 s = true)
         [plain 1 1 (3 # 2) "b" (4 # 5); plain 2 (3 # 2) 2 "c" (1 # 2)] ∧
  isShort 1 (plain 0 0 1 "a" (9 # 10)) = false ∧
  mergeShortSegments scenarioD (Some 1)
  = plain 0 0 1 "a" (9 # 10)
    :: closeRun [plain 1 1 (3 # 2) "b" (4 # 5); plain 2 (3 # 2) 2 "c" (1 # 2)].
Proof.
  assert (Hrun : Forall (fun s => isShort 1 s = true)
                        [plain 1 1 (3 # 2) "b" (4 # 5); plain 2 (3 # 2) 2 "c" (1 # 2)])
    by (repeat constructor).
  assert (Hlong : isShort 1 (plain 0 0 1 "a" (9 # 10)) = false) by reflexivity.
  split; [exact Hrun |]. split; [exact Hlong |].
  destruct (mergeShortSegments_spec (Some 1)) as (_ & Hclose & Hthen & _).
  rewrite <- (Hclose _ Hrun).
  exact (Hthen [] (plain 0 0 1 "a" (9 # 10))
               [plain 1 1 (3 # 2) "b" (4 # 5); plain 2 (3 # 2) 2 "c" (1 # 2)]
               (List.Forall_nil _) Hlong).
Defined.

(** C4 as stated fails on its example: scenario D does not merge into the single
    segment [{0,2,"a b c"}]; two segments come out. *)
Lemma scenarioD_not_single :
  length (mergeShortSegments scenarioD (Some 1)) = 2%nat ∧
  List.map shape (mergeShortSegments scenarioD (Some 1)) ≠ [(0, 2, lit "a b c")].
Proof. split; [reflexivity | discriminate]. Qed.

End Merging.

(** ** The post-processing pipeline *)

Section Pipeline.
Import JS SpeechToTextService PostProcessSpec.
Local Open Scope Q_scope.

Lemma absorb_not_break (cm s : Segment) :
  isParagraphBreak (absorb cm s) = isParagraphBreak cm.
Proof. reflexivity. Qed.

Lemma isShort_not_break (minDuration : Q) (s : Segment) :
  isShort minDuration s = true → isParagraphBreak s = false.
Proof. unfold isShort. rewrite andb_true_iff, negb_true_iff. tauto. Qed.

(** Merging neither drops nor alters nor creates a paragraph-break marker. *)
Lemma merge_keeps_breaks (minDuration : Q) (l acc : list Segment) (cm : option Segment) :
  match cm with Some c => isParagraphBreak c = false | None => True end →
  List.filter isParagraphBreak
    (mergeFinish (fold_left (mergeStep minDuration) l (acc, cm)))
  = List.filter isParagraphBreak acc ++ List.filter isParagraphBreak l.
Proof.
  revert acc cm. induction l as [| s l IH]; intros acc cm Hcm.
  - destruct cm as [c |]; cbn [fold_left mergeFinish List.filter].
    + rewrite List.filter_app. cbn [List.filter]. now rewrite Hcm.
    + now rewrite app_nil_r.
  - cbn [fold_left mergeStep]. destruct (isShort minDuration s) eqn:Hs.
    + apply isShort_not_break in Hs. cbn [List.filter]. rewrite Hs.
      destruct cm as [c |]; apply IH; [now rewrite absorb_not_break | exact Hs].
    + destruct cm as [c |]; rewrite IH by exact I;
        rewrite !List.filter_app; cbn [List.filter app].
      * rewrite Hcm, app_nil_r.
        destruct (isParagraphBreak s); now rewrite <- app_assoc.
      * destruct (isParagraphBreak s); now rewrite <- app_assoc.
Qed.

(** C6, as the code has it. [postProcessTranscription] applies its steps in the
    order: clean each segment's text (and rebuild the full text from the cleaned
    segments), insert paragraph breaks, merge short segments, add punctuation
    (which changes nothing); each step is skipped when its option is [false],
    and no metrics are computed. Paragraph-break insertion therefore comes
    before short-segment merging, and merging leaves the inserted markers
    untouched. *)
Theorem postProcessTranscription_order (result : TranscriptionResult)
    (options : PostProcessOptions) :
  r_segments (postProcessTranscription result options)
  = stagesOf options (r_segments result) ∧
  r_segments (postProcessTranscription result defaultOptions)
  = mergeShortSegments
      (addParagraphBreaks (List.map cleanSegment (r_segments result)) None) None ∧
  r_text (postProcessTranscription result defaultOptions)
  = join [SPACE] (List.map (fun s => cleanTranscriptText (text s)) (r_segments result)) ∧
  List.filter isParagraphBreak (r_segments (postProcessTranscription result defaultOptions))
  = List.filter isParagraphBreak
      (addParagraphBreaks (List.map cleanSegment (r_segments result)) None).
Proof.
  split; [| split; [| split]].
  - unfold postProcessTranscription, stagesOf, addPunctuation.
    destruct (not_false (cleanText options)), (not_false (addParagraphs options)),
      (not_false (opt_mergeShortSegments options)),
      (not_false (opt_addPunctuation options)); reflexivity.
  - reflexivity.
  - cbn. now rewrite List.map_map.
  - cbn. unfold mergeShortSegments. now rewrite merge_keeps_breaks.
Qed.

(** C6 as stated fails: on two one-second utterances nine seconds apart the
    code keeps both and puts a marker between them, whereas merging before
    inserting breaks would fuse them into one segment and insert nothing. *)
Lemma breaks_inserted_before_merge :
  List.map shape (r_segments (postProcessTranscription (resultOf farApart) defaultOptions))
  = [(0, 1, lit "hello"); (1, 10, [10; 10]%N); (10, 11, lit "world")] ∧
  List.map shape (specifiedOrder farApart) = [(0, 11, lit "hello world")] ∧
  r_segments (postProcessTranscription (resultOf farApart) defaultOptions)
  ≠ specifiedOrder farApart.
Proof. repeat split. vm_compute. discriminate. Qed.

End Pipeline.

(** ** Confidence of parsed segments *)

Section Parsers.
Import JS SpeechToTextService ParserSpec.
Local Open Scope Q_scope.

Lemma num_or_present (x d : Q) : ¬ x == 0 → num_or (Some x) d = x.
Proof.
  intros Hx. unfold num_or, truthy. destruct (Qeq_bool x 0) eqn:He; [| reflexivity].
  apply Qeq_bool_iff in He. contradiction.
Qed.

(** Where a segment of [parseGoogleResponse] comes from. *)
Lemma parseGoogleResponse_In (response : GoogleResponse) (s : GoogleSegment) :
  In s (parseGoogleResponse response) →
  ∃ rs i result, results response = Some rs ∧ rs !! i = Some result ∧
                 googleSegment i result = [s].
Proof.
  unfold parseGoogleResponse. destruct (results response) as [rs |]; [| intros []].
  intros Hin. apply in_concat in Hin as (l & Hl & Hs).
  apply list_elem_of_In, elem_of_lookup_imap in Hl as (i & result & -> & Hi).
  exists rs, i, result. split; [reflexivity |]. split; [exact Hi |].
  unfold googleSegment in *. destruct (alternatives result) as [[| a others] |];
    try contradiction.
  destruct Hs as [<- | []]. reflexivity.
Qed.

(** Each segment of the speaker-label branch of [parseAWSResponse] has the
    mean of its words' confidences. *)
Lemma awsSegments_confidence (parseFloat : string → option Q)
    (items : option (list AWSItem)) (labels : list AWSSpeakerSegment) (index : nat)
    (segs : list AWSSegment) (s : AWSSegment) :
  awsSegments parseFloat items index labels = Returned segs → In s segs →
  ∃ firsts, firstAlternatives (awss_words s) = Returned firsts ∧
            awss_confidence s = meanConfidence parseFloat firsts.
Proof.
  revert index segs. induction labels as [| segment rest IH]; intros index segs.
  - intros [= <-] [].
  - cbn [awsSegments].
    destruct (awsSegment parseFloat items index segment) as [s0 | e] eqn:Hs0; [| discriminate].
    destruct (awsSegments parseFloat items (S index) rest) as [l | e] eqn:Hl; [| discriminate].
    intros [= <-] [<- | Hin]; [| exact (IH _ _ Hl Hin)].
    unfold awsSegment in Hs0. destruct items as [all |]; [| discriminate].
    destruct (firstAlternatives (within segment all)) as [firsts | e] eqn:Hf; [| discriminate].
    injection Hs0 as <-. exists firsts. split; [exact Hf | reflexivity].
Qed.

Lemma fold_addParsed (parseFloat : string → option Q) (firsts : list AWSAlternative)
    (cs : list Q) (a : Q) :
  Forall2 (fun alternative c => aws_confidence alternative ≫= parseFloat = Some c) firsts cs →
  fold_left (fun sum x => addParsed parseFloat sum (aws_confidence x)) firsts (Some a)
  = Some (fold_left Qplus cs a).
Proof.
  intros Hall. revert a. induction Hall as [| x c firsts cs Hx _ IH]; intros a; [reflexivity |].
  cbn [fold_left]. unfold addParsed at 2. rewrite Hx. apply IH.
Qed.

(** C5, as the code has it. [parseFPTResponse] gives the segment of an
    utterance the utterance's own confidence when it is present and not zero,
    and 0.5 when it is absent; for a hypothesis without an utterance list it
    produces one segment, with the confidence of the hypothesis when that is
    present and not zero, and 0.5 when it is absent. [parseWhisperResponse]
    never reads a confidence: it gives [Math.exp(avg_logprob)] when the
    log-probability is present and not zero, and 0.8 when it is absent or when
    the response has no segment list. [parseGoogleResponse] produces a segment
    for each result that has an alternative, with the confidence of the first
    alternative when it is present and not zero, and 0.5 when it is absent.
    [parseAzureResult] gives the confidence of the first [NBest] entry of the
    result's JSON detail, and 0.5 when there is no detail or it cannot be
    read. [parseAWSResponse] gives 0.8 to the one segment of a response without
    speaker labels, and to each segment of a response with speaker labels the
    mean of the confidences of the segment's words, each read with
    [parseFloat]. *)
Theorem parsed_confidence (Math_exp : Q → Q) (parseFloat : string → option Q) :
  (∀ data hypothesis others us i u,
     hypotheses data = Some (hypothesis :: others) →
     utterances hypothesis = Some us →
     us !! i = Some u →
     ∃ s, parseFPTResponse data !! i = Some s ∧
          (∀ c, u_confidence u = Some c → ¬ c == 0 → confidence s = c) ∧
          (u_confidence u = None → confidence s = 1 # 2)) ∧
  (∀ data hypothesis others,
     hypotheses data = Some (hypothesis :: others) →
     utterances hypothesis = None →
     ∃ s, parseFPTResponse data = [s] ∧
          (∀ c, h_confidence hypothesis = Some c → ¬ c == 0 → confidence s = c) ∧
          (h_confidence hypothesis = None → confidence s = 1 # 2)) ∧
  (∀ data ss i segment,
     w_segments data = Some ss →
     ss !! i = Some segment →
     ∃ s, parseWhisperResponse Math_exp data !! i = Some s ∧
          (∀ l, avg_logprob segment = Some l → ¬ l == 0 → confidence s = Math_exp l) ∧
          (avg_logprob segment = None → confidence s = 4 # 5)) ∧
  (∀ data, w_segments data = None →
           List.map confidence (parseWhisperResponse Math_exp data) = [4 # 5]) ∧
  (∀ response s,
     In s (parseGoogleResponse response) →
     ∃ rs result alternative others,
       results response = Some rs ∧ rs !! gs_id s = Some result ∧
       alternatives result = Some (alternative :: others) ∧
       (∀ c, ga_confidence alternative = Some c → ¬ c == 0 → gs_confidence s = c) ∧
       (ga_confidence alternative = None → gs_confidence s = 1 # 2)) ∧
  (∀ result,
     (∀ c others, json result = Some (Detailed (c :: others)) →
                  as_confidence (parseAzureResult result) = c) ∧
     (json result = None ∨ json result = Some Malformed ∨ json result = Some (Detailed []) →
      as_confidence (parseAzureResult result) = 1 # 2)) ∧
  (∀ data segs s,
     parseAWSResponse parseFloat data = Returned segs → In s segs →
     ∃ res, aws_results data = Some res ∧
       ((speaker_labels res = None ∧ segs = [s] ∧ awss_confidence s = Some (4 # 5)) ∨
        (speaker_labels res ≠ None ∧
         ∃ firsts, firstAlternatives (awss_words s) = Returned firsts ∧
                   awss_confidence s = meanConfidence parseFloat firsts ∧
                   ∀ cs, Forall2 (fun alternative c =>
                                    aws_confidence alternative ≫= parseFloat = Some c)
                                 firsts cs →
                         firsts ≠ [] →
                         awss_confidence s
                         = Some (fold_left Qplus cs 0
                                 / inject_Z (Z.of_nat (length cs)))))).
Proof.
  split; [| split; [| split; [| split; [| split; [| split]]]]].
  - intros data hypothesis others us i u Hh Hu Hi.
    unfold parseFPTResponse. rewrite Hh, Hu, list_lookup_imap, Hi. cbn [fmap option_fmap option_map].
    eexists. split; [reflexivity |]. cbn [confidence]. split.
    + intros c -> Hc. now apply num_or_present.
    + now intros ->.
  - intros data hypothesis others Hh Hu.
    unfold parseFPTResponse. rewrite Hh, Hu.
    eexists. split; [reflexivity |]. cbn [confidence]. split.
    + intros c -> Hc. now apply num_or_present.
    + now intros ->.
  - intros data ss i segment Hs Hi.
    unfold parseWhisperResponse. rewrite Hs, list_lookup_imap, Hi.
    cbn [fmap option_fmap option_map].
    eexists. split; [reflexivity |]. cbn [confidence]. unfold whisperConfidence. split.
    + intros l -> Hl. unfold truthy. destruct (Qeq_bool l 0) eqn:He; [| reflexivity].
      apply Qeq_bool_iff in He. contradiction.
    + now intros ->.
  - intros data Hs. unfold parseWhisperResponse. now rewrite Hs.
  - intros response s Hin.
    destruct (parseGoogleResponse_In response s Hin) as (rs & i & result & Hrs & Hi & Hs).
    unfold googleSegment in Hs.
    destruct (alternatives result) as [[| alternative others] |] eqn:Ha; try discriminate.
    injection Hs as <-. cbn [gs_id gs_confidence].
    exists rs, result, alternative, others.
    split; [exact Hrs |]. split; [exact Hi |]. split; [exact Ha |]. split.
    + intros c -> Hc. now apply num_or_present.
    + now intros ->.
  - intros result. unfold parseAzureResult, azureConfidence. split.
    + now intros c others ->.
    + now intros [-> | [-> | ->]].
  - intros data segs s. unfold parseAWSResponse.
    destruct (aws_results data) as [res |]; [| now intros [= <-] []].
    destruct (aws_transcripts res) as [ts |]; [| now intros [= <-] []].
    destruct (speaker_labels res) as [[speakerLabels |] |] eqn:Hlabels; try discriminate.
    + destruct (awsSegments parseFloat (aws_items res) 0 speakerLabels) as [l | e] eqn:Hl;
        [| discriminate].
      intros [= <-] Hin. exists res. split; [reflexivity |]. right. split; [congruence |].
      destruct (awsSegments_confidence _ _ _ _ _ _ Hl Hin) as (firsts & Hf & Hc).
      exists firsts. split; [exact Hf |]. split; [exact Hc |].
      intros cs Hall Hne. rewrite Hc. unfold meanConfidence.
      rewrite (fold_addParsed parseFloat firsts cs 0 Hall).
      rewrite (Forall2_length _ _ _ Hall).
      destruct firsts; [congruence | reflexivity].
    + destruct ts as [| transcript others]; [discriminate |].
      intros [= <-] [<- | []]. exists res. split; [reflexivity |]. left.
      repeat split. exact Hlabels.
Qed.

Lemma parsed_confidence_witness :
  (¬ (7 # 8) == 0) ∧
  (∃ s, parseFPTResponse (fptResponse [utterance "xin chao" (Some (7 # 8))]) !! 0%nat = Some s ∧
        confidence s = 7 # 8) ∧
  (∃ s, parseFPTResponse (fptPlain "xin chao" (Some (7 # 8))) = [s] ∧
        confidence s = 7 # 8).
Proof.
  assert (Hc : ¬ (7 # 8) == 0) by discriminate.
  split; [exact Hc |]. split.
  - destruct (proj1 (parsed_confidence (fun x => x) (fun _ => None))
                (fptResponse [utterance "xin chao" (Some (7 # 8))]) _ _ _ 0%nat
                (utterance "xin chao" (Some (7 # 8))) eq_refl eq_refl eq_refl)
      as (s & Hs & Hpresent & _).
    exists s. split; [exact Hs |]. exact (Hpresent (7 # 8) eq_refl Hc).
  - destruct (proj1 (proj2 (parsed_confidence (fun x => x) (fun _ => None)))
                (fptPlain "xin chao" (Some (7 # 8))) _ _ eq_refl eq_refl)
      as (s & Hs & Hpresent & _).
    exists s. split; [exact Hs |]. exact (Hpresent (7 # 8) eq_refl Hc).
Defined.

(** C5 as stated fails on the default: an FPT utterance without a confidence
    is given 0.5, not 0.8 (and so are an FPT hypothesis without utterances, a
    Google alternative without a confidence, and an Azure result without JSON
    detail). *)
Lemma absent_confidence_is_half :
  List.map confidence (parseFPTResponse (fptResponse [utterance "xin chao" None])) = [1 # 2] ∧
  List.map confidence (parseFPTResponse (fptPlain "xin chao" None)) = [1 # 2] ∧
  List.map gs_confidence
           (parseGoogleResponse {| results := Some [googleResult "hello" None] |}) = [1 # 2] ∧
  as_confidence (parseAzureResult
                   {| az_text := lit "hello"; offset := 0; duration := 10000000;
                      json := None |}) = 1 # 2 ∧
  ¬ (1 # 2) == (4 # 5).
Proof. repeat split. discriminate. Qed.

End Parsers.

(** ** Speaker statistics *)

Section SpeakerStatistics.
Import JS Transcript SpeakerSpec.
Local Open Scope Q_scope.

Lemma fold_accumulate_lookup (segs : list Segment) (m : gmap string Stats) (k : string) :
  inherited k = false →
  fold_left accumulate segs m !! k
  = match List.filter (spokenBy k) segs with
    | [] => m !! k
    | l => Some (addAll (default noStats (m !! k)) l)
    end.
Proof.
  intros Hk. revert m. induction segs as [| seg segs IH]; intros m; [reflexivity |].
  cbn [fold_left List.filter]. rewrite IH. unfold accumulate at 1 2, spokenBy at 2.
  cbv zeta.
  destruct (String.eqb_spec (sp_id (speaker seg)) k) as [Heq | Hne].
  - rewrite Heq, Hk. destruct (m !! k) as [stats |] eqn:Hm;
      rewrite lookup_insert_eq; cbn [default];
      destruct (List.filter _ segs); reflexivity.
  - destruct (m !! sp_id (speaker seg)) as [stats |];
      [| destruct (inherited (sp_id (speaker seg)))];
      rewrite ?lookup_insert_ne by exact Hne; reflexivity.
Qed.

(** No entry is ever made under the name of an inherited property. *)
Lemma fold_accumulate_inherited (segs : list Segment) (m : gmap string Stats) (k : string) :
  inherited k = true → m !! k = None → fold_left accumulate segs m !! k = None.
Proof.
  intros Hk. revert m. induction segs as [| seg segs IH]; intros m Hm; [exact Hm |].
  cbn [fold_left]. apply IH. unfold accumulate. cbv zeta.
  destruct (String.eqb_spec (sp_id (speaker seg)) k) as [Heq | Hne].
  - now rewrite Heq, Hm, Hk.
  - destruct (m !! sp_id (speaker seg)) as [stats |];
      [| destruct (inherited (sp_id (speaker seg)))];
      rewrite ?lookup_insert_ne by exact Hne; exact Hm.
Qed.

Lemma totalTime_addAll (l : list Segment) (st : Stats) :
  totalTime (addAll st l)
  = fold_left Qplus (List.map (fun s => endTime s - startTime s) l) (totalTime st).
Proof.
  revert st. induction l as [| s l IH]; intros st; [reflexivity |].
  unfold addAll in *. cbn [fold_left List.map]. now rewrite IH.
Qed.

(** [Math.round] moves a number by at most one half. *)
Lemma Math_round_near (x : Q) : Qabs (inject_Z (Math_round x) - x) <= 1 # 2.
Proof.
  unfold Math_round. apply Qabs_Qle_condition.
  pose proof (Qfloor_le (x + (1 # 2))) as Hle.
  pose proof (Qlt_floor (x + (1 # 2))) as Hlt.
  rewrite inject_Z_plus in Hlt.
  change (inject_Z 1) with 1 in Hlt.
  split; lra.
Qed.

Lemma applyStats_total (segs : list Segment) (sp : Speaker) :
  inherited (id sp) = false →
  totalSpeakingTime (applyStats (fold_left accumulate segs ∅) (resetSpeaker sp))
  = Some (inject_Z (Math_round (speakingTime segs (id sp)))).
Proof.
  intros Hk. unfold applyStats. cbn [resetSpeaker id].
  rewrite fold_accumulate_lookup by exact Hk. rewrite Hk.
  unfold speakingTime. destruct (List.filter (spokenBy (id sp)) segs) as [| s l] eqn:Hf.
  - rewrite lookup_empty. reflexivity.
  - cbn [totalSpeakingTime]. rewrite totalTime_addAll, lookup_empty. reflexivity.
Qed.

Lemma applyStats_id (stats : gmap string Stats) (sp : Speaker) :
  id (applyStats stats (resetSpeaker sp)) = id sp.
Proof.
  unfold applyStats. cbn [resetSpeaker id].
  destruct (stats !! id sp); [reflexivity |]. now destruct (inherited (id sp)).
Qed.

(** C9, as the code has it. After [updateSpeakerStatistics], every speaker of
    the transcript keeps its id, and every speaker whose id is not the name of
    a property that all objects inherit has [totalSpeakingTime] equal to
    [Math.round] of the sum of [endTime - startTime] over the segments whose
    speaker id is its own (0 when it has none): the total is that sum rounded
    to whole seconds, and so may differ from it by up to half a second. *)
Theorem updateSpeakerStatistics_total (content : Content)
    (segs : list Segment) (sps : list Speaker) :
  segments content = Some segs →
  speakers content = Some sps →
  ∃ sps', speakers (updateSpeakerStatistics content) = Some sps' ∧
          length sps' = length sps ∧
          ∀ i sp, sps !! i = Some sp →
            ∃ sp', sps' !! i = Some sp' ∧
                   id sp' = id sp ∧
                   (inherited (id sp) = false →
                    ∃ total, totalSpeakingTime sp' = Some total ∧
                             total = inject_Z (Math_round (speakingTime segs (id sp))) ∧
                             Qabs (total - speakingTime segs (id sp)) <= 1 # 2).
Proof.
  intros Hsegs Hsps. unfold updateSpeakerStatistics. rewrite Hsegs, Hsps.
  eexists. split; [reflexivity |]. split.
  - now rewrite !length_map.
  - intros i sp Hi. rewrite List.map_map.
    exists (applyStats (fold_left accumulate segs ∅) (resetSpeaker sp)).
    split; [| split; [apply applyStats_id |]].
    + change (List.map ?f sps) with (f <$> sps). now rewrite list_lookup_fmap, Hi.
    + intros Hk. eexists. split; [now apply applyStats_total |].
      split; [reflexivity | apply Math_round_near].
Qed.

Lemma updateSpeakerStatistics_total_witness :
  ∃ sps', speakers (updateSpeakerStatistics quarterSecond) = Some sps' ∧
          length sps' = 1%nat ∧
          ∃ sp', sps' !! 0%nat = Some sp' ∧ totalSpeakingTime sp' = Some 0.
Proof.
  destruct (updateSpeakerStatistics_total quarterSecond _ _ eq_refl eq_refl)
    as (sps' & Hsps & Hlen & Hall).
  exists sps'. split; [exact Hsps |]. split; [exact Hlen |].
  destruct (Hall 0%nat _ eq_refl) as (sp' & Hsp & _ & Htotal).
  destruct (Htotal eq_refl) as (total & Ht & -> & _).
  exists sp'. split; [exact Hsp | exact Ht].
Defined.

(** C9 as stated fails: a speaker whose only segment lasts a quarter of a
    second is given a total speaking time of 0, a quarter of a second away
    from the sum of its segment durations. *)
Lemma speakingTime_is_rounded :
  speakers (updateSpeakerStatistics quarterSecond)
  = Some [ {| id := "s1"; name := "Speaker 1"; totalSpeakingTime := Some 0;
              segmentCount := Some 1%nat; averageConfidence := Some 90 |} ] ∧
  speakingTime [ {| speaker := {| sp_id := "s1"; sp_name := "Speaker 1" |};
                    startTime := 0; endTime := 1 # 4; confidence := 90 |} ] "s1" = 1 # 4 ∧
  ¬ Qabs (0 - (1 # 4)) <= 1 # 1000000.
Proof. repeat split. vm_compute. intros H. apply H. reflexivity. Qed.

End SpeakerStatistics.

(** ** Job processing *)

Section Jobs.
Import JS TranscriptionController JobSpec.

Lemma find_map_id (f : TranscriptDoc → TranscriptDoc) (l : list TranscriptDoc) (k : nat) :
  (∀ t, _id (f t) = _id t) →
  List.find (fun t => Nat.eqb (_id t) k) (List.map f l)
  = f <$> List.find (fun t => Nat.eqb (_id t) k) l.
Proof.
  intros Hf. induction l as [| x l IH]; [reflexivity |].
  cbn [List.map List.find]. rewrite Hf. now destruct (Nat.eqb (_id x) k).
Qed.

Lemma findById_markFailed (tid : nat) (message : string) (w : World) (k : nat) :
  findById (markFailed tid message w) k
  = (fun t => if Nat.eqb (_id t) tid then failedWith message t else t) <$> findById w k.
Proof.
  unfold findById, markFailed. cbn [transcripts withTranscripts].
  apply find_map_id. intros t. now destruct (Nat.eqb (_id t) tid).
Qed.

Lemma findById_id (w : World) (k : nat) (t : TranscriptDoc) :
  findById w k = Some t → _id t = k.
Proof. intros H. apply find_some in H as [_ H]. now apply Nat.eqb_eq. Qed.

Lemma findById_stored_existing (t : TranscriptDoc) (w : World) (k : nat) :
  findById w (_id t) ≠ None →
  findById (stored t w) k = if Nat.eqb k (_id t) then Some t else findById w k.
Proof.
  intros Hex. unfold stored. destruct (findById w (_id t)) as [old |] eqn:Hold; [| congruence].
  unfold findById. cbn [transcripts withTranscripts].
  rewrite find_map_id by (intros x; destruct (Nat.eqb_spec (_id x) (_id t)); congruence).
  fold (findById w k). destruct (findById w k) as [x |] eqn:Hx; cbn.
  - apply findById_id in Hx. subst k. now destruct (Nat.eqb (_id x) (_id t)).
  - destruct (Nat.eqb_spec k (_id t)) as [-> | _]; [congruence | reflexivity].
Qed.


(** Running the [try] block changes the transcripts in one of two ways. *)
Lemma mbind_update {B : Type} (f : World → World) (k : unit → M B) (w : World) :
  mbind (update f) k w = k tt (f w).
Proof. reflexivity. Qed.

Lemma mbind_lift {A B : Type} (o : outcome A) (k : A → M B) (w : World) :
  mbind (lift o) k w = match o with Returned a => k a w | Thrown e => (w, Thrown e) end.
Proof. now destruct o. Qed.

Lemma dispatch_run (ext : Externals) (service : string) (audioData : AudioData)
    (language : string) (w : World) :
  dispatch ext service audioData language w
  = match providerCall ext service audioData language with
    | Some o => (noteCall service w, o)
    | None => (w, Thrown ("Unsupported STT service: " +:+ service))
    end.
Proof.
  unfold dispatch, providerCall.
  repeat match goal with |- context [String.eqb service ?n] =>
    destruct (String.eqb service n); [reflexivity |] end.
  reflexivity.
Qed.

(** [processTranscriptionJob], one case per way the [try] block can end. *)
Lemma process_cases (env : AIServiceManager.Env) (ext : Externals) (jobData : JobData)
    (w : World) :
  processTranscriptionJob env ext jobData w
  = let w0 := setJob jobData processing None w in
    match findById w (transcriptId jobData) with
    | None => onError jobData "Transcript record not found" w0
    | Some transcript =>
      match processAudioFile ext (filePath jobData) with
      | Thrown e => onError jobData e w0
      | Returned audioData =>
        match AIServiceManager.getServiceConfig env (j_service jobData) with
        | Thrown e => onError jobData e w0
        | Returned _ =>
          match providerCall ext (j_service jobData) audioData (j_language jobData) with
          | None => onError jobData ("Unsupported STT service: " +:+ j_service jobData) w0
          | Some (Thrown e) => onError jobData e (noteCall (j_service jobData) w0)
          | Some (Returned r) =>
              let done := completedTranscript transcript (j_language jobData) r in
              match validate ext done with
              | Thrown e => onError jobData e (noteCall (j_service jobData) w0)
              | Returned _ =>
                  setJob jobData completed None
                    (setMeetingStatus (j_meetingId jobData) "transcribed"
                       (stored done (noteCall (j_service jobData) w0)))
              end
          end
        end
      end
    end.
Proof.
  unfold processTranscriptionJob, tryProcess. rewrite mbind_update. cbv zeta.
  unfold mbind at 1.
  change (findById (setJob jobData processing None w) (transcriptId jobData))
    with (findById w (transcriptId jobData)).
  destruct (findById w (transcriptId jobData)) as [transcript |]; [| reflexivity].
  rewrite mbind_lift.
  destruct (processAudioFile ext (filePath jobData)) as [audioData | e]; [| reflexivity].
  rewrite mbind_lift.
  destruct (AIServiceManager.getServiceConfig env (j_service jobData)) as [cfg | e];
    [| reflexivity].
  unfold mbind at 1. rewrite dispatch_run.
  destruct (providerCall ext (j_service jobData) audioData (j_language jobData))
    as [[r | e] |]; [| reflexivity | reflexivity].
  unfold mbind at 1, save.
  destruct (validate ext (completedTranscript transcript (j_language jobData) r));
    reflexivity.
Qed.





(** *** Status transitions *)



Lemma ids_stored_existing (t : TranscriptDoc) (w : World) :
  findById w (_id t) ≠ None →
  List.map _id (transcripts (stored t w)) = List.map _id (transcripts w).
Proof.
  intros Hex. unfold stored. destruct (findById w (_id t)); [| congruence].
  cbn [transcripts withTranscripts]. rewrite List.map_map. apply List.map_ext.
  intros x. now destruct (Nat.eqb_spec (_id x) (_id t)).
Qed.


Lemma ids_markFailed (tid : nat) (message : string) (w : World) :
  List.map _id (transcripts (markFailed tid message w)) = List.map _id (transcripts w).
Proof.
  unfold markFailed. cbn [transcripts withTranscripts]. rewrite List.map_map.
  apply List.map_ext. intros x. now destruct (Nat.eqb (_id x) tid).
Qed.



Lemma nextId_stored (t : TranscriptDoc) (w : World) : nextId (stored t w) = nextId w.
Proof. unfold stored. now destruct (findById w (_id t)). Qed.


















(** With the [transcribeWith...] methods the controller itself defines, the
    queued job fails on its first run as well. *)
Example placeholder_job_fails :
  statusOf (step SelectorSpec.onlyFPT submitted
                 (Work (placeholders alwaysTimingOut) theJob)) 0
  = Some failed.
Proof. reflexivity. Qed.

End Jobs.

(** * Further properties of the code *)

(** ** Job processing: the other ways a run can end *)

Section JobRuns.
Import JS TranscriptionController JobSpec StoreSpec.







(** X3. Whatever happens, a run of [processTranscriptionJob] calls a provider at
    most once, never adds to or removes from the queue, creates or deletes no
    transcript document, and leaves every transcript other than its own as it
    was. *)
Theorem processTranscriptionJob_frame (env : AIServiceManager.Env) (ext : Externals)
    (jobData : JobData) (w : World) :
  let w' := processTranscriptionJob env ext jobData w in
  queue w' = queue w ∧
  nextId w' = nextId w ∧
  quota w' = quota w ∧
  List.map _id (transcripts w') = List.map _id (transcripts w) ∧
  (attempts w' = attempts w ∨ attempts w' = S (attempts w)) ∧
  ∀ k, k ≠ transcriptId jobData → findById w' k = findById w k.
Proof.
  cbv zeta.
  assert (Hstored : ∀ t (x : World),
             queue (stored t x) = queue x ∧ quota (stored t x) = quota x ∧
             providerCalls (stored t x) = providerCalls x)
    by (intros t x; unfold stored; now destruct (findById x (_id t))).
  assert (Hfail : ∀ message (x : World),
             transcripts x = transcripts w →
             List.map _id (transcripts (onError jobData message x))
               = List.map _id (transcripts w) ∧
             ∀ k, k ≠ transcriptId jobData →
                  findById (onError jobData message x) k = findById w k).
  { intros message x Hx. split.
    - unfold onError. cbn [setMeetingStatus withMeetings setJob withJobs transcripts].
      rewrite ids_markFailed. now rewrite Hx.
    - intros k Hk. unfold onError.
      change (findById (setMeetingStatus ?m ?s (setJob ?j ?st ?err ?y)) ?k')
        with (findById y k').
      rewrite findById_markFailed. unfold findById at 1. rewrite Hx. fold (findById w k).
      destruct (findById w k) as [t |] eqn:Ht; [| reflexivity]. cbn.
      apply findById_id in Ht. subst k.
      destruct (Nat.eqb_spec (_id t) (transcriptId jobData)); [contradiction | reflexivity]. }
  assert (Hcalled : ∀ message,
             queue (onError jobData message
                      (noteCall (j_service jobData) (setJob jobData processing None w)))
               = queue w ∧
             nextId (onError jobData message
                       (noteCall (j_service jobData) (setJob jobData processing None w)))
               = nextId w ∧
             quota (onError jobData message
                      (noteCall (j_service jobData) (setJob jobData processing None w)))
               = quota w ∧
             List.map _id (transcripts (onError jobData message
                      (noteCall (j_service jobData) (setJob jobData processing None w))))
               = List.map _id (transcripts w) ∧
             (attempts (onError jobData message
                      (noteCall (j_service jobData) (setJob jobData processing None w)))
                = attempts w ∨
              attempts (onError jobData message
                      (noteCall (j_service jobData) (setJob jobData processing None w)))
                = S (attempts w)) ∧
             ∀ k, k ≠ transcriptId jobData →
                  findById (onError jobData message
                      (noteCall (j_service jobData) (setJob jobData processing None w))) k
                  = findById w k).
  { intros message.
    destruct (Hfail message (noteCall (j_service jobData) (setJob jobData processing None w))
                eq_refl) as [Hids Hother].
    repeat split; try reflexivity; [exact Hids | | exact Hother].
    right. unfold attempts, onError. cbn. rewrite length_app. cbn. lia. }
  rewrite process_cases. cbv zeta.
  destruct (findById w (transcriptId jobData)) as [transcript |] eqn:Hfind;
    [| destruct (Hfail "Transcript record not found" (setJob jobData processing None w)
                  eq_refl) as [Hids Hother];
       repeat split; try reflexivity; [exact Hids | now left | exact Hother]].
  destruct (processAudioFile ext (filePath jobData)) as [audioData | e];
    [| destruct (Hfail e (setJob jobData processing None w) eq_refl) as [Hids Hother];
       repeat split; try reflexivity; [exact Hids | now left | exact Hother]].
  destruct (AIServiceManager.getServiceConfig env (j_service jobData)) as [config | e];
    [| destruct (Hfail e (setJob jobData processing None w) eq_refl) as [Hids Hother];
       repeat split; try reflexivity; [exact Hids | now left | exact Hother]].
  destruct (providerCall ext (j_service jobData) audioData (j_language jobData))
    as [[r | e] |].
  - cbv zeta. destruct (validate ext _) as [[] | e]; [| apply Hcalled].
    set (w1 := noteCall (j_service jobData) (setJob jobData processing None w)).
    set (t' := completedTranscript transcript (j_language jobData) r).
    pose proof (findById_id _ _ _ Hfind) as Hid.
    assert (Hex : findById w1 (_id t') ≠ None).
    { change (findById w1 (_id t')) with (findById w (_id transcript)).
      rewrite Hid, Hfind. discriminate. }
    destruct (Hstored t' w1) as (Hq & Hquota & Hp).
    cbn [queue nextId quota transcripts setJob withJobs setMeetingStatus withMeetings].
    rewrite Hq, Hquota, nextId_stored. repeat split.
    + now rewrite ids_stored_existing.
    + right. unfold attempts.
      cbn [providerCalls setJob withJobs setMeetingStatus withMeetings]. rewrite Hp.
      subst w1. cbn. rewrite length_app. cbn. lia.
    + intros k Hk.
      change (findById (setJob ?j ?s ?err (setMeetingStatus ?m ?st ?x)) ?k')
        with (findById x k').
      rewrite findById_stored_existing by exact Hex.
      change (_id t') with (_id transcript). rewrite Hid.
      destruct (Nat.eqb_spec k (transcriptId jobData)); [contradiction | reflexivity].
  - apply Hcalled.
  - destruct (Hfail ("Unsupported STT service: " +:+ j_service jobData)
                (setJob jobData processing None w) eq_refl) as [Hids Hother].
    repeat split; try reflexivity; [exact Hids | now left | exact Hother].
Qed.

End JobRuns.

(** ** Submission *)

Section Submission.
Import JS TranscriptionController JobSpec StoreSpec.

Lemma find_file (documents : list File) (k : nat) :
  match List.find (fun f => Nat.eqb (f_id f) k) documents with
  | Some file => In file documents ∧ f_id file = k
  | None => ∀ file, In file documents → f_id file ≠ k
  end.
Proof.
  destruct (List.find _ documents) as [file |] eqn:Hf.
  - apply find_some in Hf as [Hin Heq]. now apply Nat.eqb_eq in Heq.
  - intros file Hin Heq. pose proof (find_none _ _ Hf file Hin) as Hne. cbn in Hne.
    apply Nat.eqb_neq in Hne. contradiction.
Qed.

Lemma ownMeeting_unique (w : World) (req : StartRequest) (m m' : Meeting) :
  ownMeeting w req m → ownMeeting w req m' → m = m'.
Proof. intros [Hm _] [Hm' _]. congruence. Qed.

(** How the meeting of a request stands: the three cases exclude each other. *)
Lemma notFound_not_owned (w : World) (req : StartRequest) :
  notFound w req → ¬ ownsFile w req.
Proof.
  intros [Hnone | (m & ds & Hm & Hfs & Hno)] (m' & ds' & f & Hm' & Hfs' & Hin & Hf).
  - exact (Hnone m' Hm').
  - pose proof (ownMeeting_unique _ _ _ _ Hm Hm') as <-.
    assert (ds' = ds) by congruence. subst ds'. exact (Hno f Hin Hf).
Qed.

Lemma object_not_found (w : World) (req : StartRequest) (meeting : Meeting) :
  ownMeeting w req meeting → files meeting = FileObject →
  ¬ notFound w req ∧ ¬ ownsFile w req.
Proof.
  intros Hm Hfs. split.
  - intros [Hnone | (m & ds & Hm' & Hfs' & _)]; [exact (Hnone meeting Hm) |].
    pose proof (ownMeeting_unique _ _ _ _ Hm Hm') as <-. congruence.
  - intros (m & ds & f & Hm' & Hfs' & _).
    pose proof (ownMeeting_unique _ _ _ _ Hm Hm') as <-. congruence.
Qed.

(** The guards of the [try] block, in the order in which they are tried. *)
Lemma tryStart_guards (env : AIServiceManager.Env) (ext : Externals) (req : StartRequest)
    (w : World) :
  let '(w', response, queued) := tryStart env ext req w in
  (notFound w req ∧ response = NotFound404 ∧ w' = w ∧ queued = None) ∨
  ((∃ meeting, ownMeeting w req meeting ∧ files meeting = FileObject) ∧
   response = Error500 "meeting.files.find is not a function" ∧ w' = w ∧ queued = None) ∨
  (ownsFile w req ∧
   ∃ existing, findOneByMeeting w (req_meetingId req) = Some existing ∧
               status existing ≠ failed ∧
               response = Conflict409 existing ∧ w' = w ∧ queued = None) ∨
  (ownsFile w req ∧
   (∀ existing, findOneByMeeting w (req_meetingId req) = Some existing →
                status existing = failed) ∧
   ((∃ message, response = Error500 message ∧ queued = None) ∨
    (∃ t jobData, response = Ok200 t ∧ queued = Some jobData))).
Proof.
  unfold tryStart. cbv zeta.
  destruct (meetings w !! req_meetingId req) as [meeting |] eqn:Hm;
    [| left; repeat split; left; intros m [Hm' _]; congruence].
  destruct (Nat.eqb_spec (m_userId meeting) (req_userId req)) as [Hu | Hu]; cbn [negb];
    [| left; repeat split; left; intros m [Hm' Hu']; congruence].
  assert (Hmeeting : ownMeeting w req meeting) by now split.
  destruct (files meeting) as [documents |] eqn:Hfs;
    [| right; left; repeat split; now exists meeting].
  pose proof (find_file documents (req_fileId req)) as Hfile.
  destruct (List.find _ documents) as [file |];
    [| left; repeat split; right; now exists meeting, documents].
  assert (Hown : ownsFile w req) by (exists meeting, documents, file; tauto).
  destruct (findOneByMeeting w (req_meetingId req)) as [existing |] eqn:Hex;
    cbn [alreadyExists].
  - destruct (bool_decide (status existing = failed)) eqn:Hst.
    + apply bool_decide_eq_true in Hst.
      assert (Hfailed : ∀ e, Some existing = Some e → status e = failed)
        by now intros e [= <-].
      destruct (quota w !! req_userId req);
        [| right; right; right; split; [exact Hown | split; [exact Hfailed | left; eauto]]].
      destruct (selectService env req _ file meeting);
        [| right; right; right; split; [exact Hown | split; [exact Hfailed | left; eauto]]].
      destruct (save ext _ w) as [w1 [[] | message]];
        [| right; right; right; split; [exact Hown | split; [exact Hfailed | left; eauto]]].
      destruct (saveMeeting ext) as [[] | message];
        [| right; right; right; split; [exact Hown | split; [exact Hfailed | left; eauto]]].
      destruct (lpush ext) as [[] | message];
        [| right; right; right; split; [exact Hown | split; [exact Hfailed | left; eauto]]].
      destruct (cacheSet ext) as [[] | message];
        right; right; right; (split; [exact Hown | split; [exact Hfailed |]]);
        [right | left]; eauto.
    + apply bool_decide_eq_false in Hst. right. right. left. split; [exact Hown |].
      exists existing. repeat split. exact Hst.
  - assert (Hfailed : ∀ e, @None TranscriptDoc = Some e → status e = failed)
      by discriminate.
    destruct (quota w !! req_userId req);
      [| right; right; right; split; [exact Hown | split; [exact Hfailed | left; eauto]]].
    destruct (selectService env req _ file meeting);
      [| right; right; right; split; [exact Hown | split; [exact Hfailed | left; eauto]]].
    destruct (save ext _ w) as [w1 [[] | message]];
      [| right; right; right; split; [exact Hown | split; [exact Hfailed | left; eauto]]].
    destruct (saveMeeting ext) as [[] | message];
      [| right; right; right; split; [exact Hown | split; [exact Hfailed | left; eauto]]].
    destruct (lpush ext) as [[] | message];
      [| right; right; right; split; [exact Hown | split; [exact Hfailed | left; eauto]]].
    destruct (cacheSet ext) as [[] | message];
      right; right; right; (split; [exact Hown | split; [exact Hfailed |]]);
      [right | left]; eauto.
Qed.

(** X4. Which requests [startTranscription] turns away before it writes
    anything.  It answers 404 exactly when the meeting does not exist, is not
    the requesting user's, or holds an array of files without the file of the
    request.  Where [meeting.files] is the nested object of the schema, the
    call of [find] throws and the answer is 500.  Otherwise it answers 409,
    with the meeting's transcript, exactly when the meeting has a transcript
    whose status is not [failed].  In all three cases the store is left as it
    was. *)
Theorem startTranscription_rejected (env : AIServiceManager.Env) (ext : Externals)
    (req : StartRequest) (w : World) :
  let w' := (startTranscription env ext req w).1 in
  let response := (startTranscription env ext req w).2 in
  (response = NotFound404 ↔ notFound w req) ∧
  (∀ meeting, ownMeeting w req meeting → files meeting = FileObject →
              response = Error500 "meeting.files.find is not a function" ∧ w' = w) ∧
  (∀ existing,
     response = Conflict409 existing
     ↔ ownsFile w req ∧
       findOneByMeeting w (req_meetingId req) = Some existing ∧
       status existing ≠ failed) ∧
  (response = NotFound404 ∨ (∃ existing, response = Conflict409 existing) → w' = w).
Proof.
  cbv zeta. unfold startTranscription.
  pose proof (tryStart_guards env ext req w) as Hg.
  destruct (tryStart env ext req w) as [[w' response] queued].
  destruct Hg as [(Hno & -> & -> & ->)
                 | [((m & Hm & Hfs) & -> & -> & ->)
                 | [(Hown & existing & Hex & Hst & -> & -> & ->)
                 | (Hown & Hfailed & Hlate)]]]; cbn [fst snd].
  - pose proof (notFound_not_owned _ _ Hno) as Hnot.
    split; [tauto |]. split; [| split; [| tauto]].
    + intros m Hm Hfs. destruct (object_not_found _ _ _ Hm Hfs) as [Hn _]. contradiction.
    + intros existing. split; [discriminate | tauto].
  - destruct (object_not_found _ _ _ Hm Hfs) as [Hn Hnot].
    split; [split; [discriminate | tauto] |]. split; [tauto |]. split; [| tauto].
    intros existing. split; [discriminate | tauto].
  - assert (Hn : ¬ notFound w req)
      by (intros Hn; exact (notFound_not_owned _ _ Hn Hown)).
    split; [split; [discriminate | tauto] |]. split; [| split; [| tauto]].
    + intros m Hm Hfs. destruct (object_not_found _ _ _ Hm Hfs) as [_ Hnot]. contradiction.
    + intros e. split.
      * intros [= <-]. tauto.
      * intros (_ & He & _). congruence.
  - assert (Hn : ¬ notFound w req)
      by (intros Hn; exact (notFound_not_owned _ _ Hn Hown)).
    assert (Hresp : (∃ message, response = Error500 message) ∨ ∃ t, response = Ok200 t).
    { destruct Hlate as [(message & -> & _) | (t & jobData & -> & _)]; eauto. }
    destruct queued as [jobData |]; cbn [fst snd] in *.
    all: split; [split; [intros ->; destruct Hresp as [[? ?] | [? ?]]; discriminate | tauto] |].
    all: split;
      [intros m Hm Hfs; destruct (object_not_found _ _ _ Hm Hfs) as [_ Hnot]; contradiction |].
    all: split; [| intros [-> | [e ->]]; destruct Hresp as [[? ?] | [? ?]]; discriminate].
    all: intros e; split;
      [intros ->; destruct Hresp as [[? ?] | [? ?]]; discriminate |].
    all: intros (_ & He & Hst); specialize (Hfailed e He); contradiction.
Qed.

Lemma startTranscription_rejected_witness :
  startTranscription SelectorSpec.onlyFPT alwaysTimingOut submitOther submitted
  = (submitted, NotFound404) ∧
  startTranscription SelectorSpec.onlyFPT alwaysTimingOut submitIt submitted
  = (submitted, Error500 "meeting.files.find is not a function").
Proof.
  pose proof (startTranscription_rejected SelectorSpec.onlyFPT alwaysTimingOut submitOther
                submitted) as (Hnone & _ & _ & Hsame).
  pose proof (startTranscription_rejected SelectorSpec.onlyFPT alwaysTimingOut submitIt
                submitted) as (_ & Hobject & _).
  cbv zeta in Hnone, Hsame, Hobject.
  split.
  - assert (Hresp : (startTranscription SelectorSpec.onlyFPT alwaysTimingOut submitOther
                       submitted).2 = NotFound404).
    { apply Hnone. left. intros m [Hm _]. vm_compute in Hm. discriminate. }
    rewrite (surjective_pairing (startTranscription _ _ _ _)), Hresp.
    now rewrite (Hsame (or_introl Hresp)).
  - destruct (Hobject (theMeeting "transcribing" (Some 0%nat))) as [Hresp Hw];
      [split; reflexivity | reflexivity |].
    now rewrite (surjective_pairing (startTranscription _ _ _ _)), Hresp, Hw.
Defined.

End Submission.

(** ** One transcript per meeting *)

Section PerMeeting.
Import JS TranscriptionController JobSpec StoreSpec.










End PerMeeting.

(** ** Merging short segments: what it preserves *)

Section MergingMore.
Import JS SpeechToTextService PostProcessSpec PostProcessMore.
Local Open Scope Q_scope.

Lemma join_spaced (p : ustring) (rest : list ustring) :
  join [SPACE] (p :: rest) = p ++ spaced rest.
Proof.
  revert p. induction rest as [| q rest IH]; intros p.
  - cbn. now rewrite app_nil_r.
  - change (join [SPACE] (p :: q :: rest)) with (p ++ [SPACE] ++ join [SPACE] (q :: rest)).
    rewrite IH. reflexivity.
Qed.

Lemma spaced_app (a b : list ustring) : spaced (a ++ b) = spaced a ++ spaced b.
Proof. unfold spaced. now rewrite List.map_app, List.concat_app. Qed.

Lemma spaced_absorb (cm s : Segment) :
  spaced [text (absorb cm s)] = spaced [text cm; text s].
Proof. unfold spaced. cbn. now rewrite ?app_nil_r, <- ?app_assoc. Qed.

(** The text held by the loop state together with the text still to come. *)
Lemma merge_spaced (minDuration : Q) (l acc : list Segment) (cm : option Segment) :
  spaced (List.map text (mergeFinish (fold_left (mergeStep minDuration) l (acc, cm))))
  = spaced (List.map text (acc ++ optList cm ++ l)).
Proof.
  revert acc cm. induction l as [| s l IH]; intros acc cm.
  - destruct cm; cbn [fold_left mergeFinish optList]; now rewrite ?app_nil_r.
  - cbn [fold_left mergeStep]. destruct (isShort minDuration s), cm as [c |]; rewrite IH;
      cbn [optList app]; try reflexivity.
    + rewrite !List.map_app, !spaced_app. f_equal.
      change (List.map text (absorb c s :: l)) with ([text (absorb c s)] ++ List.map text l).
      change (List.map text (c :: s :: l)) with ([text c; text s] ++ List.map text l).
      now rewrite !spaced_app, spaced_absorb.
    + now rewrite <- !app_assoc.
    + now rewrite <- !app_assoc.
Qed.

Lemma merge_length (minDuration : Q) (l acc : list Segment) (cm : option Segment) :
  (length (mergeFinish (fold_left (mergeStep minDuration) l (acc, cm)))
   ≤ length acc + length (optList cm) + length l)%nat.
Proof.
  revert acc cm. induction l as [| s l IH]; intros acc cm.
  - destruct cm; cbn; rewrite ?length_app; cbn; lia.
  - cbn [fold_left mergeStep]. destruct (isShort minDuration s), cm as [c |];
      (etransitivity; [apply IH |]); rewrite ?length_app; cbn; lia.
Qed.

Lemma merge_nonempty (minDuration : Q) (l acc : list Segment) (cm : option Segment) :
  acc ++ optList cm ++ l ≠ [] →
  mergeFinish (fold_left (mergeStep minDuration) l (acc, cm)) ≠ [].
Proof.
  revert acc cm. induction l as [| s l IH]; intros acc cm Hne.
  - destruct cm; cbn in *; [now destruct acc | now rewrite app_nil_r in Hne].
  - cbn [fold_left mergeStep]. destruct (isShort minDuration s), cm as [c |];
      apply IH; cbn; try (now destruct acc); now destruct (acc ++ _).
Qed.

(** X8. Merging changes neither the full text of the transcript (the segment texts
    joined by single spaces) nor, therefore, its words; it never yields more
    segments than it was given, and yields none only when given none. *)
Theorem mergeShortSegments_keeps_text (segments : list Segment) (minDuration : option Q) :
  fullText (mergeShortSegments segments minDuration) = fullText segments ∧
  (length (mergeShortSegments segments minDuration) ≤ length segments)%nat ∧
  (mergeShortSegments segments minDuration = [] ↔ segments = []).
Proof.
  unfold mergeShortSegments. set (m := default 2 minDuration).
  pose proof (merge_spaced m segments [] None) as Htext.
  pose proof (merge_length m segments [] None) as Hlen.
  pose proof (merge_nonempty m segments [] None) as Hne.
  cbn [app optList length] in Htext, Hlen, Hne.
  assert (Hempty : mergeFinish (fold_left (mergeStep m) segments ([], None)) = []
                   ↔ segments = []).
  { split; [| now intros ->].
    intros H. destruct segments as [| s l]; [reflexivity |].
    exfalso. now apply Hne. }
  split; [| split; [exact Hlen | exact Hempty]].
  unfold fullText.
  destruct segments as [| s l]; [reflexivity |].
  destruct (mergeFinish (fold_left (mergeStep m) (s :: l) ([], None))) as [| o out] eqn:Ho.
  - exfalso. now apply Hne.
  - cbn [List.map] in *. rewrite !join_spaced.
    unfold spaced in Htext. cbn [List.map List.concat] in Htext.
    now injection Htext.
Qed.

(** Every list is a run of short segments, possibly followed by a segment
    that is not short and the rest. *)
Lemma split_run (minDuration : Q) (l : list Segment) :
  Forall (fun s => isShort minDuration s = true) l ∨
  ∃ run s rest, l = run ++ s :: rest ∧
                Forall (fun s => isShort minDuration s = true) run ∧
                isShort minDuration s = false.
Proof.
  induction l as [| x l IH]; [left; constructor |].
  destruct (isShort minDuration x) eqn:Hx.
  - destruct IH as [Hall | (run & s & rest & -> & Hrun & Hs)].
    + left. now constructor.
    + right. exists (x :: run), s, rest. split; [reflexivity |]. split; [| exact Hs].
      now constructor.
  - right. exists [], x, l. split; [reflexivity |]. split; [constructor | exact Hx].
Qed.

Lemma coalesced_alone (c : Segment) : coalesced c [] = c.
Proof. now destruct c. Qed.

Lemma merge_long_head (minDuration : Q) (s : Segment) (rest : list Segment) :
  isShort minDuration s = false →
  mergeFinish (fold_left (mergeStep minDuration) (s :: rest) ([], None))
  = s :: mergeFinish (fold_left (mergeStep minDuration) rest ([], None)).
Proof. intros Hs. exact (merge_run_then minDuration [] s rest (List.Forall_nil _) Hs). Qed.

Lemma merge_single (minDuration : Q) (c : Segment) (rest : list Segment) :
  (∀ s tail, rest = s :: tail → isShort minDuration s = false) →
  mergeFinish (fold_left (mergeStep minDuration) (c :: rest) ([], None))
  = c :: mergeFinish (fold_left (mergeStep minDuration) rest ([], None)).
Proof.
  intros Hrest. destruct (isShort minDuration c) eqn:Hc; [| now apply merge_long_head].
  assert (Hone : Forall (fun s => isShort minDuration s = true) [c])
    by (now repeat constructor).
  destruct rest as [| s tail].
  - rewrite (merge_run minDuration [c] Hone). cbn [closeRun]. now rewrite coalesced_alone.
  - pose proof (Hrest s tail eq_refl) as Hs.
    pose proof (merge_run_then minDuration [c] s tail Hone Hs) as H.
    cbn [app closeRun] in H. rewrite H, coalesced_alone. f_equal.
    symmetry. now apply merge_long_head.
Qed.

Lemma merge_idempotent_upto (minDuration : Q) (n : nat) (l : list Segment) :
  (length l ≤ n)%nat →
  let once := mergeFinish (fold_left (mergeStep minDuration) l ([], None)) in
  mergeFinish (fold_left (mergeStep minDuration) once ([], None)) = once.
Proof.
  revert l. induction n as [| n IH]; intros l Hn; cbv zeta.
  - destruct l; [reflexivity | cbn in Hn; lia].
  - destruct (split_run minDuration l) as [Hall | (run & s & rest & -> & Hrun & Hs)].
    + rewrite (merge_run minDuration l Hall). destruct l as [| f more]; [reflexivity |].
      cbn [closeRun]. rewrite merge_single by (intros ? ? [=]). reflexivity.
    + rewrite (merge_run_then minDuration run s rest Hrun Hs).
      assert (Hrest : (length rest ≤ n)%nat)
        by (rewrite length_app in Hn; cbn in Hn; lia).
      specialize (IH rest Hrest). cbv zeta in IH.
      assert (Htail : mergeFinish
                        (fold_left (mergeStep minDuration)
                           (s :: mergeFinish (fold_left (mergeStep minDuration) rest ([], None)))
                           ([], None))
                      = s :: mergeFinish (fold_left (mergeStep minDuration) rest ([], None))).
      { rewrite (merge_long_head minDuration s _ Hs). now rewrite IH. }
      destruct run as [| f more]; cbn [closeRun app]; [exact Htail |].
      rewrite merge_single by (now intros ? ? [= <- _]). now rewrite Htail.
Qed.

(** X9. Merging a second time changes nothing: a merged segment that is still
    short stands alone between segments that are not. *)
Theorem mergeShortSegments_idempotent (segments : list Segment) (minDuration : option Q) :
  mergeShortSegments (mergeShortSegments segments minDuration) minDuration
  = mergeShortSegments segments minDuration.
Proof.
  unfold mergeShortSegments.
  exact (merge_idempotent_upto (default 2 minDuration) (length segments) segments
                               (Nat.le_refl _)).
Qed.

End MergingMore.

(** ** Paragraph breaks: what insertion preserves *)

Section ParagraphBreaksMore.
Import JS SpeechToTextService PostProcessSpec PostProcessMore.
Local Open Scope Q_scope.

Lemma ltb_same (threshold x : Q) : 0 <= threshold → ltb threshold (x - x) = false.
Proof.
  intros H. destruct (ltb threshold (x - x)) eqn:Hl; [| reflexivity].
  apply ltb_lt in Hl. exfalso. lra.
Qed.

Lemma insertBreaks_head (threshold : Q) (i : nat) (x : Segment) (l : list Segment) :
  ∃ tail, insertBreaks threshold i (x :: l) = x :: tail.
Proof. cbn [insertBreaks]. eexists. reflexivity. Qed.

Lemma insertBreaks_again (threshold : Q) (l : list Segment) :
  0 <= threshold →
  ∀ i j, insertBreaks threshold j (insertBreaks threshold i l) = insertBreaks threshold i l.
Proof.
  intros Hthr. induction l as [| cur rest IH]; intros i j; [reflexivity |].
  destruct rest as [| next rest']; [reflexivity |].
  specialize (IH (S i)).
  destruct (insertBreaks_head threshold (S i) next rest') as [tail Htail].
  change (insertBreaks threshold i (cur :: next :: rest'))
    with (cur :: (if ltb threshold (startTime next - endTime cur)
                  then [paragraphBreak i cur next] else [])
              ++ insertBreaks threshold (S i) (next :: rest')).
  rewrite Htail in *.
  destruct (ltb threshold (startTime next - endTime cur)) eqn:Hgap; cbn [app].
  - change (insertBreaks threshold j (cur :: paragraphBreak i cur next :: next :: tail))
      with (cur :: (if ltb threshold (endTime cur - endTime cur) then
                      [paragraphBreak j cur (paragraphBreak i cur next)] else [])
                ++ paragraphBreak i cur next
                :: (if ltb threshold (startTime next - startTime next) then
                      [paragraphBreak (S j) (paragraphBreak i cur next) next] else [])
                ++ insertBreaks threshold (S (S j)) (next :: tail)).
    rewrite !ltb_same by exact Hthr. cbn [app]. now rewrite IH.
  - change (insertBreaks threshold j (cur :: next :: tail))
      with (cur :: (if ltb threshold (startTime next - endTime cur)
                    then [paragraphBreak j cur next] else [])
                ++ insertBreaks threshold (S j) (next :: tail)).
    rewrite Hgap. cbn [app]. now rewrite IH.
Qed.

Lemma insertBreaks_strip (threshold : Q) (i : nat) (l : list Segment) :
  Forall (fun s => isParagraphBreak s = false) l →
  List.filter (fun s => negb (isParagraphBreak s)) (insertBreaks threshold i l) = l.
Proof.
  intros Hl. revert i. induction Hl as [| cur rest Hcur Hrest IH]; intros i; [reflexivity |].
  cbn [insertBreaks List.filter]. rewrite Hcur. cbn [negb]. f_equal.
  rewrite List.filter_app, IH.
  destruct rest as [| next rest']; [reflexivity |].
  now destruct (ltb threshold (startTime next - endTime cur)).
Qed.

Lemma insertBreaks_length (threshold : Q) (i : nat) (l : list Segment) :
  (length l ≤ length (insertBreaks threshold i l) ≤ 2 * length l - 1)%nat.
Proof.
  revert i. induction l as [| cur rest IH]; intros i; [cbn; lia |].
  cbn [insertBreaks length]. rewrite length_app. specialize (IH (S i)).
  destruct rest as [| next rest']; [cbn; lia |].
  destruct (ltb threshold (startTime next - endTime cur)); cbn [length] in *; lia.
Qed.

Lemma addParagraphBreaks_insertBreaks (segments : list Segment)
    (silenceThreshold : option Q) :
  addParagraphBreaks segments silenceThreshold
  = insertBreaks (default 3 silenceThreshold) 0 segments.
Proof.
  exact (addParagraphBreaks_loop_spec (default 3 silenceThreshold) segments [] []).
Qed.

(** X10. With a threshold that is not negative, inserting paragraph breaks a second
    time adds nothing: a marker touches both of its neighbours. *)
Theorem addParagraphBreaks_idempotent (segments : list Segment)
    (silenceThreshold : option Q) :
  0 <= default 3 silenceThreshold →
  addParagraphBreaks (addParagraphBreaks segments silenceThreshold) silenceThreshold
  = addParagraphBreaks segments silenceThreshold.
Proof.
  intros Hthr. rewrite !addParagraphBreaks_insertBreaks.
  now apply insertBreaks_again.
Qed.

Lemma addParagraphBreaks_idempotent_witness :
  0 <= 3 ∧
  addParagraphBreaks (addParagraphBreaks farApart None) None
  = addParagraphBreaks farApart None.
Proof.
  assert (H : 0 <= 3) by discriminate.
  split; [exact H |]. exact (addParagraphBreaks_idempotent farApart None H).
Defined.

(** X11. Insertion only adds markers: on segments none of which is a marker,
    dropping the markers from the output gives the input back, and between
    [n] segments at most [n - 1] markers are inserted. *)
Theorem addParagraphBreaks_only_adds (segments : list Segment)
    (silenceThreshold : option Q) :
  Forall (fun s => isParagraphBreak s = false) segments →
  List.filter (fun s => negb (isParagraphBreak s))
              (addParagraphBreaks segments silenceThreshold) = segments ∧
  (length segments ≤ length (addParagraphBreaks segments silenceThreshold)
   ≤ 2 * length segments - 1)%nat.
Proof.
  intros Hl. rewrite addParagraphBreaks_insertBreaks. split.
  - now apply insertBreaks_strip.
  - apply insertBreaks_length.
Qed.

Lemma addParagraphBreaks_only_adds_witness :
  Forall (fun s => isParagraphBreak s = false) farApart ∧
  List.filter (fun s => negb (isParagraphBreak s)) (addParagraphBreaks farApart None)
  = farApart.
Proof.
  assert (H : Forall (fun s => isParagraphBreak s = false) farApart)
    by (repeat constructor).
  split; [exact H |]. exact (proj1 (addParagraphBreaks_only_adds farApart None H)).
Defined.

End ParagraphBreaksMore.

(** ** Text cleaning: the shape of cleaned text *)

Section CleaningMoreProofs.
Import JS SpeechToTextService CleaningSpec CleaningMore.

Lemma Forall_trimStart (P : N → Prop) (s : ustring) : Forall P s → Forall P (trimStart s).
Proof.
  induction 1 as [| c rest Hc Hrest IH]; [constructor |].
  cbn [trimStart]. destruct (is_space c); [exact IH | now constructor].
Qed.

Lemma Forall_trimEnd (P : N → Prop) (s : ustring) : Forall P s → Forall P (trimEnd s).
Proof.
  induction 1 as [| c rest Hc Hrest IH]; [constructor |].
  cbn [trimEnd]. destruct (trimEnd rest) as [| c' rest'].
  - destruct (is_space c); [constructor | now repeat constructor].
  - now constructor.
Qed.

Lemma onlySpaces_collapse (b : bool) (s : ustring) : onlySpaces (collapse b s).
Proof.
  unfold onlySpaces. revert b. induction s as [| c rest IH]; intros b; [constructor |].
  cbn [collapse]. destruct (is_space c) eqn:Hc.
  - destruct b; [apply IH |]. constructor; [reflexivity | apply IH].
  - constructor; [congruence | apply IH].
Qed.

Lemma endsClean_trimEnd (s : ustring) : endsClean (trimEnd s) = true.
Proof.
  unfold endsClean. induction s as [| c rest IH]; [reflexivity |].
  cbn [trimEnd]. destruct (trimEnd rest) as [| c' rest'] eqn:Hr.
  - destruct (is_space c) eqn:Hc; [reflexivity |]. cbn. now rewrite Hc.
  - exact IH.
Qed.

Lemma length_trimStart (s : ustring) : (length (trimStart s) ≤ length s)%nat.
Proof.
  induction s as [| c rest IH]; [reflexivity |]. cbn [trimStart].
  destruct (is_space c); cbn [length]; lia.
Qed.

Lemma length_trimEnd (s : ustring) : (length (trimEnd s) ≤ length s)%nat.
Proof.
  induction s as [| c rest IH]; [reflexivity |]. cbn [trimEnd].
  destruct (trimEnd rest); [destruct (is_space c) |]; cbn [length] in *; lia.
Qed.

Lemma length_collapse (b : bool) (s : ustring) : (length (collapse b s) ≤ length s)%nat.
Proof.
  revert b. induction s as [| c rest IH]; intros b; [reflexivity |]. cbn [collapse].
  destruct (is_space c); [destruct b |]; cbn [length];
    try (pose proof (IH true)); try (pose proof (IH false)); lia.
Qed.

(** X12. Whatever the input, cleaned text begins and ends with a character that is
    not whitespace, contains only word characters, punctuation and the space
    character (no tab, newline or other whitespace survives), and is never
    longer than the input. *)
Theorem cleanTranscriptText_shape (s : ustring) :
  startsClean (cleanTranscriptText s) = true ∧
  endsClean (cleanTranscriptText s) = true ∧
  allKept (cleanTranscriptText s) ∧
  onlySpaces (cleanTranscriptText s) ∧
  (length (cleanTranscriptText s) ≤ length s)%nat.
Proof.
  unfold cleanTranscriptText, trim, removeSpecial, collapseWhitespace.
  split; [apply startsClean_trimEnd, startsClean_trimStart |].
  split; [apply endsClean_trimEnd |].
  split; [apply allKept_trimEnd, allKept_trimStart, allKept_removeSpecial |].
  split.
  - apply Forall_trimEnd, Forall_trimStart.
    pose proof (onlySpaces_collapse false s) as H. unfold onlySpaces in *.
    rewrite List.Forall_forall in *. intros c Hc. apply H.
    now apply filter_In in Hc.
  - etransitivity; [apply length_trimEnd |]. etransitivity; [apply length_trimStart |].
    etransitivity; [apply List.filter_length_le |]. apply length_collapse.
Qed.

End CleaningMoreProofs.

(** ** Speaker statistics: counts and averages *)

Section SpeakerMoreProofs.
Import JS Transcript SpeakerSpec SpeakerMore.
Local Open Scope Q_scope.

Lemma count_addAll (l : list Segment) (st : Stats) :
  st_segmentCount (addAll st l) = (st_segmentCount st + length l)%nat.
Proof.
  revert st. induction l as [| s l IH]; intros st; [cbn; lia |].
  unfold addAll in *. cbn [fold_left length]. rewrite IH. cbn. lia.
Qed.

Lemma confidence_addAll (l : list Segment) (st : Stats) :
  totalConfidence (addAll st l)
  = fold_left Qplus (List.map confidence l) (totalConfidence st).
Proof.
  revert st. induction l as [| s l IH]; intros st; [reflexivity |].
  unfold addAll in *. cbn [fold_left List.map]. now rewrite IH.
Qed.

Lemma fold_sum_bounds (lo hi : Q) (l : list Q) (a : Q) :
  Forall (fun c => lo <= c <= hi) l →
  a + lo * inject_Z (Z.of_nat (length l)) <= fold_left Qplus l a
  <= a + hi * inject_Z (Z.of_nat (length l)).
Proof.
  intros Hl. revert a. induction Hl as [| c l Hc Hl IH]; intros a.
  - cbn [fold_left length]. change (inject_Z (Z.of_nat 0)) with 0. lra.
  - cbn [fold_left length]. specialize (IH (a + c)).
    rewrite Nat2Z.inj_succ, <- Z.add_1_r, inject_Z_plus.
    change (inject_Z 1) with 1. nra.
Qed.

Lemma Math_round_bounds (x : Q) (lo hi : Z) :
  inject_Z lo <= x <= inject_Z hi → (lo <= Math_round x <= hi)%Z.
Proof.
  intros [Hlo Hhi]. unfold Math_round. split.
  - apply Qfloor_resp_le in Hlo. rewrite Qfloor_Z in Hlo.
    etransitivity; [exact Hlo |]. apply Qfloor_resp_le. lra.
  - assert (H : x + (1 # 2) < inject_Z (hi + 1))
      by (rewrite inject_Z_plus; change (inject_Z 1) with 1; lra).
    pose proof (Qfloor_le (x + (1 # 2))) as Hf.
    assert (Hlt : inject_Z (Qfloor (x + (1 # 2))) < inject_Z (hi + 1)) by lra.
    rewrite <- Zlt_Qlt in Hlt. lia.
Qed.

(** X13. After [updateSpeakerStatistics] every listed speaker keeps its name.
    A speaker whose id is not the name of a property that every object
    inherits has [segmentCount] equal to the number of segments carrying its
    id; without segments its three statistics are reset to 0, whatever they
    were; with segments its [averageConfidence] is [Math.round] of the mean of
    their confidences, which lies within any integer bounds that hold for all
    confidences. *)
Theorem updateSpeakerStatistics_counts (content : Content)
    (segs : list Segment) (sps : list Speaker) :
  segments content = Some segs →
  speakers content = Some sps →
  ∃ sps', speakers (updateSpeakerStatistics content) = Some sps' ∧
    ∀ i sp, sps !! i = Some sp →
      ∃ sp', sps' !! i = Some sp' ∧
        name sp' = name sp ∧
        (inherited (id sp) = false →
         segmentCount sp' = Some (segmentsOf segs (id sp)) ∧
         (segmentsOf segs (id sp) = 0%nat →
          totalSpeakingTime sp' = Some 0 ∧ averageConfidence sp' = Some 0) ∧
         (segmentsOf segs (id sp) ≠ 0%nat →
          averageConfidence sp'
          = Some (inject_Z (Math_round (confidenceSum segs (id sp)
                                        / inject_Z (Z.of_nat (segmentsOf segs (id sp)))))) ∧
          ∀ lo hi : Z,
            Forall (fun s => inject_Z lo <= confidence s <= inject_Z hi) segs →
            (lo <= Math_round (confidenceSum segs (id sp)
                               / inject_Z (Z.of_nat (segmentsOf segs (id sp)))) <= hi)%Z)).
Proof.
  intros Hsegs Hsps. unfold updateSpeakerStatistics. rewrite Hsegs, Hsps.
  eexists. split; [reflexivity |].
  intros i sp Hi. rewrite List.map_map.
  exists (applyStats (fold_left accumulate segs ∅) (resetSpeaker sp)).
  split; [change (List.map ?f sps) with (f <$> sps); now rewrite list_lookup_fmap, Hi |].
  unfold applyStats, segmentsOf, confidenceSum. cbn [resetSpeaker id name].
  destruct (inherited (id sp)) eqn:Hk.
  - rewrite (fold_accumulate_inherited segs ∅ (id sp) Hk (lookup_empty _)).
    split; [reflexivity | discriminate].
  - rewrite fold_accumulate_lookup by exact Hk. rewrite lookup_empty. cbn [default].
    destruct (List.filter (spokenBy (id sp)) segs) as [| s l] eqn:Hf.
    + cbn. split; [reflexivity |]. intros _.
      split; [reflexivity |]. split; [intros _; split; reflexivity | congruence].
    + cbn [name segmentCount averageConfidence totalSpeakingTime].
      rewrite count_addAll, confidence_addAll. cbn [noStats st_segmentCount totalConfidence].
      split; [reflexivity |]. intros _.
      split; [reflexivity |]. split; [intros [=] |].
      intros _. split; [reflexivity |].
      intros lo hi Hall.
      assert (Hmine : Forall (fun c => inject_Z lo <= c <= inject_Z hi)
                             (List.map confidence (s :: l))).
      { rewrite <- Hf. apply List.Forall_map. rewrite List.Forall_forall in *.
        intros x Hx. apply Hall. now apply filter_In in Hx. }
      pose proof (fold_sum_bounds _ _ _ 0 Hmine) as Hsum.
      rewrite length_map in Hsum.
      set (n := inject_Z (Z.of_nat (length (s :: l)))) in *.
      assert (Hn : 0 < n).
      { subst n. change 0 with (inject_Z 0). rewrite <- Zlt_Qlt. cbn [length]. lia. }
      set (total := fold_left Qplus (List.map confidence (s :: l)) 0) in *.
      assert (Hmean : inject_Z lo <= total / n <= inject_Z hi).
      { split.
        - apply Qle_shift_div_l; [exact Hn | lra].
        - apply Qle_shift_div_r; [exact Hn | lra]. }
      exact (Math_round_bounds _ _ _ Hmean).
Qed.

Lemma updateSpeakerStatistics_counts_witness :
  speakers (updateSpeakerStatistics staleSpeaker)
  = Some [ {| id := "s1"; name := "Speaker 1"; totalSpeakingTime := Some 5;
              segmentCount := Some 2%nat; averageConfidence := Some 80 |};
           {| id := "s2"; name := "Speaker 2"; totalSpeakingTime := Some 0;
              segmentCount := Some 0%nat; averageConfidence := Some 0 |} ] ∧
  ∃ sps', speakers (updateSpeakerStatistics staleSpeaker) = Some sps' ∧
          ∃ sp', sps' !! 1%nat = Some sp' ∧ name sp' = "Speaker 2" ∧
                 segmentCount sp' = Some 0%nat ∧ totalSpeakingTime sp' = Some 0.
Proof.
  split; [reflexivity |].
  destruct (updateSpeakerStatistics_counts staleSpeaker _ _ eq_refl eq_refl)
    as (sps' & Hsps & Hall).
  exists sps'. split; [exact Hsps |].
  destruct (Hall 1%nat _ eq_refl) as (sp' & Hsp & Hname & Hown).
  destruct (Hown eq_refl) as (Hcount & Hzero & _).
  exists sp'. split; [exact Hsp |]. split; [exact Hname |]. split; [exact Hcount |].
  exact (proj1 (Hzero eq_refl)).
Defined.

End SpeakerMoreProofs.

(** ** LLM selection, usage statistics and the configuration check *)

Section Manager.
Import JS AIServiceManager ManagerServices ManagerSpec.

Lemma ltb_exclusive (x : Q) : ltb 8000 x = true → ltb x 4000 = false.
Proof.
  intros H. apply ltb_lt in H. destruct (ltb x 4000) eqn:H'; [| reflexivity].
  apply ltb_lt in H'. lra.
Qed.

(** X14. [getBestLLMService] only ever returns a service that is enabled; it throws
    ['No LLM services available'] exactly when none of openai, claude, local is
    enabled; and it returns the local service exactly when that is the only one
    enabled. *)
Theorem getBestLLMService_enabled (s : Settings) (taskType : option string)
    (tokenCount : option Q) :
  (∀ n, getBestLLMService s taskType tokenCount = Returned n → enabledLLM s n) ∧
  (∀ message, getBestLLMService s taskType tokenCount = Thrown message
              ↔ message = "No LLM services available" ∧
                OPENAI_ENABLED s = false ∧ CLAUDE_ENABLED s = false ∧
                LOCAL_LLM_ENABLED s = false) ∧
  (getBestLLMService s taskType tokenCount = Returned "local"
   ↔ OPENAI_ENABLED s = false ∧ CLAUDE_ENABLED s = false ∧ LOCAL_LLM_ENABLED s = true).
Proof.
  unfold getBestLLMService, getAvailableLLMServices, llmEntries, enabledLLM.
  cbn [List.filter e_enabled List.map e_name].
  destruct (String.eqb (default "summary" taskType) "summary"
            && ltb (default 0%Q tokenCount) 4000),
    (ltb 8000 (default 0%Q tokenCount)),
    (OPENAI_ENABLED s), (CLAUDE_ENABLED s), (LOCAL_LLM_ENABLED s);
    cbn; (split; [| split]); try (intros n [= <-]); try (intros n [=]);
    try (intros message); try (split; intros H);
    try discriminate; try tauto; try (now destruct H as (-> & _));
    try (now destruct H as (_ & ? & ? & ?)); try (injection H as <-; tauto);
    intuition congruence.
Qed.

Lemma getBestLLMService_enabled_witness :
  getBestLLMService hosted None None = Returned "openai" ∧ enabledLLM hosted "openai".
Proof.
  split; [reflexivity |].
  exact (proj1 (getBestLLMService_enabled hosted None None) "openai" eq_refl).
Defined.

(** X15. Which hosted service is preferred depends on the token count alone: above
    8000 tokens claude is returned whenever it is enabled, even if openai is;
    at or below 8000 tokens openai is returned whenever it is enabled, whatever
    the task type. *)
Theorem getBestLLMService_preference (s : Settings) (taskType : option string)
    (tokenCount : Q) :
  ((8000 < tokenCount)%Q → CLAUDE_ENABLED s = true →
   getBestLLMService s taskType (Some tokenCount) = Returned "claude") ∧
  ((tokenCount <= 8000)%Q → OPENAI_ENABLED s = true →
   getBestLLMService s taskType (Some tokenCount) = Returned "openai").
Proof.
  unfold getBestLLMService, getAvailableLLMServices, llmEntries.
  change (default 0%Q (Some tokenCount)) with tokenCount.
  cbn [List.filter e_enabled List.map e_name]. split.
  - intros Hbig ->. apply ltb_lt in Hbig. rewrite (ltb_exclusive _ Hbig), Hbig, andb_false_r.
    now destruct (OPENAI_ENABLED s), (LOCAL_LLM_ENABLED s).
  - intros Hsmall ->.
    assert (Hnot : ltb 8000 tokenCount = false).
    { destruct (ltb 8000 tokenCount) eqn:H; [| reflexivity]. apply ltb_lt in H. lra. }
    rewrite Hnot.
    now destruct (String.eqb (default "summary" taskType) "summary" && ltb tokenCount 4000),
      (CLAUDE_ENABLED s), (LOCAL_LLM_ENABLED s).
Qed.

Lemma getBestLLMService_preference_witness :
  (8000 < 9000)%Q ∧ CLAUDE_ENABLED hosted = true ∧
  getBestLLMService hosted (Some "summary") (Some 9000%Q) = Returned "claude".
Proof.
  assert (H : (8000 < 9000)%Q) by reflexivity.
  split; [exact H |]. split; [reflexivity |].
  exact (proj1 (getBestLLMService_preference hosted (Some "summary") 9000%Q) H eq_refl).
Defined.

Lemma statsKey_injective (n t n' t' : string) :
  colonFree t = true → colonFree t' = true →
  statsKey n t = statsKey n' t' → t = t' ∧ n = n'.
Proof.
  unfold statsKey. revert t'. induction t as [| a r IH]; intros [| c r']; cbn.
  - intros _ _ [= Heq]. change (n = n') in Heq. now split.
  - rewrite andb_true_iff, negb_true_iff. intros _ [Hc _] [= <- _].
    now rewrite Ascii.eqb_refl in Hc.
  - rewrite andb_true_iff, negb_true_iff. intros [Ha _] _ [= -> _].
    now rewrite Ascii.eqb_refl in Ha.
  - rewrite !andb_true_iff. intros [_ Hr] [_ Hr'] [= -> Heq].
    destruct (IH r' Hr Hr' Heq) as [-> ->]. now split.
Qed.

(** X16. Reading back after [updateUsageStats]: the entry of the service holds the
    previous figures (zeros if there were none) plus the reported ones, a
    missing or zero request count being counted as one request; and the
    entries of all other services are untouched, provided service types
    contain no colon (the key is [type:name]). *)
Theorem updateUsageStats_then_get (serviceName serviceType : string) (usage : Usage)
    (now : nat) (usageStats : gmap string UsageStats) :
  let previous := default noUsage (usageStats !! statsKey serviceName serviceType) in
  let updated := updateUsageStats serviceName serviceType usage now usageStats in
  (serviceName ≠ "" → serviceType ≠ "" →
   getUsageStats (Some serviceName) (Some serviceType) updated
   = OneService (Some {| requests := (requests previous + num_or (u_requests usage) 1)%Q;
                         tokens := (tokens previous + num_or (u_tokens usage) 0)%Q;
                         characters :=
                           (characters previous + num_or (u_characters usage) 0)%Q;
                         cost := (cost previous + num_or (u_cost usage) 0)%Q;
                         lastUsed := Some now |})) ∧
  (u_requests usage = None ∨ u_requests usage = Some 0%Q →
   (requests <$> updated !! statsKey serviceName serviceType)
   = Some (requests previous + 1)%Q) ∧
  (∀ otherName otherType,
     colonFree serviceType = true → colonFree otherType = true →
     (otherName, otherType) ≠ (serviceName, serviceType) →
     updated !! statsKey otherName otherType = usageStats !! statsKey otherName otherType).
Proof.
  cbv zeta. split; [| split].
  - intros Hn Ht. unfold getUsageStats.
    assert (Hp : present (Some serviceName) && present (Some serviceType) = true)
      by (destruct serviceName, serviceType; try congruence; reflexivity).
    rewrite Hp. unfold updateUsageStats. cbn [default].
    now rewrite lookup_insert_eq.
  - intros Hreq. unfold updateUsageStats. rewrite lookup_insert_eq. cbn.
    now destruct Hreq as [-> | ->].
  - intros otherName otherType Hc Hc' Hne. unfold updateUsageStats.
    apply lookup_insert_ne. intros Hkey.
    destruct (statsKey_injective _ _ _ _ Hc Hc' Hkey) as [-> ->]. now apply Hne.
Qed.

Lemma updateUsageStats_then_get_witness :
  getUsageStats (Some "fpt") (Some "stt") (updateUsageStats "fpt" "stt" oneRequest 5 ∅)
  = OneService (Some {| requests := (0 + 1)%Q; tokens := (0 + 0)%Q;
                        characters := (0 + 0)%Q; cost := (0 + (1 # 4))%Q;
                        lastUsed := Some 5%nat |}) ∧
  updateUsageStats "fpt" "stt" oneRequest 5 ∅ !! statsKey "openai" "llm" = None.
Proof.
  destruct (updateUsageStats_then_get "fpt" "stt" oneRequest 5 ∅) as (Hget & _ & Hother).
  split.
  - apply Hget; discriminate.
  - rewrite (Hother "openai" "llm" eq_refl eq_refl) by discriminate. apply lookup_empty.
Defined.

Lemma issues_empty (A B : list string) (x y : bool) (m1 m2 : string) :
  Nat.eqb (length (let issues := A ++ B in
                   let issues := if negb x then issues ++ [m1] else issues in
                   if negb y then issues ++ [m2] else issues)) 0
  = Nat.eqb (length A) 0 && Nat.eqb (length B) 0 && x && y.
Proof.
  destruct x, y, A, B; cbn; rewrite ?length_app; cbn; try reflexivity;
    now rewrite ?Nat.add_succ_r, ?Nat.add_1_r.
Qed.

Lemma sttIssues_empty (s : Settings) :
  Nat.eqb (length (List.concat (List.map sttIssue (sttEntries s)))) 0
  = negb (AZURE_STT_ENABLED (stt s))
    && implb (FPT_STT_ENABLED (stt s)) (present (FPT_STT_API_KEY s))
    && implb (WHISPER_ENABLED (stt s)) (present (OPENAI_API_KEY s))
    && implb (GOOGLE_STT_ENABLED (stt s)) (present (GOOGLE_CLOUD_KEY_FILE s)).
Proof.
  unfold sttEntries, sttIssue.
  cbn [List.map List.concat e_enabled e_name apiKey keyFilename enabled
       fpt whisper google azure].
  change (present None) with false.
  now destruct (AZURE_STT_ENABLED (stt s)), (FPT_STT_ENABLED (stt s)),
    (WHISPER_ENABLED (stt s)), (GOOGLE_STT_ENABLED (stt s)),
    (present (FPT_STT_API_KEY s)), (present (OPENAI_API_KEY s)),
    (present (GOOGLE_CLOUD_KEY_FILE s)).
Qed.

Lemma llmIssues_empty (s : Settings) :
  Nat.eqb (length (List.concat (List.map llmIssue (llmEntries s)))) 0
  = implb (OPENAI_ENABLED s) (present (OPENAI_API_KEY s))
    && implb (CLAUDE_ENABLED s) (present (CLAUDE_API_KEY s)).
Proof.
  unfold llmEntries, llmIssue.
  cbn [List.map List.concat e_enabled e_name apiKey].
  change (present None) with false.
  now destruct (OPENAI_ENABLED s), (CLAUDE_ENABLED s), (LOCAL_LLM_ENABLED s),
    (present (OPENAI_API_KEY s)), (present (CLAUDE_API_KEY s)).
Qed.

Lemma validateConfiguration_valid_bool (s : Settings) :
  valid (validateConfiguration s)
  = negb (AZURE_STT_ENABLED (stt s))
    && implb (FPT_STT_ENABLED (stt s)) (present (FPT_STT_API_KEY s))
    && implb (WHISPER_ENABLED (stt s)) (present (OPENAI_API_KEY s))
    && implb (GOOGLE_STT_ENABLED (stt s)) (present (GOOGLE_CLOUD_KEY_FILE s))
    && (FPT_STT_ENABLED (stt s) || WHISPER_ENABLED (stt s) || GOOGLE_STT_ENABLED (stt s))
    && implb (OPENAI_ENABLED s) (present (OPENAI_API_KEY s))
    && implb (CLAUDE_ENABLED s) (present (CLAUDE_API_KEY s))
    && (OPENAI_ENABLED s || CLAUDE_ENABLED s || LOCAL_LLM_ENABLED s).
Proof.
  unfold validateConfiguration. cbn [valid].
  rewrite (issues_empty _ _ (List.existsb e_enabled (sttEntries s))
                            (List.existsb e_enabled (llmEntries s))).
  rewrite sttIssues_empty, llmIssues_empty.
  unfold sttEntries, llmEntries.
  cbn [List.existsb e_enabled enabled fpt whisper google azure].
  generalize (implb (FPT_STT_ENABLED (stt s)) (present (FPT_STT_API_KEY s))),
    (implb (WHISPER_ENABLED (stt s)) (present (OPENAI_API_KEY s))),
    (implb (GOOGLE_STT_ENABLED (stt s)) (present (GOOGLE_CLOUD_KEY_FILE s))),
    (implb (OPENAI_ENABLED s) (present (OPENAI_API_KEY s))),
    (implb (CLAUDE_ENABLED s) (present (CLAUDE_API_KEY s))).
  intros b1 b2 b3 b4 b5.
  now destruct (AZURE_STT_ENABLED (stt s)), (FPT_STT_ENABLED (stt s)),
    (WHISPER_ENABLED (stt s)), (GOOGLE_STT_ENABLED (stt s)),
    (OPENAI_ENABLED s), (CLAUDE_ENABLED s), (LOCAL_LLM_ENABLED s), b1, b2, b3, b4, b5.
Qed.

(** X17. [validateConfiguration] reports a valid configuration exactly when Azure
    STT is disabled, every other enabled STT service has its key (or key file)
    set, at least one STT service is enabled, every enabled hosted LLM service
    has its key set, and at least one LLM service is enabled.  An enabled Azure
    entry is always reported as missing its API key, whatever keys are set:
    its key is held in [subscriptionKey], which the check does not read. *)
Theorem validateConfiguration_valid (s : Settings) :
  (valid (validateConfiguration s) = true
   ↔ AZURE_STT_ENABLED (stt s) = false ∧
     (FPT_STT_ENABLED (stt s) = true → present (FPT_STT_API_KEY s) = true) ∧
     (WHISPER_ENABLED (stt s) = true → present (OPENAI_API_KEY s) = true) ∧
     (GOOGLE_STT_ENABLED (stt s) = true → present (GOOGLE_CLOUD_KEY_FILE s) = true) ∧
     (FPT_STT_ENABLED (stt s) = true ∨ WHISPER_ENABLED (stt s) = true ∨
      GOOGLE_STT_ENABLED (stt s) = true) ∧
     (OPENAI_ENABLED s = true → present (OPENAI_API_KEY s) = true) ∧
     (CLAUDE_ENABLED s = true → present (CLAUDE_API_KEY s) = true) ∧
     (OPENAI_ENABLED s = true ∨ CLAUDE_ENABLED s = true ∨ LOCAL_LLM_ENABLED s = true)) ∧
  (AZURE_STT_ENABLED (stt s) = true →
   In "STT service azure is enabled but missing API key" (issues (validateConfiguration s))).
Proof.
  split.
  - rewrite validateConfiguration_valid_bool.
    rewrite !andb_true_iff, negb_true_iff, !orb_true_iff, !implb_true_iff. tauto.
  - intros Haz. unfold validateConfiguration. cbv zeta. cbn [issues].
    assert (Hin : In "STT service azure is enabled but missing API key"
                     (List.concat (List.map sttIssue (sttEntries s)))).
    { apply in_concat. exists ["STT service azure is enabled but missing API key"].
      split; [| now left]. apply in_map_iff.
      exists {| e_name := "azure"; e_enabled := enabled (azure (stt s));
                apiKey := None; keyFilename := None;
                subscriptionKey := AZURE_SPEECH_KEY s |}.
      split; [| cbn; tauto]. unfold sttIssue. cbn. now rewrite Haz. }
    destruct (negb (List.existsb e_enabled (sttEntries s))),
      (negb (List.existsb e_enabled (llmEntries s)));
      rewrite ?in_app_iff; tauto.
Qed.

Lemma validateConfiguration_valid_witness :
  valid (validateConfiguration hosted) = true ∧
  AZURE_STT_ENABLED (stt hosted) = false.
Proof.
  split; [reflexivity |].
  exact (proj1 (proj1 (proj1 (validateConfiguration_valid hosted)) eq_refl)).
Defined.

End Manager.

(** ** Polling an AWS transcription job *)

Section Polling.
Import JS SpeechToTextMore PollSpec.

Lemma pollLoop_pending (responses : nat → outcome TranscriptionJob) (remaining attempt : nat) :
  (∀ k, attempt ≤ k < attempt + remaining → pendingb (responses k) = true) →
  pollLoop responses remaining attempt
  = {| polled := Thrown "AWS transcription job timeout";
       calls := attempt + remaining; waited := 5000 * (attempt + remaining) |}.
Proof.
  revert attempt. induction remaining as [| r IH]; intros attempt Hall.
  - cbn [pollLoop]. now rewrite Nat.add_0_r.
  - cbn [pollLoop]. pose proof (Hall attempt ltac:(lia)) as Hp. unfold pendingb in Hp.
    destruct (responses attempt) as [result | e]; [| discriminate].
    apply andb_true_iff in Hp as [H1 H2]. apply negb_true_iff in H1, H2.
    rewrite H1, H2, IH by (intros k Hk; apply Hall; lia).
    now replace (S attempt + r) with (attempt + S r) by lia.
Qed.

Lemma pollLoop_settles (responses : nat → outcome TranscriptionJob)
    (remaining attempt k : nat) :
  attempt ≤ k < attempt + remaining →
  (∀ j, attempt ≤ j < k → pendingb (responses j) = true) →
  pendingb (responses k) = false →
  pollLoop responses remaining attempt
  = {| polled := settle (responses k); calls := S k; waited := 5000 * k |}.
Proof.
  revert attempt. induction remaining as [| r IH]; intros attempt Hk Hbefore Hnot; [lia |].
  cbn [pollLoop]. destruct (Nat.eq_dec attempt k) as [-> | Hne].
  - unfold pendingb, settle in *. destruct (responses k) as [result | e]; [| reflexivity].
    destruct (String.eqb (TranscriptionJobStatus result) "COMPLETED"); [reflexivity |].
    destruct (String.eqb (TranscriptionJobStatus result) "FAILED"); [reflexivity |].
    discriminate.
  - pose proof (Hbefore attempt ltac:(lia)) as Hp. unfold pendingb in Hp.
    destruct (responses attempt) as [result | e]; [| discriminate].
    apply andb_true_iff in Hp as [H1 H2]. apply negb_true_iff in H1, H2.
    rewrite H1, H2. apply IH; [lia | | exact Hnot].
    intros j Hj. apply Hbefore. lia.
Qed.

(** X18. [pollAWSTranscriptionJob] asks until the first response that is not "still
    running": it then returns the job if it is COMPLETED, throws the failure
    reason if it is FAILED, and rethrows if the call itself threw; having made
    one call per response seen and waited five seconds after each earlier one.
    If the first [maxAttempts] (60 unless given) responses are all still
    running, it throws the timeout error after [maxAttempts] calls and
    [maxAttempts] waits of five seconds; with [maxAttempts = 0] it throws
    without asking once. *)
Theorem pollAWSTranscriptionJob_spec (responses : nat → outcome TranscriptionJob)
    (maxAttempts : option nat) :
  let limit := default 60 maxAttempts in
  ((∀ k, k < limit → pendingb (responses k) = true) →
   pollAWSTranscriptionJob responses maxAttempts
   = {| polled := Thrown "AWS transcription job timeout";
        calls := limit; waited := 5000 * limit |}) ∧
  (∀ k, k < limit →
        (∀ j, j < k → pendingb (responses j) = true) →
        pendingb (responses k) = false →
        pollAWSTranscriptionJob responses maxAttempts
        = {| polled := settle (responses k); calls := S k; waited := 5000 * k |}).
Proof.
  cbv zeta. unfold pollAWSTranscriptionJob. split.
  - intros Hall. rewrite pollLoop_pending; [reflexivity |]. intros k Hk. apply Hall. lia.
  - intros k Hk Hbefore Hnot. apply pollLoop_settles; [lia | | exact Hnot].
    intros j Hj. apply Hbefore. lia.
Qed.

Lemma pollAWSTranscriptionJob_spec_witness :
  pollAWSTranscriptionJob thirdTime None
  = {| polled := Returned {| TranscriptionJobStatus := "COMPLETED"; FailureReason := "" |};
       calls := 3; waited := 5000 * 2 |}.
Proof.
  refine (proj2 (pollAWSTranscriptionJob_spec thirdTime None) 2 _ _ eq_refl).
  - cbn. lia.
  - intros j Hj. destruct j as [| [| j]]; [reflexivity | reflexivity | lia].
Defined.

End Polling.

(** ** Splitting audio into chunks *)

Section Chunking.
Import JS AudioProcessingService ChunkSpec.
Local Open Scope Q_scope.

Lemma splitLoop_returns (tools : Tools) (input dir : string) (chunkDuration : Q)
    (n i : nat) (acc cs : list Chunk) :
  splitLoop tools input dir chunkDuration n i acc = Returned cs →
  ∃ new, cs = acc ++ new ∧ length new = n ∧
    ∀ j c, new !! j = Some c →
      index c = (i + j)%nat ∧
      startTime c = inject_Z (Z.of_nat (i + j)) * chunkDuration ∧
      path c = chunkFile tools dir (i + j).
Proof.
  revert i acc. induction n as [| n IH]; intros i acc.
  - cbn [splitLoop]. intros [= <-]. exists []. rewrite app_nil_r.
    split; [reflexivity |]. split; [reflexivity |]. intros j c Hj. discriminate.
  - cbn [splitLoop].
    destruct (extractAudioSegment tools input _ _ chunkDuration); [| discriminate].
    destruct (getAudioInfo tools _) as [chunkInfo | e]; [| discriminate].
    intros Hloop. destruct (IH _ _ Hloop) as (new & -> & Hlen & Hnew).
    eexists (_ :: new). split; [now rewrite <- app_assoc |].
    split; [cbn; now rewrite Hlen |].
    intros [| j] c Hj.
    + injection Hj as <-. cbn [index startTime path]. now rewrite Nat.add_0_r.
    + cbn in Hj. destruct (Hnew j c Hj) as (H1 & H2 & H3).
      replace (i + S j)%nat with (S i + j)%nat by lia. now split.
Qed.

(** Where the instant [t] falls among windows of length [chunkDuration]. *)
Lemma window_of (chunkDuration total t : Q) :
  0 < chunkDuration → 0 <= t → t < total →
  ∃ i : nat, (i < Z.to_nat (Math_ceil (total / chunkDuration)))%nat ∧
             inject_Z (Z.of_nat i) * chunkDuration <= t ∧
             t < inject_Z (Z.of_nat i) * chunkDuration + chunkDuration.
Proof.
  intros Hcd Ht0 Htt. unfold Math_ceil.
  set (q := t / chunkDuration).
  assert (Hq : q * chunkDuration == t) by (subst q; field; lra).
  assert (Hq0 : 0 <= q) by (subst q; apply Qle_shift_div_l; lra).
  assert (Hqt : q < total / chunkDuration) by (subst q; apply Qlt_shift_div_l; lra).
  pose proof (Qfloor_le q) as Hf1. pose proof (Qlt_floor q) as Hf2.
  rewrite inject_Z_plus in Hf2. change (inject_Z 1) with 1 in Hf2.
  pose proof (Qle_ceiling (total / chunkDuration)) as Hc.
  assert (Hfloor0 : (0 <= Qfloor q)%Z).
  { apply Qfloor_resp_le in Hq0. exact Hq0. }
  assert (Hlt : (Qfloor q < Qceiling (total / chunkDuration))%Z)
    by (rewrite Zlt_Qlt; lra).
  exists (Z.to_nat (Qfloor q)). rewrite Z2Nat.id by exact Hfloor0. split; [lia |].
  split; nra.
Qed.

(** X19. When [splitAudio] succeeds with a positive chunk duration (300 seconds
    unless given), it has cut [ceil(totalDuration / chunkDuration)] chunks;
    chunk [i] has index [i], the path [chunk i] of the output directory and
    start time [i * chunkDuration]; and every instant of the recording from 0
    up to its duration lies in the window of one of these chunks.  With a
    chunk duration other than zero the loop always ends, and any failure is
    reported with the prefix ['Audio splitting failed: ']. *)
Theorem splitAudio_chunks (tools : Tools) (input : string) (chunkDuration : option Q)
    (dir : option string) :
  let every := default 300 chunkDuration in
  (¬ every == 0 → splitAudio tools input chunkDuration dir ≠ None) ∧
  (∀ message, splitAudio tools input chunkDuration dir = Some (Thrown message) →
              ∃ e, message = "Audio splitting failed: " +:+ e) ∧
  (∀ r info,
     0 < every →
     getAudioInfo tools input = Returned info →
     splitAudio tools input chunkDuration dir = Some (Returned r) →
     totalDuration r = duration info ∧
     totalChunks r = length (chunks r) ∧
     length (chunks r) = Z.to_nat (Math_ceil (duration info / every)) ∧
     (∀ i c, chunks r !! i = Some c →
             index c = i ∧ startTime c = inject_Z (Z.of_nat i) * every ∧
             path c = chunkFile tools (outputDir r) i) ∧
     (∀ t, 0 <= t → t < duration info →
           ∃ i c, chunks r !! i = Some c ∧ startTime c <= t ∧ t < startTime c + every)).
Proof.
  cbv zeta. unfold splitAudio. cbv zeta.
  set (every := default 300 chunkDuration).
  set (d := match dir with Some EmptyString | None => chunksDir tools input | Some d => d end).
  split; [| split].
  - intros Hne. destruct (mkdir tools d); [| discriminate].
    destruct (getAudioInfo tools input); [| discriminate].
    destruct (Qeq_bool every 0) eqn:Hz; [| discriminate].
    apply Qeq_bool_iff in Hz. contradiction.
  - intros message. destruct (mkdir tools d); [| intros [= <-]; eauto].
    destruct (getAudioInfo tools input) as [audioInfo | e]; [| intros [= <-]; eauto].
    destruct (Qeq_bool every 0); [destruct (ltb 0 (duration audioInfo)); discriminate |].
    destruct (splitLoop _ _ _ _ _ _ _); [discriminate | intros [= <-]; eauto].
  - intros r info Hpos Hinfo. rewrite Hinfo.
    destruct (mkdir tools d); [| discriminate].
    destruct (Qeq_bool every 0) eqn:Hz; [apply Qeq_bool_iff in Hz; lra |].
    destruct (splitLoop tools input d every _ 0 []) as [cs | e] eqn:Hloop; [| discriminate].
    intros [= <-]. cbn [totalDuration totalChunks chunks outputDir].
    destruct (splitLoop_returns _ _ _ _ _ _ _ _ Hloop) as (new & -> & Hlen & Hnew).
    cbn [app] in *. split; [reflexivity |]. split; [reflexivity |]. split; [exact Hlen |].
    split; [exact Hnew |].
    intros t Ht0 Htt. destruct (window_of every (duration info) t Hpos Ht0 Htt)
      as (i & Hi & Hlo & Hhi).
    rewrite <- Hlen in Hi. apply lookup_lt_is_Some_2 in Hi as [c Hc].
    exists i, c. split; [exact Hc |].
    destruct (Hnew i c Hc) as (_ & -> & _). cbn [Nat.add]. split; assumption.
Qed.

Lemma splitAudio_chunks_witness :
  (0 < 300) ∧
  ∃ r, splitAudio steady "in.wav" None None = Some (Returned r) ∧
       totalChunks r = 3%nat ∧
       ∃ i c, chunks r !! i = Some c ∧ startTime c <= 650 ∧ 650 < startTime c + 300.
Proof.
  assert (Hpos : 0 < 300) by reflexivity.
  split; [exact Hpos |].
  destruct (splitAudio steady "in.wav" None None) as [[r | e] |] eqn:Hrun;
    try (vm_compute in Hrun; discriminate).
  exists r. split; [reflexivity |].
  destruct (proj2 (proj2 (splitAudio_chunks steady "in.wav" None None))
              r {| duration := 700; size := 1000 |} Hpos eq_refl Hrun)
    as (_ & Hn & Hlen & _ & Hcover).
  split; [rewrite Hn, Hlen; reflexivity |].
  apply Hcover; [discriminate | reflexivity].
Defined.

End Chunking.

(** ** The average confidence of a result *)

Section AverageConfidence.
Import JS SpeechToTextService SpeechToTextMore.
Local Open Scope Q_scope.

Lemma fold_confidence_bounds (l : list Segment) (acc : Q) :
  List.Forall (fun s => 0 <= confidence s <= 1) l →
  acc <= fold_left (fun sum segment => sum + num_or (Some (confidence segment)) 0) l acc
  ∧ fold_left (fun sum segment => sum + num_or (Some (confidence segment)) 0) l acc
    <= acc + inject_Z (Z.of_nat (length l)).
Proof.
  intros Hall. revert acc. induction Hall as [| s l [Hlo Hhi] _ IH]; intros acc.
  - cbn [fold_left length]. change (inject_Z (Z.of_nat 0)) with 0. lra.
  - cbn [fold_left length]. destruct (IH (acc + num_or (Some (confidence s)) 0)) as [IHlo IHhi].
    assert (Hc : num_or (Some (confidence s)) 0 == confidence s).
    { unfold num_or, truthy. destruct (Qeq_bool (confidence s) 0) eqn:Hz; [| reflexivity].
      apply Qeq_bool_iff in Hz. cbn [negb]. now rewrite Hz. }
    rewrite Nat2Z.inj_succ in *. unfold Z.succ. rewrite inject_Z_plus.
    change (inject_Z 1) with 1. lra.
Qed.

(** X20. [calculateAverageConfidence] returns 0 when the segment list is
    missing or empty, and otherwise an average that stays within the range of
    a confidence: when every segment's confidence lies between 0 and 1, so does
    the result. *)
Theorem calculateAverageConfidence_range (segments : option (list Segment)) :
  (∀ l s, segments = Some l → In s l → 0 <= confidence s <= 1) →
  0 <= calculateAverageConfidence segments <= 1
  ∧ (default [] segments = [] → calculateAverageConfidence segments = 0).
Proof.
  intros Hall. split.
  - destruct segments as [[| s l] |]; cbn -[fold_left]; try lra.
    assert (Hforall : List.Forall (fun s => 0 <= confidence s <= 1) (s :: l)).
    { apply List.Forall_forall. intros x Hx. now apply (Hall (s :: l)). }
    destruct (fold_confidence_bounds (s :: l) 0 Hforall) as [Hlo Hhi].
    set (total := fold_left _ (s :: l) 0) in *.
    set (n := inject_Z (Z.of_nat (length (s :: l)))) in *.
    assert (Hn : 0 < n).
    { unfold n. change 0 with (inject_Z 0). rewrite <- Zlt_Qlt. cbn [length]. lia. }
    split.
    + apply Qle_shift_div_l; [exact Hn | change (0 * n <= total); lra].
    + apply Qle_shift_div_r; [exact Hn | change (total <= 1 * n); lra].
  - destruct segments as [[| s l] |]; cbn [default]; try reflexivity. discriminate.
Qed.
Lemma calculateAverageConfidence_range_witness :
  0 <= calculateAverageConfidence (Some PostProcessSpec.farApart) <= 1.
Proof.
  apply (calculateAverageConfidence_range (Some PostProcessSpec.farApart)).
  intros l s [= <-] [<- | [<- | []]]; split; discriminate.
Defined.

End AverageConfidence.

(** ** The context of a search match *)

Section SearchContext.
Import JS ControllerHelpers ContextSpec.
Local Open Scope Z_scope.
Context {A : Type}.

Lemma substring_slice (s : list A) (a b : Z) :
  0 <= a <= b → b <= Z.of_nat (length s) →
  substring s a b = slice s (Z.to_nat a) (Z.to_nat b).
Proof.
  intros Hab Hb. unfold substring, slice, clamp.
  replace (Z.max 0 (Z.min a (Z.of_nat (length s)))) with a by lia.
  replace (Z.max 0 (Z.min b (Z.of_nat (length s)))) with b by lia.
  replace (Z.min a b) with a by lia. replace (Z.max a b) with b by lia.
  now rewrite Z2Nat.inj_sub by lia.
Qed.

Lemma slice_length (s : list A) (a b : nat) :
  (a ≤ b)%nat → (b ≤ length s)%nat → length (slice s a b) = (b - a)%nat.
Proof.
  intros Hab Hb. unfold slice. rewrite length_firstn, length_skipn. lia.
Qed.

Lemma slice_app (s : list A) (a b c : nat) :
  (a ≤ b)%nat → (b ≤ c)%nat → slice s a b ++ slice s b c = slice s a c.
Proof.
  intros Hab Hbc. unfold slice.
  replace (skipn b s) with (skipn (b - a) (skipn a s))
    by (rewrite drop_drop; f_equal; lia).
  rewrite take_take_drop. f_equal. lia.
Qed.

Lemma slice_whole (s : list A) (a b : nat) :
  (a ≤ b)%nat → firstn a s ++ slice s a b ++ skipn b s = s.
Proof.
  intros Hab. unfold slice.
  replace (skipn b s) with (skipn (b - a) (skipn a s))
    by (rewrite drop_drop; f_equal; lia).
  now rewrite !firstn_skipn.
Qed.

(** X21. [getContext] on a match that lies inside the text, with a
    non-negative context length: the match is the [length] items at [start];
    the three parts are adjacent, so that together with what precedes and
    follows them they make up the text again; and the context before and after
    has [contextLength] items, or fewer where the text ends first. *)
Theorem getContext_spec (text : list A) (start len : Z) (contextLength : option Z) :
  let n := default 50 contextLength in
  let c := getContext text start len contextLength in
  let from := Z.to_nat (Z.max 0 (start - n)) in
  let to := Z.to_nat (Z.min (Z.of_nat (length text)) (start + len + n)) in
  0 <= start → 0 <= len → start + len <= Z.of_nat (length text) → 0 <= n →
  matched c = slice text (Z.to_nat start) (Z.to_nat (start + len))
  ∧ Z.of_nat (length (matched c)) = len
  ∧ Z.of_nat (length (before c)) = Z.min n start
  ∧ Z.of_nat (length (after c)) = Z.min n (Z.of_nat (length text) - (start + len))
  ∧ firstn from text ++ before c ++ matched c ++ after c ++ skipn to text = text.
Proof.
  intros n c from to Hstart Hlen Hend Hn.
  assert (Hb : before c = slice text from (Z.to_nat start)).
  { unfold c, getContext. cbn [before]. fold n. unfold from. apply substring_slice; lia. }
  assert (Hm : matched c = slice text (Z.to_nat start) (Z.to_nat (start + len))).
  { unfold c, getContext. cbn [matched]. apply substring_slice; lia. }
  assert (Ha : after c = slice text (Z.to_nat (start + len)) to).
  { unfold c, getContext. cbn [after]. fold n. unfold to. apply substring_slice; lia. }
  split; [exact Hm |]. rewrite Hb, Hm, Ha.
  rewrite !slice_length by (unfold from, to; lia).
  split; [lia |]. split; [unfold from; lia |]. split; [unfold to; lia |].
  rewrite (app_assoc (slice _ _ _) (slice _ _ _)), slice_app by (unfold to; lia).
  rewrite (app_assoc (slice _ _ _) (slice _ _ _)), slice_app by (unfold from, to; lia).
  apply slice_whole. unfold from, to. lia.
Qed.

End SearchContext.

Lemma getContext_spec_witness :
  let text := JS.lit "the quick brown fox" in
  let c := ControllerHelpers.getContext text 4 5 (Some 3%Z) in
  ControllerHelpers.matched c = JS.lit "quick"
  ∧ ControllerHelpers.before c = JS.lit "he "
  ∧ firstn 1 text ++ ControllerHelpers.before c ++ ControllerHelpers.matched c
      ++ ControllerHelpers.after c ++ skipn 12 text = text.
Proof.
  cbv zeta.
  destruct (getContext_spec (JS.lit "the quick brown fox") 4 5 (Some 3%Z))
    as (Hm & _ & _ & _ & Hall); try (vm_compute; congruence).
  split; [rewrite Hm; reflexivity |]. split; [reflexivity |]. exact Hall.
Defined.

(** ** The cost of a transcription *)

Section Cost.
Import JS ControllerHelpers.
Local Open Scope Q_scope.

Lemma rates_positive (service : string) (rate : Q) :
  rates service = Some rate → 0 < rate ∧ num_or (rates service) 0 = rate.
Proof.
  unfold rates. intros H.
  repeat match type of H with
  | (if ?b then _ else _) = _ => destruct b
  end; inversion H; subst; split; reflexivity.
Qed.

(** X22. [calculateTranscriptionCost] for a service of the rate table charges
    every started minute in full: a duration of more than [m - 1] and at most
    [m] minutes costs [m] times the rate.  The cost is never negative for a
    non-negative duration and never decreases when the duration grows. *)
Theorem calculateTranscriptionCost_spec (service : string) (rate : Q) :
  rates service = Some rate →
  (∀ duration (m : Z), 60 * (inject_Z m - 1) < duration → duration <= 60 * inject_Z m →
     calculateTranscriptionCost service duration == rate * inject_Z m)
  ∧ (∀ duration, 0 <= duration → 0 <= calculateTranscriptionCost service duration)
  ∧ (∀ d1 d2, d1 <= d2 →
       calculateTranscriptionCost service d1 <= calculateTranscriptionCost service d2).
Proof.
  intros Hrate. destruct (rates_positive service rate Hrate) as [Hpos Hnum].
  unfold calculateTranscriptionCost. cbv zeta. rewrite Hnum.
  assert (Hmono : ∀ a b : Z, (a <= b)%Z → rate * inject_Z a <= rate * inject_Z b).
  { intros a b Hab. rewrite Zle_Qle in Hab. nra. }
  split; [| split].
  - intros duration m Hlo Hhi.
    assert (Hm : Qceiling (duration / 60) = m).
    { pose proof (Qle_ceiling (duration / 60)) as Hle.
      pose proof (Qceiling_lt (duration / 60)) as Hlt.
      assert (Hd : duration == 60 * (duration / 60)) by (field).
      apply Z.le_antisymm.
      - apply Z.lt_succ_r. rewrite Zlt_Qlt. unfold Z.succ. rewrite inject_Z_plus.
        change (inject_Z 1) with 1. unfold Z.sub in Hlt.
        rewrite inject_Z_plus, inject_Z_opp in Hlt.
        change (inject_Z 1) with 1 in Hlt. lra.
      - apply Z.lt_succ_r. rewrite Zlt_Qlt. unfold Z.succ. rewrite inject_Z_plus.
        change (inject_Z 1) with 1. lra. }
    now rewrite Hm.
  - intros duration Hd. apply Qle_trans with (rate * inject_Z 0).
    { change (inject_Z 0) with 0. lra. }
    apply Hmono.
    change 0%Z with (Qceiling 0). apply Qceiling_resp_le.
    apply Qle_shift_div_l; [reflexivity | lra].
  - intros d1 d2 Hd. apply Hmono. apply Qceiling_resp_le.
    unfold Qdiv. apply Qmult_le_compat_r; [exact Hd | discriminate].
Qed.

Lemma calculateTranscriptionCost_spec_witness :
  calculateTranscriptionCost "whisper" 61 == (6 # 1000) * 2
  ∧ calculateTranscriptionCost "whisper" 61 <= calculateTranscriptionCost "whisper" 120.
Proof.
  destruct (calculateTranscriptionCost_spec "whisper" (6 # 1000) eq_refl) as (Hm & _ & Hmono).
  split.
  - apply (Hm 61 2%Z); [reflexivity | discriminate].
  - apply Hmono. discriminate.
Defined.
End Cost.

(** ** Quality metrics of a stored transcript *)

Section QualityMetrics.
Import JS Transcript TranscriptMore.
Local Open Scope Q_scope.

Lemma Qfloor_unique (x : Q) (z : Z) : inject_Z z <= x → x < inject_Z z + 1 → Qfloor x = z.
Proof.
  intros Hlo Hhi.
  pose proof (Qfloor_le x) as Hle. pose proof (Qlt_floor x) as Hlt.
  rewrite inject_Z_plus in Hlt. change (inject_Z 1) with 1 in Hlt.
  apply Z.le_antisymm.
  - apply Z.lt_succ_r. rewrite Zlt_Qlt. unfold Z.succ. rewrite inject_Z_plus.
    change (inject_Z 1) with 1. lra.
  - apply Z.lt_succ_r. rewrite Zlt_Qlt. unfold Z.succ. rewrite inject_Z_plus.
    change (inject_Z 1) with 1. lra.
Qed.

Lemma Math_round_Z (z : Z) : Math_round (inject_Z z) = z.
Proof. unfold Math_round. apply Qfloor_unique; lra. Qed.

Lemma Math_round_mono (x y : Q) : x <= y → (Math_round x <= Math_round y)%Z.
Proof. intros H. unfold Math_round. apply Qfloor_resp_le. lra. Qed.

Lemma fold_confidence_between (lo hi : Q) (l : list TextSegment) (acc : Q) :
  List.Forall (fun s => lo <= confidence (seg s) <= hi) l →
  acc + lo * inject_Z (Z.of_nat (length l))
  <= fold_left (fun sum s => sum + confidence (seg s)) l acc
  ∧ fold_left (fun sum s => sum + confidence (seg s)) l acc
    <= acc + hi * inject_Z (Z.of_nat (length l)).
Proof.
  intros Hall. revert acc. induction Hall as [| s l [Hlo Hhi] _ IH]; intros acc.
  - cbn [fold_left length]. change (inject_Z (Z.of_nat 0)) with 0. lra.
  - cbn [fold_left length]. destruct (IH (acc + confidence (seg s))) as [IHlo IHhi].
    rewrite Nat2Z.inj_succ. unfold Z.succ. rewrite inject_Z_plus.
    change (inject_Z 1) with 1. lra.
Qed.

Lemma mean_between (lo hi : Q) (l : list TextSegment) :
  l ≠ [] → List.Forall (fun s => lo <= confidence (seg s) <= hi) l →
  lo <= fold_left (fun sum s => sum + confidence (seg s)) l 0 / inject_Z (Z.of_nat (length l))
  ∧ fold_left (fun sum s => sum + confidence (seg s)) l 0 / inject_Z (Z.of_nat (length l)) <= hi.
Proof.
  intros Hne Hall. destruct (fold_confidence_between lo hi l 0 Hall) as [Hlo Hhi].
  assert (Hn : 0 < inject_Z (Z.of_nat (length l))).
  { change 0 with (inject_Z 0). rewrite <- Zlt_Qlt. destruct l; [congruence | cbn [length]; lia]. }
  split.
  - apply Qle_shift_div_l; [exact Hn | lra].
  - apply Qle_shift_div_r; [exact Hn | lra].
Qed.

Lemma calculateQualityMetrics_quality (doc : Doc) (segments : list TextSegment) :
  d_segments doc = Some segments → segments ≠ [] →
  quality (calculateQualityMetrics doc)
  = {| q_segmentCount := length segments;
       wordCount := fold_left (fun total s => (total + wordsOf s)%nat) segments 0%nat;
       overallConfidence :=
         inject_Z (Math_round (fold_left (fun sum s => sum + confidence (seg s)) segments 0
                               / inject_Z (Z.of_nat (length segments))));
       averageSegmentLength :=
         fold_left (fun sum s => sum + (endTime (seg s) - startTime (seg s))) segments 0
         / inject_Z (Z.of_nat (length segments));
       hasLowConfidenceSegments :=
         Nat.ltb 0 (length (List.filter
           (fun s => ltb (confidence (seg s)) (lowConfidenceThreshold (quality doc))) segments));
       lowConfidenceThreshold := lowConfidenceThreshold (quality doc);
       speakerCount := length (default [] (d_speakers doc)) |}.
Proof.
  intros Hsegs Hne. unfold calculateQualityMetrics. rewrite Hsegs.
  destruct segments; [congruence | reflexivity].
Qed.

Lemma some_low (threshold : Q) (segments : list TextSegment) :
  Nat.ltb 0 (length (List.filter (fun s => ltb (confidence (seg s)) threshold) segments)) = true
  ↔ ∃ s, In s segments ∧ confidence (seg s) < threshold.
Proof.
  rewrite Nat.ltb_lt. split.
  - intros Hlen.
    destruct (List.filter _ segments) as [| s rest] eqn:Hf; [cbn in Hlen; lia |].
    assert (Hin : In s (List.filter (fun s => ltb (confidence (seg s)) threshold) segments))
      by (rewrite Hf; now left).
    apply filter_In in Hin as [Hin Hlt]. apply ltb_lt in Hlt. eauto.
  - intros (s & Hin & Hlt).
    assert (Hf : In s (List.filter (fun s => ltb (confidence (seg s)) threshold) segments)).
    { apply filter_In. split; [exact Hin | now apply ltb_lt]. }
    destruct (List.filter _ segments); [contradiction | cbn [length]; lia].
Qed.

(** X23. [calculateQualityMetrics] leaves a transcript without segments as it
    is.  Otherwise the overall confidence it stores is a whole number that
    stays within any whole bounds the segments' confidences keep, so within
    the schema's range 0 to 100 when they do; the low-confidence flag is set
    exactly when some segment's confidence is below the threshold, and when it
    is not set the overall confidence is at least the rounded threshold. *)
Theorem calculateQualityMetrics_spec (doc : Doc) :
  (default [] (d_segments doc) = [] → calculateQualityMetrics doc = doc)
  ∧ ∀ (segments : list TextSegment) (lo hi : Z),
      d_segments doc = Some segments → segments ≠ [] →
      (∀ s, In s segments → inject_Z lo <= confidence (seg s) <= inject_Z hi) →
      let q := quality (calculateQualityMetrics doc) in
      let threshold := lowConfidenceThreshold (quality doc) in
      q_segmentCount q = length segments
      ∧ (∃ z, overallConfidence q = inject_Z z ∧ (lo <= z <= hi)%Z)
      ∧ (hasLowConfidenceSegments q = true
         ↔ ∃ s, In s segments ∧ confidence (seg s) < threshold)
      ∧ (hasLowConfidenceSegments q = false
         → inject_Z (Math_round threshold) <= overallConfidence q).
Proof.
  split.
  - unfold calculateQualityMetrics. destruct (d_segments doc) as [[| s l] |]; cbn [default];
      try reflexivity. discriminate.
  - intros segments lo hi Hsegs Hne Hall q threshold. unfold q.
    rewrite (calculateQualityMetrics_quality doc segments Hsegs Hne).
    cbn [q_segmentCount overallConfidence hasLowConfidenceSegments]. fold threshold.
    split; [reflexivity |]. split; [| split].
    + eexists. split; [reflexivity |].
      apply List.Forall_forall in Hall.
      destruct (mean_between _ _ segments Hne Hall) as [Hlo Hhi].
      apply Math_round_mono in Hlo, Hhi. rewrite Math_round_Z in Hlo, Hhi. lia.
    + apply some_low.
    + intros Hflag. rewrite <- Zle_Qle. apply Math_round_mono.
      assert (Hge : List.Forall (fun s => threshold <= confidence (seg s) <= inject_Z hi) segments).
      { apply List.Forall_forall. intros s Hin. split; [| now apply Hall].
        apply Qnot_lt_le. intros Hlt.
        assert (Hsome : ∃ s, In s segments ∧ confidence (seg s) < threshold) by eauto.
        apply some_low in Hsome. congruence. }
      now destruct (mean_between _ _ segments Hne Hge).
Qed.

End QualityMetrics.

Lemma calculateQualityMetrics_spec_witness :
  let q := TranscriptMore.quality (TranscriptMore.calculateQualityMetrics QualitySpec.mixed) in
  (∃ z, TranscriptMore.overallConfidence q = inject_Z z ∧ (0 <= z <= 100)%Z)
  ∧ TranscriptMore.hasLowConfidenceSegments q = true.
Proof.
  cbv zeta.
  destruct (proj2 (calculateQualityMetrics_spec QualitySpec.mixed)
              [QualitySpec.said "s1" 0 2 90 "good morning"; QualitySpec.said "s2" 2 5 55 "hello"]
              0%Z 100%Z eq_refl)
    as (_ & Hrange & Hlow & _).
  - discriminate.
  - intros s [<- | [<- | []]]; split; discriminate.
  - split; [exact Hrange |]. apply Hlow.
    exists (QualitySpec.said "s2" 2 5 55 "hello"). split; [right; now left | reflexivity].
Defined.

(** ** Edits and version backups *)

Section Editing.
Import TranscriptMore EditSpec.
Context {Content Edit : Type}.

Lemma addEdit_later (edit : Edit) (t : Versioned Content Edit) :
  edits t ≠ [] →
  addEdit edit t
  = {| version := version t + 1; content := content t; edits := edits t ++ [edit];
       previousVersions := previousVersions t |}.
Proof. intros Hne. unfold addEdit. destruct (edits t) eqn:He; [congruence | now rewrite He]. Qed.

Lemma addEdit_first (edit : Edit) (t : Versioned Content Edit) :
  edits t = [] →
  addEdit edit t
  = {| version := version t + 1; content := content t; edits := [edit];
       previousVersions := previousVersions t ++ [initialBackup t] |}.
Proof.
  intros He. unfold addEdit. rewrite He.
  cbn [createVersionBackup version content edits previousVersions]. now rewrite He.
Qed.

Lemma addEdits_later (new : list Edit) (t : Versioned Content Edit) :
  edits t ≠ [] →
  version (addEdits new t) = (version t + length new)%nat
  ∧ content (addEdits new t) = content t
  ∧ edits (addEdits new t) = edits t ++ new
  ∧ previousVersions (addEdits new t) = previousVersions t.
Proof.
  revert t. induction new as [| edit new IH]; intros t Hne.
  - cbn. rewrite app_nil_r. repeat split. lia.
  - change (addEdits (edit :: new) t) with (addEdits new (addEdit edit t)).
    rewrite (addEdit_later edit t Hne).
    destruct (IH {| version := version t + 1; content := content t; edits := edits t ++ [edit];
                    previousVersions := previousVersions t |})
      as (Hv & Hc & He & Hp).
    { cbn [edits]. intros Happ. apply app_eq_nil in Happ as [_ Habs]. discriminate. }
    rewrite Hv, Hc, He, Hp. cbn [version content edits previousVersions length].
    rewrite <- app_assoc. repeat split. lia.
Qed.

(** X24. [addEdit], called once for each edit of a list: the version number
    grows by the number of edits, the edits are appended in order, and the
    content is left alone.  A backup is made once only, before the first edit a
    transcript ever receives, and it records the version number and the content
    from before that edit; a transcript that already has edits gets no further
    backup. *)
Theorem addEdit_history (new : list Edit) (t : Versioned Content Edit) :
  version (addEdits new t) = (version t + length new)%nat
  ∧ content (addEdits new t) = content t
  ∧ edits (addEdits new t) = edits t ++ new
  ∧ previousVersions (addEdits new t)
    = previousVersions t
      ++ match edits t, new with
         | [], _ :: _ => [initialBackup t]
         | _, _ => []
         end.
Proof.
  destruct new as [| edit new].
  - change (addEdits [] t) with t.
    destruct (edits t); cbn [length]; rewrite ?app_nil_r; repeat split; lia.
  - destruct (edits t) as [| e0 es] eqn:Hed.
    + change (addEdits (edit :: new) t) with (addEdits new (addEdit edit t)).
      rewrite (addEdit_first edit t Hed).
      destruct (addEdits_later new
                  {| version := version t + 1; content := content t; edits := [edit];
                     previousVersions := previousVersions t ++ [initialBackup t] |})
        as (Hv & Hc & He & Hp); [discriminate |].
      rewrite Hv, Hc, He, Hp. cbn [version content edits previousVersions length app].
      repeat split. lia.
    + destruct (addEdits_later (edit :: new) t) as (Hv & Hc & He & Hp); [congruence |].
      rewrite Hv, Hc, He, Hp, Hed, app_nil_r. repeat split.
Qed.

End Editing.

(** ** The per-user rate limit *)

Section RateLimit.
Import JS AuthMiddleware LimiterSpec.
Local Open Scope Z_scope.

Variables (maxRequests : Z) (windowMinutes : option Z).
Let windowMs := default 15 windowMinutes * 60 * 1000.

Lemma filter_filter_later (now later : Z) (l : list Z) :
  now <= later →
  List.filter (fun time => later - time <? windowMs)
              (List.filter (fun time => now - time <? windowMs) l)
  = List.filter (fun time => later - time <? windowMs) l.
Proof.
  intros Hle. induction l as [| t l IH]; [reflexivity |].
  cbn [List.filter].
  destruct (later - t <? windowMs) eqn:Hlater.
  - assert (Hnow : (now - t <? windowMs) = true) by (apply Z.ltb_lt in Hlater; apply Z.ltb_lt; lia).
    rewrite Hnow. cbn [List.filter]. rewrite Hlater. now f_equal.
  - destruct (now - t <? windowMs); [cbn [List.filter]; rewrite Hlater |]; exact IH.
Qed.

Lemma timesOf_app (userId : string) (passed : list (string * Z)) (other : string) (now : Z) :
  timesOf userId (passed ++ [(other, now)])
  = timesOf userId passed ++ (if String.eqb other userId then [now] else []).
Proof.
  unfold timesOf. rewrite List.filter_app, List.map_app. cbn [List.filter fst].
  now destruct (String.eqb other userId).
Qed.

Lemma tracks_later (clock later : Z) (requests : gmap string (list Z)) (passed : list (string * Z)) :
  clock <= later → tracks windowMs clock requests passed → tracks windowMs later requests passed.
Proof. intros Hle Htr userId now Hnow. apply Htr. lia. Qed.

Lemma serve_allowed (events : list Event) (clock : Z) (requests : gmap string (list Z))
    (passed : list (string * Z)) :
  ordered clock events → tracks windowMs clock requests passed →
  serve maxRequests windowMinutes events requests = allowed maxRequests windowMs passed events.
Proof.
  revert clock requests passed.
  induction events as [| [[userId |] now] rest IH]; intros clock requests passed Hord Htr;
    [reflexivity | |].
  - destruct Hord as [Hclock Hrest].
    cbn [serve allowed]. unfold userRateLimit. cbv zeta. fold windowMs.
    set (requests0 := match requests !! userId with
                      | None => <[userId := []]> requests
                      | Some _ => requests
                      end).
    assert (Hsame : ∀ u, default [] (requests0 !! u) = default [] (requests !! u)).
    { intros u. unfold requests0. destruct (requests !! userId) eqn:Hu; [reflexivity |].
      destruct (decide (u = userId)) as [-> | Hne].
      - now rewrite lookup_insert_eq, Hu.
      - now rewrite lookup_insert_ne by congruence. }
    rewrite Hsame.
    assert (Hvalid : List.filter (fun time => now - time <? windowMs)
                                 (default [] (requests !! userId))
                     = List.filter (fun time => now - time <? windowMs) (timesOf userId passed))
      by now apply Htr.
    unfold recent. rewrite <- Hvalid.
    set (validRequests := List.filter _ (default [] (requests !! userId))) in *.
    unfold Z.geb, Z.ltb.
    destruct (Z.of_nat (length validRequests) ?= maxRequests) eqn:Hcmp.
    + f_equal. apply (IH now); [exact Hrest |].
      intros u later Hlater. rewrite Hsame. apply Htr. lia.
    + f_equal. apply (IH now); [exact Hrest |].
      intros u later Hlater. rewrite timesOf_app.
      destruct (decide (u = userId)) as [-> | Hne].
      * rewrite lookup_insert_eq.
        change (default [] (Some (validRequests ++ [now]))) with (validRequests ++ [now]).
        rewrite String.eqb_refl.
        rewrite !List.filter_app. f_equal.
        unfold validRequests. rewrite filter_filter_later by exact Hlater.
        apply Htr. lia.
      * rewrite lookup_insert_ne by congruence.
        assert (Heqb : String.eqb userId u = false) by (apply String.eqb_neq; congruence).
        rewrite Heqb, app_nil_r, Hsame. apply Htr. lia.
    + f_equal. apply (IH now); [exact Hrest |].
      intros u later Hlater. rewrite Hsame. apply Htr. lia.
  - destruct Hord as [Hclock Hrest]. cbn [serve allowed userRateLimit]. f_equal.
    apply (IH now); [exact Hrest |]. now apply (tracks_later clock).
Qed.

(** X25. The per-user rate limit, for requests that arrive in the order of
    their times: a middleware made by [userRateLimit] lets a request of a user
    through exactly when fewer than [maxRequests] of that user's earlier
    requests were let through less than the window before it.  Requests without
    a user always pass, refused requests do not count, and the users do not
    affect each other.  The lists the closure keeps and prunes thus decide as
    the whole history would. *)
Theorem userRateLimit_window (events : list Event) (clock : Z) :
  ordered clock events →
  serve maxRequests windowMinutes events ∅ = allowed maxRequests windowMs [] events.
Proof.
  intros Hord. apply (serve_allowed events clock); [exact Hord |].
  intros userId now _. now rewrite lookup_empty.
Qed.

End RateLimit.

Lemma userRateLimit_window_witness :
  LimiterSpec.serve 2 (Some 1%Z) LimiterSpec.burst ∅
  = [AuthMiddleware.Continue; AuthMiddleware.Continue; AuthMiddleware.Fail 429;
     AuthMiddleware.Continue].
Proof.
  rewrite (userRateLimit_window 2 (Some 1%Z) LimiterSpec.burst 0%Z).
  - reflexivity.
  - cbn. repeat split; discriminate.
Defined.

(** With a clock that is set back the two differ: the pruned list has forgotten a
    request that the history still counts. *)
Lemma userRateLimit_needs_order :
  LimiterSpec.serve 2 (Some 1%Z) LimiterSpec.setBack ∅
  ≠ LimiterSpec.allowed 2 60000 [] LimiterSpec.setBack.
Proof. vm_compute. discriminate. Qed.
